(** * Wallet ledger of traffic-seo-be: a shallow embedding

    Source: [src/repositories/moneyRepo/transaction.repository.ts]
    ([createTransactionRepo], [getListTransactionRepo],
    [getTransactionByIdRepo]).

    The storage layer (Sequelize models and transactions) is modelled as an
    explicit world: a committed database, one write set per open
    unit-of-work, counters for auto-increment ids and handles, and a trace of
    the storage calls that were made.  Asynchronous code is a tree of awaited
    storage calls, so that one call can be run to its end and several calls
    can be interleaved at their [await] points. *)

From Stdlib Require Import Floats.
From stdpp Require Import gmap strings list fin_maps sorting.
From Stdlib Require Import ZArith Lia Sorting.Sorted Sorting.Permutation.

Open Scope string_scope.
Open Scope list_scope.
Open Scope Z_scope.

(** ** Numbers

    A JavaScript number is an IEEE 754 double, here a [float]: sums and
    differences are rounded to the nearest double, there are two zeros, two
    infinities and one [NaN], and every comparison with [NaN] is false.  A
    balance or an amount that is [null], [undefined] or a string is outside
    this model. *)

Definition num : Type := float.

Definition isNaN (n : num) : bool := is_nan n.

(** [parseFloat(n.toString())] on a number gives the number back, except
    that [-0] prints as "0" and comes back as [0]. *)
Definition parseFloat (n : num) : num := if is_zero n then 0%float else n.

(** [a < b] *)
Definition num_ltb (a b : num) : bool := (a <? b)%float.

(** [a <= b] *)
Definition num_leb (a b : num) : bool := (a <=? b)%float.

Definition num_add (a b : num) : num := (a + b)%float.

Definition num_sub (a b : num) : num := (a - b)%float.

Definition num_mul (a b : num) : num := (a * b)%float.

(** The whole number a double stands for, when it stands for one. *)
Definition whole (n : num) : option Z :=
  match Prim2SF n with
  | S754_zero _ => Some 0
  | S754_finite s m e =>
      if 0 <=? e then Some (cond_Zopp s (Z.pos m * 2 ^ e))
      else if Z.pos m mod 2 ^ (- e) =? 0
           then Some (cond_Zopp s (Z.pos m / 2 ^ (- e)))
           else None
  | _ => None
  end.

(** The sign of a double as the specification of the operations sees it:
    set for the negative numbers and for [-infinity], not for the zeros and
    not for [NaN]. *)
Definition below_zero (x : spec_float) : bool :=
  match x with
  | S754_finite true _ _ | S754_infinity true => true
  | _ => false
  end.

Definition not_a_number (x : spec_float) : bool :=
  match x with
  | S754_nan => true
  | _ => false
  end.

(** ** Enumerations *)

(** Modelled from the spec: the enum [TransactionType]
    ([enums/transactionType.enum]) is not part of the sources at hand.  The
    spec names DEPOSIT, PAY_SERVICE and REFUND_SERVICE "and others defined by
    the caller's domain".  Members are strings; [OTHER_TYPE label] is any
    string that is none of the three, the empty string included. *)
Inductive TransactionType : Type :=
  | PAY_SERVICE
  | DEPOSIT
  | REFUND_SERVICE
  | OTHER_TYPE (label : string).

(** Modelled from the spec: the enum [TransactionStatus]
    ([enums/transactionStatus.enum]) is not part of the sources at hand.  The
    spec gives PENDING, COMPLETED and FAILED as examples of a status;
    [OTHER_STATUS label] is any other string. *)
Inductive TransactionStatus : Type :=
  | PENDING
  | COMPLETED
  | FAILED
  | OTHER_STATUS (label : string).

#[global] Instance TransactionType_eq_dec : EqDecision TransactionType.
Proof. solve_decision. Defined.

#[global] Instance TransactionStatus_eq_dec : EqDecision TransactionStatus.
Proof. solve_decision. Defined.

(** ** Errors *)

(** Modelled from the spec: the class [ErrorType] ([types/Error.type]) is not
    part of the sources at hand; the spec describes it as
    [{kind: string, message: string, code?: any}], built by
    [new ErrorType(name, message, code)]. *)
Record ErrorType : Type := mkErrorType {
  name : string;
  message : string;
  code : option string
}.

(** What a [catch (error: any)] clause can see of a thrown value through
    [error.name], [error.message] and [error.code]; each may be missing. *)
Record Thrown : Type := mkThrown {
  th_name : option string;
  th_message : option string;
  th_code : option string
}.

Definition thrown_of (e : ErrorType) : Thrown :=
  mkThrown (Some (name e)) (Some (message e)) (code e).

(** [o || d] on an optional string: [undefined] and the empty string are
    falsy. *)
Definition or_default (o : option string) (d : string) : string :=
  match o with
  | Some s => if decide (s = "") then d else s
  | None => d
  end.

(** JavaScript truthiness of an optional string, of an optional number and
    of an optional member of the two enums: [undefined], the empty string,
    [0], [-0] and [NaN] are falsy. *)
Definition truthy_string (o : option string) : bool :=
  match o with
  | Some s => if decide (s = "") then false else true
  | None => false
  end.

Definition truthy_number (o : option num) : bool :=
  match o with
  | Some n => negb (is_zero n || is_nan n)
  | None => false
  end.

Definition truthy_status (o : option TransactionStatus) : bool :=
  match o with
  | Some (OTHER_STATUS label) => truthy_string (Some label)
  | Some _ => true
  | None => false
  end.

Definition truthy_type (o : option TransactionType) : bool :=
  match o with
  | Some (OTHER_TYPE label) => truthy_string (Some label)
  | Some _ => true
  | None => false
  end.

(** ** Rows and the database *)

(** Modelled from the spec: the interface [TransactionAttributes]
    ([interfaces/Transaction.interface]) is not part of the sources at hand;
    the spec lists [{id, walletId, amount, status, type, referenceId,
    isDeleted, createdAt, updatedAt}].  [updatedAt] is read nowhere and is
    left out. *)
Record TransactionAttributes : Type := mkTransaction {
  tx_id : Z;
  tx_walletId : Z;
  tx_amount : num;
  tx_status : TransactionStatus;
  tx_type : TransactionType;
  tx_referenceId : option string;
  tx_isDeleted : bool;
  tx_createdAt : Z
}.

(** Modelled from the spec: the model [Wallet] ([models/index.model]) is not
    part of the sources at hand; the spec gives a wallet a unique id and a
    balance.  This is the instance returned by [Wallet.findByPk]. *)
Record WalletInstance : Type := mkWallet {
  wallet_id : Z;
  wallet_balance : num
}.

Record Db : Type := mkDb {
  wallets : gmap Z num;
  transactions : list TransactionAttributes
}.

(** A write issued inside a unit-of-work. *)
Inductive Write : Type :=
  | InsertTransaction (row : TransactionAttributes)
  | SaveWallet (wid : Z) (balance : num).

(** [UPDATE ... WHERE id = wid] touches nothing when the row is absent. *)
Definition apply_write (db : Db) (wr : Write) : Db :=
  match wr with
  | InsertTransaction row => mkDb (wallets db) (transactions db ++ [row])
  | SaveWallet wid b => mkDb (alter (λ _, b) wid (wallets db)) (transactions db)
  end.

Definition apply_writes (ws : list Write) (db : Db) : Db :=
  foldl apply_write db ws.

(** ** The world *)

Definition handle : Type := nat.

Inductive Event : Type :=
  | EvFindByPk (tx : option handle) (wid : Z)
  | EvFindOne (tx : option handle)
  | EvBegin (h : handle)
  | EvCreate (h : handle) (id : Z)
  | EvSave (h : handle) (wid : Z)
  | EvCommit (h : handle) (ok : bool)
  | EvRollback (h : handle) (ok : bool).

Record World : Type := mkWorld {
  committed : Db;
  pending : gmap nat (list Write);
  next_handle : nat;
  next_id : Z;
  clock : Z;
  trace : list Event
}.

Definition writes_of (w : World) (h : handle) : list Write :=
  default [] (pending w !! h).

(** What a query sees: the committed rows, plus the unit-of-work's own
    writes when it is issued inside one. *)
Definition view (w : World) (tx : option handle) : Db :=
  match tx with
  | Some h => apply_writes (writes_of w h) (committed w)
  | None => committed w
  end.

Definition log (ev : Event) (w : World) : World :=
  mkWorld (committed w) (pending w) (next_handle w) (next_id w) (clock w)
          (trace w ++ [ev]).

Definition add_write (h : handle) (wr : Write) (w : World) : World :=
  mkWorld (committed w) (<[h := writes_of w h ++ [wr]]> (pending w))
          (next_handle w) (next_id w) (clock w) (trace w).

(** A new unit-of-work, with no write yet. *)
Definition open_handle (w : World) : World :=
  mkWorld (committed w) (<[next_handle w := []]> (pending w))
          (S (next_handle w)) (next_id w) (clock w)
          (trace w ++ [EvBegin (next_handle w)]).

(** The auto-increment counter moves on; it is not transactional. *)
Definition bump_id (w : World) : World :=
  mkWorld (committed w) (pending w) (next_handle w) (next_id w + 1) (clock w)
          (trace w).

(** [transaction.commit()]: the write set reaches the committed rows. *)
Definition commit (h : handle) (w : World) : World :=
  mkWorld (apply_writes (writes_of w h) (committed w)) (delete h (pending w))
          (next_handle w) (next_id w) (clock w) (trace w ++ [EvCommit h true]).

(** [transaction.rollback()]: the write set is dropped. *)
Definition rollback (h : handle) (w : World) : World :=
  mkWorld (committed w) (delete h (pending w))
          (next_handle w) (next_id w) (clock w) (trace w ++ [EvRollback h true]).

(** ** Asynchronous code

    A program is a tree: it returns, throws, or awaits one storage call and
    goes on with its result.  What runs between two awaits is ordinary
    evaluation and cannot be interrupted. *)

Inductive Prog (E A : Type) : Type :=
  | Ret (a : A)
  | Throw (e : E)
  | Await {X : Type} (call : World → World * X) (k : X → Prog E A).

Arguments Ret {E A} a.
Arguments Throw {E A} e.
Arguments Await {E A X} call k.

Fixpoint prog_bind {E A B : Type} (p : Prog E A) (k : A → Prog E B) : Prog E B :=
  match p with
  | Ret a => k a
  | Throw e => Throw e
  | Await call k' => Await call (λ x, prog_bind (k' x) k)
  end.

#[global] Instance Prog_ret {E : Type} : MRet (Prog E) := λ A a, Ret a.
#[global] Instance Prog_bind {E : Type} : MBind (Prog E) :=
  λ A B k p, prog_bind p k.

(** [try { body } catch (error) { handler }] *)
Fixpoint try_catch {E E' A : Type} (body : Prog E A) (handler : E → Prog E' A)
  : Prog E' A :=
  match body with
  | Ret a => Ret a
  | Throw e => handler e
  | Await call k => Await call (λ x, try_catch (k x) handler)
  end.

(** [await call]: a storage call that may throw. *)
Definition await {A : Type} (call : World → World * (Thrown + A))
  : Prog Thrown A :=
  Await call (λ r, match r with inl t => Throw t | inr a => Ret a end).

(** Code that awaits nothing: its result, or what it throws. *)
Definition lift {E A : Type} (r : E + A) : Prog E A :=
  match r with
  | inl e => Throw e
  | inr a => Ret a
  end.

(** Running one program to its end, with nothing in between. *)
Fixpoint exec {E A : Type} (p : Prog E A) (w : World) : World * (E + A) :=
  match p with
  | Ret a => (w, inr a)
  | Throw e => (w, inl e)
  | Await call k => let '(w', x) := call w in exec (k x) w'
  end.

(** One scheduling step: the awaited call is made and the program goes on to
    its next [await] (or to its end). *)
Definition step {E A : Type} (p : Prog E A) (w : World) : Prog E A * World :=
  match p with
  | Await call k => let '(w', x) := call w in (k x, w')
  | _ => (p, w)
  end.

(** ** The storage layer

    Every storage call either takes effect and returns, or throws and has no
    effect.  Which calls throw, and what, is given by [Faults]: one slot per
    call site of [createTransactionRepo] (each is reached at most once per
    call). *)

Record Faults : Type := mkFaults {
  f_findByPk : option Thrown;
  f_findOne : option Thrown;
  f_transaction : option Thrown;
  f_create : option Thrown;
  f_save : option Thrown;
  f_commit : option Thrown;
  f_rollback : option Thrown
}.

Definition no_faults : Faults :=
  mkFaults None None None None None None None.

(** The input object of [createTransactionRepo]. *)
Record TransactionData : Type := mkData {
  walletId : Z;
  amount : num;
  status : TransactionStatus;
  type : TransactionType;
  referenceId : option string
}.

(** [Wallet.findByPk(id, { transaction })] *)
Definition Wallet_findByPk (fl : Faults) (wid : Z) (tx : option handle)
    (w : World) : World * (Thrown + option WalletInstance) :=
  match f_findByPk fl with
  | Some t => (w, inl t)
  | None => (log (EvFindByPk tx wid) w,
             inr (mkWallet wid <$> wallets (view w tx) !! wid))
  end.

(** The [where] object [{ referenceId, type, isDeleted: false }]. *)
Definition same_reference (ref : option string) (ty : TransactionType)
    (row : TransactionAttributes) : bool :=
  bool_decide (tx_referenceId row = ref) &&
  bool_decide (tx_type row = ty) &&
  negb (tx_isDeleted row).

(** [TransactionModel.findOne({ where, transaction })] *)
Definition TransactionModel_findOne (fl : Faults) (ref : option string)
    (ty : TransactionType) (tx : option handle) (w : World)
  : World * (Thrown + option TransactionAttributes) :=
  match f_findOne fl with
  | Some t => (w, inl t)
  | None => (log (EvFindOne tx) w,
             inr (List.find (same_reference ref ty) (transactions (view w tx))))
  end.

(** [sequelizeSystem.transaction()] *)
Definition sequelizeSystem_transaction (fl : Faults) (w : World)
  : World * (Thrown + handle) :=
  match f_transaction fl with
  | Some t => (w, inl t)
  | None => (open_handle w, inr (next_handle w))
  end.

(** The row that [TransactionModel.create] builds from [data]: the next
    auto-increment id, the current time, and [isDeleted: false]. *)
Definition new_row (data : TransactionData) (w : World) : TransactionAttributes :=
  mkTransaction (next_id w) (walletId data) (amount data) (status data)
                (type data) (referenceId data) false (clock w).

(** [TransactionModel.create({...}, { transaction, fields })] *)
Definition TransactionModel_create (fl : Faults) (data : TransactionData)
    (h : handle) (w : World) : World * (Thrown + TransactionAttributes) :=
  match f_create fl with
  | Some t => (w, inl t)
  | None =>
      let row := new_row data w in
      (log (EvCreate h (tx_id row))
           (bump_id (add_write h (InsertTransaction row) w)),
       inr row)
  end.

(** [wallet.save({ transaction })] *)
Definition Wallet_save (fl : Faults) (wallet : WalletInstance) (h : handle)
    (w : World) : World * (Thrown + unit) :=
  match f_save fl with
  | Some t => (w, inl t)
  | None =>
      (log (EvSave h (wallet_id wallet))
           (add_write h (SaveWallet (wallet_id wallet) (wallet_balance wallet)) w),
       inr tt)
  end.

Definition transaction_commit (fl : Faults) (h : handle) (w : World)
  : World * (Thrown + unit) :=
  match f_commit fl with
  | Some t => (log (EvCommit h false) w, inl t)
  | None => (commit h w, inr tt)
  end.

Definition transaction_rollback (fl : Faults) (h : handle) (w : World)
  : World * (Thrown + unit) :=
  match f_rollback fl with
  | Some t => (log (EvRollback h false) w, inl t)
  | None => (rollback h w, inr tt)
  end.

(** ** [createTransactionRepo] *)

Definition is_None {A : Type} (o : option A) : bool :=
  match o with None => true | Some _ => false end.

(** [new ErrorType(name, message)] as a thrown value. *)
Definition new_error (n m : string) : Thrown := thrown_of (mkErrorType n m None).

(** The branch on [data.type] (lines 89-107): the new balance, or the error
    thrown.  Nothing is awaited here. *)
Definition update_balance (ty : TransactionType) (balance amount : num)
  : Thrown + num :=
  if bool_decide (ty = PAY_SERVICE) then
    if num_ltb balance amount then
      inl (new_error "InsufficientFundsError" "Insufficient wallet balance")
    else inr (num_sub balance amount)
  else if bool_decide (ty = DEPOSIT) || bool_decide (ty = REFUND_SERVICE) then
    inr (num_add balance amount)
  else
    inl (new_error "InvalidTypeError"
               "Transaction type must be PAY_SERVICE or DEPOSIT").

(** The inner [try { ... } catch (error) { ... }] (lines 66-123). *)
Definition write_step (fl : Faults) (data : TransactionData)
    (_transaction : option handle) (wallet : WalletInstance)
    (balance amount : num) (transaction : handle)
  : Prog Thrown TransactionAttributes :=
  try_catch
    (newTransaction ← await (TransactionModel_create fl data transaction);
     newBalance ← lift (update_balance (type data) balance amount);
     _ ← await (Wallet_save fl (mkWallet (wallet_id wallet) newBalance)
                            transaction);
     _ ← (if is_None _transaction
          then await (transaction_commit fl transaction)
          else mret tt);
     mret newTransaction)
    (λ error,
       _ ← (if is_None _transaction
            then await (transaction_rollback fl transaction)
            else mret tt);
       Throw error).

(** The check for an existing transaction (lines 33-49). *)
Definition check_duplicate (fl : Faults) (data : TransactionData)
    (_transaction : option handle) : Prog Thrown unit :=
  if truthy_string (referenceId data) then
    existingTransaction ←
      await (TransactionModel_findOne fl (referenceId data) (type data)
                                      _transaction);
    match existingTransaction with
    | Some _ =>
        Throw (new_error "DuplicateTransactionError"
                 ("Transaction already exists for reference " +:+
                  default "" (referenceId data)))
    | None => mret tt
    end
  else mret tt.

(** Numeric validation, then the writes (lines 51-123). *)
Definition validate_and_write (fl : Faults) (data : TransactionData)
    (_transaction : option handle) (wallet : WalletInstance)
  : Prog Thrown TransactionAttributes :=
  let balance := parseFloat (wallet_balance wallet) in
  let amount := parseFloat (amount data) in
  if isNaN balance || isNaN amount then
    Throw (new_error "InvalidDataError" "Balance or amount is invalid")
  else if num_ltb amount 0%float then
    Throw (new_error "InvalidAmountError" "Amount cannot be negative")
  else
    transaction ← match _transaction with
                  | Some h => mret h
                  | None => await (sequelizeSystem_transaction fl)
                  end;
    write_step fl data _transaction wallet balance amount transaction.

(** The body of the outer [try] (lines 25-123). *)
Definition body (fl : Faults) (data : TransactionData)
    (_transaction : option handle) : Prog Thrown TransactionAttributes :=
  wallet ← await (Wallet_findByPk fl (walletId data) _transaction);
  match wallet with
  | None => Throw (new_error "NotFoundError" "Wallet not found")
  | Some wallet =>
      _ ← check_duplicate fl data _transaction;
      validate_and_write fl data _transaction wallet
  end.

(** The outer [catch (error: any)] (lines 124-130). *)
Definition rethrow (error : Thrown) : ErrorType :=
  mkErrorType (or_default (th_name error) "TransactionCreationError")
              (or_default (th_message error) "Failed to create transaction")
              (th_code error).

Definition createTransactionRepo (fl : Faults) (data : TransactionData)
    (_transaction : option handle) : Prog ErrorType TransactionAttributes :=
  try_catch (body fl data _transaction) (λ error, Throw (rethrow error)).

(** What the caller gets from a run of the body: the outer [catch] applied. *)
Definition finish {A : Type} (res : World * (Thrown + A))
  : World * (ErrorType + A) :=
  match res with
  | (w', inl error) => (w', inl (rethrow error))
  | (w', inr a) => (w', inr a)
  end.

(** Several calls in flight: [sched] names, step by step, the call that makes
    its next awaited storage call. *)
Fixpoint run_schedule {E A : Type} (sched : list nat)
    (threads : list (Prog E A)) (w : World) : list (Prog E A) * World :=
  match sched with
  | [] => (threads, w)
  | i :: rest =>
      match threads !! i with
      | Some p =>
          let '(p', w') := step p w in
          run_schedule rest (<[i := p']> threads) w'
      | None => run_schedule rest threads w
      end
  end.

(** The outcome of a call that has come to its end. *)
Definition outcome {E A : Type} (p : Prog E A) : option (E + A) :=
  match p with
  | Ret a => Some (inr a)
  | Throw e => Some (inl e)
  | Await _ _ => None
  end.


(** ** The paths through one call

    [Outcome fl data tx w w' r]: started in [w], the call ends in [w'] with
    result [r].  One rule per way out of the function; the worlds below are
    the ones each path passes through. *)

Section Paths.
Context (fl : Faults) (data : TransactionData) (tx : option handle)
        (w : World).

(** After [Wallet.findByPk]. *)
Definition after_lookup : World := log (EvFindByPk tx (walletId data)) w.

(** After the duplicate check, which queries only for a truthy reference. *)
Definition after_check : World :=
  if truthy_string (referenceId data)
  then log (EvFindOne tx) after_lookup
  else after_lookup.

(** The unit-of-work the writes go to: [_transaction || new one]. *)
Definition the_handle : handle :=
  match tx with
  | Some h => h
  | None => next_handle w
  end.

Definition after_open : World :=
  match tx with
  | Some _ => after_check
  | None => open_handle after_check
  end.

(** The writes the unit-of-work holds when the call reaches it. *)
Definition base_writes : list Write :=
  match tx with
  | Some h => writes_of w h
  | None => []
  end.

Definition after_create : World :=
  log (EvCreate the_handle (next_id w))
      (bump_id (add_write the_handle (InsertTransaction (new_row data w))
                          after_open)).

Definition after_save (newBalance : num) : World :=
  log (EvSave the_handle (walletId data))
      (add_write the_handle (SaveWallet (walletId data) newBalance)
                 after_create).

(** The wallet was found, with this balance. *)
Definition found (balance : num) : Prop :=
  f_findByPk fl = None ∧
  wallets (view w tx) !! walletId data = Some balance.

(** The duplicate check let the call through. *)
Definition no_duplicate : Prop :=
  truthy_string (referenceId data) = false ∨
  (truthy_string (referenceId data) = true ∧
   f_findOne fl = None ∧
   List.find (same_reference (referenceId data) (type data))
             (transactions (view w tx)) = None).

(** Both numbers are numbers and the amount is not negative. *)
Definition valid_numbers (balance : num) : Prop :=
  isNaN (parseFloat balance) || isNaN (parseFloat (amount data)) = false ∧
  num_ltb (parseFloat (amount data)) 0%float = false.

(** The branch on the type, on the two numbers as parsed. *)
Definition new_balance (balance : num) : Thrown + num :=
  update_balance (type data) (parseFloat balance) (parseFloat (amount data)).

(** A unit-of-work is at hand: the caller's, or a new one. *)
Definition opened : Prop :=
  is_None tx = false ∨ (is_None tx = true ∧ f_transaction fl = None).

(** The inner [try] throws [e] in world [wf]. *)
Inductive WriteFails (balance : num) : World → Thrown → Prop :=
  | WF_create t :
      f_create fl = Some t →
      WriteFails balance after_open t
  | WF_balance e :
      f_create fl = None →
      new_balance balance = inl e →
      WriteFails balance after_create e
  | WF_save newBalance t :
      f_create fl = None →
      new_balance balance = inr newBalance →
      f_save fl = Some t →
      WriteFails balance after_create t
  | WF_commit newBalance t :
      f_create fl = None →
      new_balance balance = inr newBalance →
      f_save fl = None →
      is_None tx = true →
      f_commit fl = Some t →
      WriteFails balance (log (EvCommit the_handle false) (after_save newBalance)) t.

(** The inner [catch]: roll back if the unit-of-work is ours, then throw
    again; a rollback that throws replaces the error. *)
Definition settle (wf : World) (e : Thrown) : World * Thrown :=
  match tx with
  | Some _ => (wf, e)
  | None =>
      match f_rollback fl with
      | None => (rollback the_handle wf, e)
      | Some t => (log (EvRollback the_handle false) wf, t)
      end
  end.

(** Where a call that wrote everything ends: committed if the unit-of-work
    is ours. *)
Definition settled (newBalance : num) : World :=
  match tx with
  | Some _ => after_save newBalance
  | None => commit the_handle (after_save newBalance)
  end.

Inductive Outcome : World → ErrorType + TransactionAttributes → Prop :=
  | O_lookup_throws t :
      f_findByPk fl = Some t →
      Outcome w (inl (rethrow t))
  | O_not_found :
      f_findByPk fl = None →
      wallets (view w tx) !! walletId data = None →
      Outcome after_lookup
              (inl (rethrow (new_error "NotFoundError" "Wallet not found")))
  | O_check_throws balance t :
      found balance →
      truthy_string (referenceId data) = true →
      f_findOne fl = Some t →
      Outcome after_lookup (inl (rethrow t))
  | O_duplicate balance row :
      found balance →
      truthy_string (referenceId data) = true →
      f_findOne fl = None →
      List.find (same_reference (referenceId data) (type data))
                (transactions (view w tx)) = Some row →
      Outcome after_check
              (inl (rethrow (new_error "DuplicateTransactionError"
                       ("Transaction already exists for reference " +:+
                        default "" (referenceId data)))))
  | O_invalid_data balance :
      found balance → no_duplicate →
      isNaN (parseFloat balance) || isNaN (parseFloat (amount data)) = true →
      Outcome after_check
              (inl (rethrow (new_error "InvalidDataError"
                                       "Balance or amount is invalid")))
  | O_invalid_amount balance :
      found balance → no_duplicate →
      isNaN (parseFloat balance) || isNaN (parseFloat (amount data)) = false →
      num_ltb (parseFloat (amount data)) 0%float = true →
      Outcome after_check
              (inl (rethrow (new_error "InvalidAmountError"
                                       "Amount cannot be negative")))
  | O_open_throws balance t :
      found balance → no_duplicate → valid_numbers balance →
      is_None tx = true →
      f_transaction fl = Some t →
      Outcome after_check (inl (rethrow t))
  | O_write_fails balance wf e :
      found balance → no_duplicate → valid_numbers balance → opened →
      WriteFails balance wf e →
      Outcome (settle wf e).1 (inl (rethrow (settle wf e).2))
  | O_success balance newBalance :
      found balance → no_duplicate → valid_numbers balance → opened →
      f_create fl = None →
      new_balance balance = inr newBalance →
      f_save fl = None →
      (is_None tx = true → f_commit fl = None) →
      Outcome (settled newBalance) (inr (new_row data w)).
End Paths.

(** ** [getListTransactionRepo]

    The query reads the committed rows, outside any unit-of-work.  Dates are
    timestamps.  The [include] of the wallet and its user adds columns to
    each row and leaves the set of rows alone, so it is not modelled. *)

Record Filters : Type := mkFilters {
  filter_walletId : option num;
  filter_status : option TransactionStatus;
  filter_type : option TransactionType;
  start_date : option Z;
  end_date : option Z;
  page : option num;
  limit : option num
}.

(** The [where] object: a condition for each key that is set. *)
Record Where : Type := mkWhere {
  where_isDeleted : bool;
  where_walletId : option num;
  where_status : option TransactionStatus;
  where_type : option TransactionType;
  where_createdAt_gte : option Z;
  where_createdAt_lte : option Z
}.

(** Lines 143-162.  The keys [walletId], [status] and [type] are set when
    the filter is truthy; a [Date] object is always truthy. *)
Definition build_where (filters : Filters) : Where :=
  mkWhere false
          (if truthy_number (filter_walletId filters)
           then filter_walletId filters else None)
          (if truthy_status (filter_status filters)
           then filter_status filters else None)
          (if truthy_type (filter_type filters)
           then filter_type filters else None)
          (start_date filters)
          (end_date filters).

(** A key that is not set restricts nothing. *)
Definition holds {A : Type} (cond : option A) (test : A → bool) : bool :=
  match cond with
  | Some a => test a
  | None => true
  end.

(** The column [walletId] holds whole numbers: it equals the number of the
    condition when that number is the same whole number. *)
Definition satisfies (wh : Where) (row : TransactionAttributes) : bool :=
  bool_decide (tx_isDeleted row = where_isDeleted wh) &&
  holds (where_walletId wh)
        (λ wid, bool_decide (whole wid = Some (tx_walletId row))) &&
  holds (where_status wh) (λ st, bool_decide (tx_status row = st)) &&
  holds (where_type wh) (λ ty, bool_decide (tx_type row = ty)) &&
  holds (where_createdAt_gte wh) (λ d, d <=? tx_createdAt row) &&
  holds (where_createdAt_lte wh) (λ d, tx_createdAt row <=? d).

(** Newest first. *)
Definition newer_or_same (r1 r2 : TransactionAttributes) : Prop :=
  tx_createdAt r2 ≤ tx_createdAt r1.

(** What is left to the database in a listing.  Either query may fail, as
    any storage call may.  [order: [["createdAt", "DESC"]]] asks for the
    newest rows first and says nothing about rows created at the same time:
    the database arranges them as it likes, and not necessarily the same way
    in the next query.  And what it answers to an [offset] or a [limit] that
    is not a whole number from 0 on (a fraction, a negative number, an
    infinity, [NaN]) differs from one database to the other: an error, or
    some of the rows, in their order. *)
Record Database : Type := mkDatabase {
  count_throws : option Thrown;
  findAll_throws : option Thrown;
  order_by_createdAt_desc :
    list TransactionAttributes → list TransactionAttributes;
  order_permutes : ∀ rows, order_by_createdAt_desc rows ≡ₚ rows;
  order_sorts :
    ∀ rows, StronglySorted newer_or_same (order_by_createdAt_desc rows);
  odd_window :
    num → num → list TransactionAttributes →
    Thrown + list TransactionAttributes;
  odd_window_selects :
    ∀ offset limit rows out,
      odd_window offset limit rows = inr out → out `sublist_of` rows
}.

(** [OFFSET offset LIMIT limit] *)
Definition window (dbms : Database) (offset limit : num)
    (rows : list TransactionAttributes) : Thrown + list TransactionAttributes :=
  match whole offset, whole limit with
  | Some o, Some l =>
      if (0 <=? o) && (0 <=? l)
      then inr (take (Z.to_nat l) (drop (Z.to_nat o) rows))
      else odd_window dbms offset limit rows
  | _, _ => odd_window dbms offset limit rows
  end.

(** [queryOptions], without the [include]. *)
Record QueryOptions : Type := mkQuery {
  query_where : Where;
  query_offset : option num;
  query_limit : option num
}.

(** [TransactionModel.count({ where })] *)
Definition TransactionModel_count (dbms : Database) (wh : Where) (db : Db)
  : Thrown + nat :=
  match count_throws dbms with
  | Some t => inl t
  | None => inr (length (List.filter (satisfies wh) (transactions db)))
  end.

(** [TransactionModel.findAll(queryOptions)] *)
Definition TransactionModel_findAll (dbms : Database) (q : QueryOptions)
    (db : Db) : Thrown + list TransactionAttributes :=
  match findAll_throws dbms with
  | Some t => inl t
  | None =>
      let rows :=
        order_by_createdAt_desc dbms
          (List.filter (satisfies (query_where q)) (transactions db)) in
      match query_offset q, query_limit q with
      | Some offset, Some limit => window dbms offset limit rows
      | _, _ => inr rows
      end
  end.

(** The test on lines 187-192. *)
Definition paginated (filters : Filters) : bool :=
  truthy_number (page filters) && truthy_number (limit filters) &&
  holds (page filters) (λ p, num_ltb 0%float p) &&
  holds (limit filters) (λ l, num_ltb 0%float l).

Record ListResult : Type := mkListResult {
  result_transactions : list TransactionAttributes;
  total : nat
}.

(** [new ErrorType(error.name, error.message, error.code)] (lines 200 and
    216): the three fields as they are; one that is missing stays missing. *)
Definition rewrap (error : Thrown) : Thrown :=
  mkThrown (th_name error) (th_message error) (th_code error).

(** Lines 133-202. *)
Definition getListTransactionRepo (dbms : Database) (filters : Filters)
    (db : Db) : Thrown + ListResult :=
  let where_ := build_where filters in
  match TransactionModel_count dbms where_ db with
  | inl error => inl (rewrap error)
  | inr total =>
      let queryOptions :=
        if paginated filters
        then mkQuery where_
                     (Some (num_mul (num_sub (default 0%float (page filters))
                                             1%float)
                                    (default 0%float (limit filters))))
                     (limit filters)
        else mkQuery where_ None None in
      match TransactionModel_findAll dbms queryOptions db with
      | inr transactions => inr (mkListResult transactions total)
      | inl error => inl (rewrap error)
      end
  end.

(** A database whose two queries go through. *)
Definition answers (dbms : Database) : Prop :=
  count_throws dbms = None ∧ findAll_throws dbms = None.

(** The rows and the total of a listing that was returned. *)
Definition listed (r : Thrown + ListResult)
  : option (list TransactionAttributes) :=
  match r with
  | inr res => Some (result_transactions res)
  | inl _ => None
  end.

Definition counted (r : Thrown + ListResult) : option nat :=
  match r with
  | inr res => Some (total res)
  | inl _ => None
  end.

(** The rows the [where] object lets through, and these rows as the
    database arranges them. *)
Definition filtered (filters : Filters) (db : Db) : list TransactionAttributes :=
  List.filter (satisfies (build_where filters)) (transactions db).

Definition ordered (dbms : Database) (filters : Filters) (db : Db)
  : list TransactionAttributes :=
  order_by_createdAt_desc dbms (filtered filters db).

(** The same filters with another pagination window. *)
Definition with_window (p l : option num) (filters : Filters) : Filters :=
  mkFilters (filter_walletId filters) (filter_status filters)
            (filter_type filters) (start_date filters) (end_date filters) p l.

(** One way a database can arrange the rows: by insertion, so that rows
    created at the same time keep the order they are stored in. *)
Fixpoint insert_desc (row : TransactionAttributes)
    (rows : list TransactionAttributes) : list TransactionAttributes :=
  match rows with
  | [] => [row]
  | r :: rest =>
      if tx_createdAt r <=? tx_createdAt row
      then row :: r :: rest
      else r :: insert_desc row rest
  end.

Definition order_desc (rows : list TransactionAttributes)
  : list TransactionAttributes :=
  foldr insert_desc [] rows.

(** ** Sequences of operations

    What callers do with the ledger, one after the other: record a
    transaction (in their own unit-of-work or leaving it to the engine), open a
    unit-of-work, commit one, roll one back. *)

Inductive Op : Type :=
  | OpRecord (fl : Faults) (data : TransactionData) (tx : option handle)
  | OpBegin
  | OpCommit (h : handle)
  | OpRollback (h : handle).

Definition run_op (w : World) (op : Op) : World :=
  match op with
  | OpRecord fl data tx => (exec (createTransactionRepo fl data tx) w).1
  | OpBegin => open_handle w
  | OpCommit h => commit h w
  | OpRollback h => rollback h w
  end.

Definition run_ops (ops : list Op) (w : World) : World := foldl run_op w ops.

(** A balance that is not below zero: [b < 0] is false.  [NaN] is not
    below zero either. *)
Definition nonneg (b : num) : Prop := num_ltb b 0%float = false.

(** [b >= 0]: a number, and not below zero. *)
Definition at_least_zero (b : num) : Prop := num_leb 0%float b = true.

(** A write that leaves wallet [wid] with a good balance. *)
Definition write_ok (good : num → Prop) (wid : Z) (wr : Write) : Prop :=
  match wr with
  | SaveWallet wid' b => wid' = wid → good b
  | InsertTransaction _ => True
  end.

Definition balance_ok (good : num → Prop) (wid : Z) (db : Db) : Prop :=
  ∃ b, wallets db !! wid = Some b ∧ good b.

(** Wallet [wid] exists with a good balance among the committed rows, and
    no unit-of-work holds a write that would give it another kind of
    balance. *)
Definition wallet_ok (good : num → Prop) (wid : Z) (w : World) : Prop :=
  balance_ok good wid (committed w) ∧
  map_Forall (λ _ ws, Forall (write_ok good wid) ws) (pending w).

(** An operation that takes good balances to good balances: any begin,
    commit or rollback, and a call whose branch on the type does. *)
Definition keeps (good : num → Prop) (op : Op) : Prop :=
  match op with
  | OpRecord _ data _ =>
      ∀ b newBalance,
        good b → valid_numbers data b →
        new_balance data b = inr newBalance → good newBalance
  | _ => True
  end.

(** An operation other than a call with an infinite amount. *)
Definition finite_amount (op : Op) : Prop :=
  match op with
  | OpRecord _ data _ => is_infinity (amount data) = false
  | _ => True
  end.

(** [t] is what one of the storage calls throws. *)
Definition thrown_by (fl : Faults) (t : Thrown) : Prop :=
  Some t ∈ [f_findByPk fl; f_findOne fl; f_transaction fl; f_create fl;
            f_save fl; f_commit fl; f_rollback fl].

(** The kinds of error the engine raises by itself. *)
Definition engine_kinds : list string :=
  ["NotFoundError"; "DuplicateTransactionError"; "InvalidDataError";
   "InvalidAmountError"; "InvalidTypeError"; "InsufficientFundsError"].

Definition engine_error (t : Thrown) : Prop :=
  ∃ n m, t = new_error n m ∧ n ∈ engine_kinds.

(** The calls that open, commit or roll back a unit-of-work. *)
Definition is_lifecycle (ev : Event) : bool :=
  match ev with
  | EvBegin _ | EvCommit _ _ | EvRollback _ _ => true
  | _ => false
  end.

Definition lifecycle (evs : list Event) : list Event :=
  List.filter is_lifecycle evs.

(** What the inner [catch] throws when the inner [try] threw [error]: the
    error itself, or what the rollback threw if the unit-of-work is the
    engine's own and the rollback throws. *)
Definition surfaced (fl : Faults) (tx : option handle) (error : Thrown)
  : Thrown :=
  match tx, f_rollback fl with
  | None, Some t => t
  | _, _ => error
  end.


(** A type that is none of the three the engine knows. *)
Definition unknown_type (ty : TransactionType) : Prop :=
  ty ≠ PAY_SERVICE ∧ ty ≠ DEPOSIT ∧ ty ≠ REFUND_SERVICE.


(** ** Sample worlds and inputs *)

(** One wallet with balance 70, no transaction, and the caller's
    unit-of-work 5 open. *)
Definition world_with_caller : World :=
  mkWorld (mkDb {[ 1 := 70%float ]} []) {[ 5%nat := [] ]} 6%nat 1 1000 [].

(** One wallet with balance 100 and nothing else. *)
Definition world_100 : World :=
  mkWorld (mkDb {[ 1 := 100%float ]} []) ∅ 0%nat 1 1000 [].

Definition pay_200 : TransactionData :=
  mkData 1 200%float COMPLETED PAY_SERVICE None.

Definition pay_30 : TransactionData :=
  mkData 1 30%float COMPLETED PAY_SERVICE None.

Definition pay_30_ref1 : TransactionData :=
  mkData 1 30%float COMPLETED PAY_SERVICE (Some "ref1").

Definition pay_200_ref1 : TransactionData :=
  mkData 1 200%float COMPLETED PAY_SERVICE (Some "ref1").

Definition deposit_20 : TransactionData :=
  mkData 1 20%float COMPLETED DEPOSIT None.

Definition deposit_10_empty_ref : TransactionData :=
  mkData 1 10%float COMPLETED DEPOSIT (Some "").

Definition withdraw_10 : TransactionData :=
  mkData 1 10%float COMPLETED (OTHER_TYPE "WITHDRAW") None.

Definition deposit_minus_5 : TransactionData :=
  mkData 1 (-5)%float COMPLETED DEPOSIT None.

(** The same deposit of -5, into a wallet that does not exist. *)
Definition deposit_minus_5_wallet_9 : TransactionData :=
  mkData 9 (-5)%float COMPLETED DEPOSIT None.

Definition deposit_1 : TransactionData :=
  mkData 1 1%float COMPLETED DEPOSIT None.

Definition pay_infinity : TransactionData :=
  mkData 1 infinity COMPLETED PAY_SERVICE None.

(** One wallet with balance 2^53, where the doubles stop holding every whole
    number; and one with an infinite balance, for a payment of as much. *)
Definition world_2_53 : World :=
  mkWorld (mkDb {[ 1 := 9007199254740992%float ]} []) ∅ 0%nat 1 1000 [].

Definition world_infinity : World :=
  mkWorld (mkDb {[ 1 := infinity ]} []) ∅ 0%nat 1 1000 [].

(** What a refused database connection throws: a plain [Error] with the
    driver's message and code. *)
Definition connection_refused : Thrown :=
  mkThrown (Some "Error") (Some "connect ECONNREFUSED 127.0.0.1:3306")
           (Some "ECONNREFUSED").

Definition lookup_refused : Faults :=
  mkFaults (Some connection_refused) None None None None None None.

(** A deadlock reported when the wallet is saved. *)
Definition deadlock : Thrown :=
  mkThrown (Some "SequelizeDatabaseError") (Some "Deadlock found")
           (Some "ER_LOCK_DEADLOCK").

Definition save_deadlocks : Faults :=
  mkFaults None None None None (Some deadlock) None None.

(** Every storage call goes through, except that the rollback is refused. *)
Definition rollback_refused : Faults :=
  mkFaults None None None None None None (Some connection_refused).

(** Three rows of two wallets, the second one deleted. *)
Definition row_at (id wid created : Z) (deleted : bool) : TransactionAttributes :=
  mkTransaction id wid 10%float COMPLETED DEPOSIT None deleted created.

Definition three_rows : Db :=
  mkDb {[ 1 := 100%float; 2 := 50%float ]}
       [row_at 1 1 1000 false; row_at 2 1 2000 true; row_at 3 2 3000 false].

(** Twenty-five rows of wallet 1, created one after the other: ids 1 to 25. *)
Definition twenty_five_rows : Db :=
  mkDb {[ 1 := 100%float ]}
       (map (λ i, row_at (Z.of_nat i) 1 (1000 + Z.of_nat i) false) (seq 1 25)).

Definition no_filter : Filters :=
  mkFilters None None None None None None None.

Definition wallet_zero : Filters :=
  mkFilters (Some 0%float) None None None None None None.

Definition wallet_nan : Filters :=
  mkFilters (Some nan) None None None None None None.

(** Wallet 2, created between 2500 and 3500. *)
Definition wallet_2_in_window : Filters :=
  mkFilters (Some 2%float) None None (Some 2500) (Some 3500) None None.

(** A type filter that is the empty string. *)
Definition type_empty : Filters :=
  mkFilters None None (Some (OTHER_TYPE "")) None None None None.

Definition page_2_of_10 : Filters :=
  mkFilters None None None None None (Some 2%float) (Some 10%float).

Definition page_one_and_a_half : Filters :=
  mkFilters None None None None None (Some 1.5%float) (Some 10%float).

(** What a database throws at a window that is not made of whole numbers. *)
Definition window_refused : Thrown :=
  mkThrown (Some "SequelizeDatabaseError") (Some "syntax error in LIMIT")
           None.

(** A database whose queries go through, that keeps rows created at the
    same time in the order they are stored in, and that refuses a window
    that is not made of whole numbers. *)
Definition stored_order : Database.
Proof.
  refine (mkDatabase None None order_desc _ _
                     (λ _ _ _, inl window_refused) _);
    [| | done].
  - assert (Hinsert : ∀ row rows, insert_desc row rows ≡ₚ row :: rows).
    { intros row rows. induction rows as [| r rest IH]; simpl; [done|].
      destruct (tx_createdAt r <=? tx_createdAt row); [done|].
      rewrite IH. apply Permutation_swap. }
    intros rows. induction rows as [| r rest IH]; simpl; [done|].
    by rewrite Hinsert, IH.
  - assert (Hinsert : ∀ row rows, insert_desc row rows ≡ₚ row :: rows).
    { intros row rows. induction rows as [| r rest IH]; simpl; [done|].
      destruct (tx_createdAt r <=? tx_createdAt row); [done|].
      rewrite IH. apply Permutation_swap. }
    assert (Hsorted : ∀ row rows,
      StronglySorted newer_or_same rows →
      StronglySorted newer_or_same (insert_desc row rows)).
    { intros row rows. induction 1 as [| r rest Hsorted IH Hall]; simpl.
      - repeat constructor.
      - destruct (tx_createdAt r <=? tx_createdAt row) eqn:Hle.
        + apply Z.leb_le in Hle. constructor; [by constructor|].
          constructor; [done|].
          eapply Forall_impl; [exact Hall|]. unfold newer_or_same. intros; lia.
        + apply Z.leb_gt in Hle. constructor; [done|].
          rewrite Hinsert. constructor; [|done].
          unfold newer_or_same. lia. }
    intros rows. induction rows as [| r rest IH]; simpl; [constructor|].
    by apply Hsorted.
Defined.

(** Two calls with the same reference and type, each leaving the
    unit-of-work to the engine; and a schedule in which both make their two
    reads before either writes. *)
Definition two_calls : list (Prog ErrorType TransactionAttributes) :=
  [createTransactionRepo no_faults pay_30_ref1 None;
   createTransactionRepo no_faults pay_30_ref1 None].

Definition reads_first : list nat :=
  [0; 0; 1; 1; 0; 0; 0; 0; 1; 1; 1; 1]%nat.

Definition one_after_the_other : list nat :=
  [0; 0; 0; 0; 0; 0; 1; 1; 1; 1; 1; 1]%nat.

(** The world after the debit of 30 under reference "ref1" went through. *)
Definition world_after_ref1 : World :=
  (exec (createTransactionRepo no_faults pay_30_ref1 None) world_100).1.

(** Two debits of 30, the second one in a caller's unit-of-work that is
    committed afterwards, around a refused debit of 200. *)
Definition debits_and_a_refusal : list Op :=
  [OpRecord no_faults pay_30_ref1 None;
   OpRecord no_faults pay_200 None;
   OpBegin;
   OpRecord no_faults pay_30 (Some 2%nat);
   OpCommit 2%nat].


(** The three rows as the committed rows of a world with nothing open. *)
Definition world_three_rows : World :=
  mkWorld three_rows ∅ 0%nat 4 4000 [].

(** ** [getTransactionByIdRepo] *)

(** [TransactionModel.findByPk(transactionId)]: the committed row with that
    primary key, deleted or not.  The query is made outside any
    unit-of-work and changes nothing. *)
Definition TransactionModel_findByPk (fault : option Thrown) (id : Z)
    (w : World) : World * (Thrown + option TransactionAttributes) :=
  match fault with
  | Some t => (w, inl t)
  | None =>
      (w, inr (List.find (λ row, tx_id row =? id) (transactions (committed w))))
  end.

(** Lines 204-218. *)
Definition getTransactionByIdRepo (fault : option Thrown) (transactionId : Z)
  : Prog Thrown TransactionAttributes :=
  try_catch
    (transaction ← await (TransactionModel_findByPk fault transactionId);
     match transaction with
     | None => Throw (new_error "NotFoundError" "Transaction not found")
     | Some transaction => mret transaction
     end)
    (λ error, Throw (rewrap error)).

(** ** Notions used to state what the code does *)

(** No row that is not deleted carries the reference and type of [data]. *)
Definition reference_free (data : TransactionData) (db : Db) : Prop :=
  ∀ row, row ∈ transactions db →
         tx_referenceId row = referenceId data →
         tx_type row = type data →
         tx_isDeleted row = true.

(** What makes a call go through when the storage layer throws nothing:
    the wallet, the reference, the numbers, the type and the funds. *)
Definition acceptable (data : TransactionData) (db : Db) : Prop :=
  ∃ b,
    wallets db !! walletId data = Some b ∧
    isNaN b = false ∧ isNaN (amount data) = false ∧
    num_ltb (amount data) 0%float = false ∧
    (truthy_string (referenceId data) = true → reference_free data db) ∧
    ((type data = PAY_SERVICE ∧ num_ltb b (amount data) = false) ∨
     type data = DEPOSIT ∨ type data = REFUND_SERVICE).

(** A read: a call that writes nothing and opens nothing. *)
Definition is_read (ev : Event) : bool :=
  match ev with
  | EvFindByPk _ _ | EvFindOne _ => true
  | _ => false
  end.

(** The kinds raised before any write is attempted, and after the row was
    created. *)
Definition early_kinds : list string :=
  ["NotFoundError"; "DuplicateTransactionError"; "InvalidDataError";
   "InvalidAmountError"].

Definition late_kinds : list string :=
  ["InsufficientFundsError"; "InvalidTypeError"].

(** A condition on a filter that may be absent. *)
Definition when {A : Type} (o : option A) (P : A → Prop) : Prop :=
  match o with
  | Some a => P a
  | None => True
  end.

#[global] Instance when_dec {A : Type} (o : option A) (P : A → Prop)
    `{!∀ a, Decision (P a)} : Decision (when o P).
Proof. destruct o; apply _. Defined.

(** What a row must be like to pass the filters, said of the row and the
    filters alone, without the [where] object: not deleted; of the wallet
    asked for, unless that is 0 or not a number; with the status and the
    type asked for, unless they are the empty string; created inside the
    window. *)
Definition passes (filters : Filters) (row : TransactionAttributes) : Prop :=
  tx_isDeleted row = false ∧
  when (filter_walletId filters)
       (λ wid, is_zero wid = false → is_nan wid = false →
               whole wid = Some (tx_walletId row)) ∧
  when (filter_status filters)
       (λ st, st ≠ OTHER_STATUS "" → tx_status row = st) ∧
  when (filter_type filters)
       (λ ty, ty ≠ OTHER_TYPE "" → tx_type row = ty) ∧
  when (start_date filters) (λ d, d ≤ tx_createdAt row) ∧
  when (end_date filters) (λ d, tx_createdAt row ≤ d).

#[global] Instance passes_dec (filters : Filters)
    (row : TransactionAttributes) : Decision (passes filters row).
Proof. unfold passes. apply _. Defined.

(** The full filtered set: the stored rows that pass the filters. *)
Definition matching (filters : Filters) (db : Db)
  : list TransactionAttributes :=
  filter (passes filters) (transactions db).

(** Page [p] of the listing when pages hold [l] rows. *)
Definition page_of (dbms : Database) (filters : Filters) (db : Db)
    (p l : num) : Thrown + ListResult :=
  getListTransactionRepo dbms (with_window (Some p) (Some l) filters) db.

(** The rows a write set inserts. *)
Definition inserted (ws : list Write) : list TransactionAttributes :=
  omap (λ wr, match wr with
              | InsertTransaction row => Some row
              | SaveWallet _ _ => None
              end) ws.

(** What is left of a call once its wallet read has returned [balance] and
    no duplicate check is due: lines 51-123 inside the outer [try]. *)
Definition after_reads (data : TransactionData) (balance : num)
  : Prog ErrorType TransactionAttributes :=
  try_catch
    (validate_and_write no_faults data None (mkWallet (walletId data) balance))
    (λ error, Throw (rethrow error)).

(** Two calls on one wallet: both read, then the first runs to its end,
    then the second. *)
Definition reads_then_writes (n m : nat) : list nat :=
  [0; 1]%nat ++ replicate n 0%nat ++ replicate m 1%nat.
(** ** Doubles *)

Lemma num_ltb_zero (x : num) : num_ltb x 0%float = below_zero (Prim2SF x).
Proof.
  unfold num_ltb. rewrite FloatAxioms.ltb_spec.
  change (Prim2SF 0) with (S754_zero false).
  by destruct (Prim2SF x) as [[]|[]| |[] m e].
Qed.

Lemma is_zero_spec (x : num) :
  is_zero x = match Prim2SF x with S754_zero _ => true | _ => false end.
Proof.
  unfold is_zero. rewrite FloatAxioms.eqb_spec. change (Prim2SF zero) with (S754_zero false).
  by destruct (Prim2SF x) as [[]|[]| |[] m e].
Qed.

Lemma Pos_compare_cont_refl (m : positive) :
  PosDef.Pos.compare_cont Eq m m = Eq.
Proof. apply Pos.compare_cont_refl. Qed.

Lemma is_nan_spec (x : num) :
  is_nan x = match Prim2SF x with S754_nan => true | _ => false end.
Proof.
  unfold is_nan. rewrite FloatAxioms.eqb_spec. unfold SFeqb, SFcompare.
  destruct (Prim2SF x) as [[]|[]| |[] m e]; try done.
  all: simpl; by rewrite Z.compare_refl, Pos_compare_cont_refl.
Qed.

Lemma Prim2SF_parseFloat (x : num) :
  Prim2SF (parseFloat x) =
  match Prim2SF x with S754_zero _ => S754_zero false | s => s end.
Proof.
  unfold parseFloat. rewrite is_zero_spec.
  by destruct (Prim2SF x) as [[]|[]| |[] m e] eqn:E.
Qed.

Lemma isNaN_parseFloat (x : num) : isNaN (parseFloat x) = isNaN x.
Proof.
  unfold isNaN. rewrite !is_nan_spec, Prim2SF_parseFloat.
  by destruct (Prim2SF x) as [[]|[]| |[] m e].
Qed.

Lemma num_ltb_parseFloat (x y : num) :
  num_ltb (parseFloat x) (parseFloat y) = num_ltb x y.
Proof.
  unfold num_ltb. rewrite !FloatAxioms.ltb_spec, !Prim2SF_parseFloat.
  by destruct (Prim2SF x) as [[]|[]| |[] m e],
              (Prim2SF y) as [[]|[]| |[] m' e'].
Qed.

Lemma num_ltb_parseFloat_zero (x : num) :
  num_ltb (parseFloat x) 0%float = num_ltb x 0%float.
Proof. apply (num_ltb_parseFloat x 0%float). Qed.

(** *** Sign of sums and differences *)

Lemma binary_round_aux_sign (m e : Z) (l : location) :
  below_zero (binary_round_aux prec emax false m e l) = false.
Proof.
  unfold binary_round_aux.
  destruct (shr_fexp prec emax m e l) as [mrs' e'].
  destruct (shr_fexp prec emax _ e' loc_Exact) as [mrs'' e''].
  destruct (shr_m mrs''); [done | | done].
  by destruct (Z.leb e'' (emax - prec)).
Qed.

Lemma binary_normalize_sign (m e : Z) :
  0 <= m → below_zero (binary_normalize prec emax m e false) = false.
Proof.
  intros Hm. destruct m as [| p | p]; [done | | lia].
  unfold binary_normalize, binary_round.
  destruct (shl_align _ _ _) as [mz ez]. apply binary_round_aux_sign.
Qed.

Lemma SFadd_sign (x y : spec_float) :
  below_zero x = false → below_zero y = false →
  below_zero (SF64add x y) = false.
Proof.
  destruct x as [[]|[]| |[] mx ex], y as [[]|[]| |[] my ey]; try done.
  intros _ _. unfold SF64add, SFadd. apply binary_normalize_sign. simpl. lia.
Qed.

Lemma num_add_not_negative (x y : num) :
  num_ltb x 0%float = false → num_ltb y 0%float = false →
  num_ltb (num_add x y) 0%float = false.
Proof.
  rewrite !num_ltb_zero. unfold num_add. rewrite add_spec. apply SFadd_sign.
Qed.

Lemma digits2_pos_bounds (m : positive) :
  2 ^ (Zpos (digits2_pos m) - 1) <= Zpos m < 2 ^ Zpos (digits2_pos m).
Proof.
  induction m as [m IH | m IH |]; simpl digits2_pos.
  - rewrite Pos2Z.inj_succ, Z.pow_succ_r by lia.
    replace (Z.succ (Zpos (digits2_pos m)) - 1)
      with (Z.succ (Zpos (digits2_pos m) - 1)) by lia.
    rewrite Z.pow_succ_r by lia. lia.
  - rewrite Pos2Z.inj_succ, Z.pow_succ_r by lia.
    replace (Z.succ (Zpos (digits2_pos m)) - 1)
      with (Z.succ (Zpos (digits2_pos m) - 1)) by lia.
    rewrite Z.pow_succ_r by lia. lia.
  - simpl. lia.
Qed.

Lemma shl_align_value (m : positive) (e e' : Z) :
  e' <= e → Zpos (fst (shl_align m e e')) = Zpos m * 2 ^ (e - e').
Proof.
  intros Hle. unfold shl_align.
  destruct (e' - e) as [| d | d] eqn:Hd; try lia.
  - replace (e - e') with 0 by lia. simpl. lia.
  - replace (e - e') with (Zpos d) by lia. cbn [fst].
    change (PosDef.Pos.iter xO m d) with (shift_pos d m).
    rewrite shift_pos_correct. apply Z.mul_comm.
Qed.

Lemma canonical_digits (m : positive) (e : Z) :
  canonical_mantissa prec emax m e = true →
  Zpos (digits2_pos m) <= prec ∧
  SpecFloat.emin prec emax <= e ∧
  (SpecFloat.emin prec emax < e → Zpos (digits2_pos m) = prec).
Proof.
  unfold canonical_mantissa, fexp. intros H. apply Z.eqb_eq in H. lia.
Qed.

Lemma SFsub_sign (x y : spec_float) :
  valid_binary x = true → valid_binary y = true →
  below_zero x = false → below_zero y = false →
  SFltb x y = false →
  below_zero (SF64sub x y) = false.
Proof.
  destruct x as [[]|[]| |[] mx ex], y as [[]|[]| |[] my ey]; try done.
  intros Hx Hy _ _ Hlt. unfold SF64sub, SFsub.
  apply binary_normalize_sign. cbn [cond_Zopp].
  apply andb_prop in Hx as [Hx Hxe], Hy as [Hy Hye].
  apply canonical_digits in Hx as (Hdx & Hex & Hnx), Hy as (Hdy & Hey & Hny).
  pose proof (digits2_pos_bounds mx) as [Hlx Hux].
  pose proof (digits2_pos_bounds my) as [Hly Huy].
  unfold SFltb, SFcompare in Hlt.
  destruct (Z.compare_spec ex ey) as [-> | Hlt' | Hgt]; [| done |].
  - rewrite Z.min_id, !shl_align_value, Z.sub_diag, !Z.mul_1_r by lia.
    destruct (PosDef.Pos.compare_cont Eq mx my) eqn:Hc; try done.
    + apply Pos.compare_eq in Hc. lia.
    + change (PosDef.Pos.compare_cont Eq mx my) with (Pos.compare mx my) in Hc.
      apply Pos.compare_gt_iff in Hc. lia.
  - rewrite Z.min_r, !shl_align_value, Z.sub_diag, Z.mul_1_r by lia.
    specialize (Hnx ltac:(lia)).
    assert (2 ^ prec <= Z.pos mx * 2 ^ (ex - ey)).
    { rewrite Hnx in Hlx.
      replace prec with ((prec - 1) + 1) at 1 by lia.
      rewrite Z.pow_add_r by (unfold prec; lia).
      apply Z.mul_le_mono_nonneg; try lia.
      apply Z.pow_le_mono_r; lia. }
    assert (Z.pos my < 2 ^ prec).
    { eapply Z.lt_le_trans; [exact Huy|]. apply Z.pow_le_mono_r; lia. }
    lia.
Qed.

Lemma num_sub_not_negative (x y : num) :
  num_ltb x 0%float = false → num_ltb y 0%float = false →
  num_ltb x y = false →
  num_ltb (num_sub x y) 0%float = false.
Proof.
  rewrite !num_ltb_zero. unfold num_sub, num_ltb at 1.
  rewrite sub_spec, FloatAxioms.ltb_spec.
  apply SFsub_sign; apply Prim2SF_valid.
Qed.

(** *** Zero, [NaN], the infinities *)

Lemma is_infinity_spec (x : num) :
  is_infinity x = match Prim2SF x with S754_infinity _ => true | _ => false end.
Proof.
  unfold is_infinity. rewrite FloatAxioms.eqb_spec, abs_spec.
  change (Prim2SF infinity) with (S754_infinity false).
  by destruct (Prim2SF x) as [[]|[]| |[] m e].
Qed.

(** *** Sums and differences that are numbers *)

Lemma shr_1_sign (mrs : shr_record) : 0 <= shr_m mrs → 0 <= shr_m (shr_1 mrs).
Proof. destruct mrs as [[| [p | p |] | p] r s]; simpl; lia. Qed.

Lemma iter_pos_shr_1_sign (p : positive) (mrs : shr_record) :
  0 <= shr_m mrs → 0 <= shr_m (SpecFloat.iter_pos shr_1 p mrs).
Proof.
  revert mrs. induction p as [p IH | p IH |]; intros mrs Hm; simpl.
  - by apply IH, IH, shr_1_sign.
  - by apply IH, IH.
  - by apply shr_1_sign.
Qed.

Lemma shr_fexp_sign (m e : Z) (l : location) :
  0 <= m → 0 <= shr_m (shr_fexp prec emax m e l).1.
Proof.
  intros Hm. unfold shr_fexp, shr.
  assert (0 <= shr_m (shr_record_of_loc m l)) by (by destruct l as [| []]).
  destruct (_ - e) as [| p | p]; cbn [fst]; try done.
  by apply iter_pos_shr_1_sign.
Qed.

Lemma round_nearest_even_sign (m : Z) (l : location) :
  0 <= m → 0 <= round_nearest_even m l.
Proof.
  intros Hm. destruct l as [| []]; simpl; try done; [|lia].
  destruct (Z.even m); lia.
Qed.

(** Rounding a mantissa that is not negative gives a number. *)
Lemma binary_round_aux_number (s : bool) (m e : Z) (l : location) :
  0 <= m → not_a_number (binary_round_aux prec emax s m e l) = false.
Proof.
  intros Hm. unfold binary_round_aux.
  pose proof (shr_fexp_sign m e l Hm) as H1.
  destruct (shr_fexp prec emax m e l) as [mrs' e'].
  pose proof (shr_fexp_sign _ e' loc_Exact
                (round_nearest_even_sign _ (loc_of_shr_record mrs') H1)) as H2.
  destruct (shr_fexp prec emax _ e' loc_Exact) as [mrs'' e''].
  cbn [fst] in H2.
  destruct (shr_m mrs''); [done | | lia].
  by destruct (Z.leb e'' (emax - prec)).
Qed.

Lemma binary_normalize_number (m e : Z) (s : bool) :
  not_a_number (binary_normalize prec emax m e s) = false.
Proof.
  destruct m as [| p | p]; [done | |].
  all: unfold binary_normalize, binary_round.
  all: destruct (shl_align _ _ _) as [mz ez].
  all: by apply binary_round_aux_number.
Qed.

Lemma SFadd_number (x y : spec_float) :
  not_a_number x = false → not_a_number y = false →
  below_zero x = false → below_zero y = false →
  not_a_number (SF64add x y) = false.
Proof.
  destruct x as [[]|[]| |[] mx ex], y as [[]|[]| |[] my ey]; try done.
  intros _ _ _ _. apply binary_normalize_number.
Qed.

Lemma SFsub_number (x y : spec_float) :
  not_a_number x = false →
  match y with S754_nan | S754_infinity _ => false | _ => true end = true →
  not_a_number (SF64sub x y) = false.
Proof.
  destruct x as [[]|[]| |[] mx ex], y as [[]|[]| |[] my ey]; try done.
  all: intros _ _; apply binary_normalize_number.
Qed.

(** [0 <= x]: a number that is not below zero. *)
Lemma at_least_zero_spec (x : num) :
  at_least_zero x ↔
  not_a_number (Prim2SF x) = false ∧ below_zero (Prim2SF x) = false.
Proof.
  unfold at_least_zero, num_leb. rewrite FloatAxioms.leb_spec.
  change (Prim2SF 0) with (S754_zero false).
  destruct (Prim2SF x) as [[]|[]| |[] m e]; simpl; split; by try intros [].
Qed.

Lemma at_least_zero_parseFloat (x : num) :
  at_least_zero x → at_least_zero (parseFloat x).
Proof.
  rewrite !at_least_zero_spec, Prim2SF_parseFloat.
  by destruct (Prim2SF x) as [[]|[]| |[] m e].
Qed.

Lemma num_add_at_least_zero (x y : num) :
  at_least_zero x → at_least_zero y → at_least_zero (num_add x y).
Proof.
  rewrite !at_least_zero_spec. unfold num_add. rewrite add_spec.
  intros [Hx Hx'] [Hy Hy']. split; [by apply SFadd_number | by apply SFadd_sign].
Qed.

Lemma num_sub_at_least_zero (x y : num) :
  at_least_zero x → at_least_zero y → is_infinity y = false →
  num_ltb x y = false →
  at_least_zero (num_sub x y).
Proof.
  rewrite !at_least_zero_spec, is_infinity_spec. unfold num_sub, num_ltb.
  rewrite sub_spec, FloatAxioms.ltb_spec.
  intros [Hx Hx'] [Hy Hy'] Hinf Hlt. split.
  - apply SFsub_number; [done|]. by destruct (Prim2SF y).
  - apply SFsub_sign; try done; apply Prim2SF_valid.
Qed.

Lemma parseFloat_nan : parseFloat nan = nan.
Proof. reflexivity. Qed.

(** A number above zero is truthy. *)
Lemma positive_truthy (x : num) :
  num_ltb 0%float x = true → truthy_number (Some x) = true.
Proof.
  unfold num_ltb, truthy_number.
  rewrite FloatAxioms.ltb_spec, is_zero_spec, is_nan_spec.
  change (Prim2SF 0) with (S754_zero false).
  by destruct (Prim2SF x) as [[]|[]| |[] m e].
Qed.

(** Below zero: not zero and not [NaN]. *)
Lemma negative_parseFloat (x : num) :
  num_ltb x 0%float = true → parseFloat x = x ∧ isNaN x = false.
Proof.
  rewrite num_ltb_zero. unfold parseFloat, isNaN.
  rewrite is_zero_spec, is_nan_spec.
  by destruct (Prim2SF x) as [[]|[]| |[] m e].
Qed.

(** A balance that is not below zero and is below the amount: the amount is
    a number that is not below zero either. *)
Lemma above_not_negative (b a : num) :
  num_ltb b 0%float = false → num_ltb b a = true →
  num_ltb a 0%float = false ∧ isNaN a = false ∧ isNaN b = false.
Proof.
  rewrite !num_ltb_zero. unfold num_ltb, isNaN.
  rewrite FloatAxioms.ltb_spec, !is_nan_spec.
  by destruct (Prim2SF b) as [[]|[]| |[] m e],
              (Prim2SF a) as [[]|[]| |[] m' e'].
Qed.

Lemma num_ltb_irrefl (x : num) : num_ltb x x = false.
Proof.
  unfold num_ltb. rewrite FloatAxioms.ltb_spec. unfold SFltb, SFcompare.
  destruct (Prim2SF x) as [[]|[]| |[] m e]; try done.
  all: by rewrite Z.compare_refl, Pos_compare_cont_refl.
Qed.

(** A zero, of either sign, is a number, is not below zero, and is parsed
    as [0]. *)
Lemma zero_amount (x : num) :
  is_zero x = true →
  isNaN x = false ∧ num_ltb x 0%float = false ∧ parseFloat x = 0%float.
Proof.
  intros Hz. unfold parseFloat. rewrite Hz.
  rewrite num_ltb_zero. unfold isNaN. rewrite is_nan_spec.
  rewrite is_zero_spec in Hz.
  by destruct (Prim2SF x) as [[]|[]| |[] m e].
Qed.

(** *** Adding and taking away nothing, taking away everything *)

Lemma num_add_zero (x : num) :
  num_add (parseFloat x) 0%float = parseFloat x.
Proof.
  apply Prim2SF_inj. unfold num_add. rewrite add_spec, Prim2SF_parseFloat.
  change (Prim2SF 0) with (S754_zero false).
  by destruct (Prim2SF x) as [[]|[]| |[] m e].
Qed.

Lemma num_sub_zero (x : num) :
  num_sub (parseFloat x) 0%float = parseFloat x.
Proof.
  apply Prim2SF_inj. unfold num_sub. rewrite sub_spec, Prim2SF_parseFloat.
  change (Prim2SF 0) with (S754_zero false).
  by destruct (Prim2SF x) as [[]|[]| |[] m e].
Qed.

Lemma num_sub_self (x : num) :
  isNaN x = false → is_infinity x = false →
  num_sub (parseFloat x) (parseFloat x) = 0%float.
Proof.
  unfold isNaN. rewrite is_nan_spec, is_infinity_spec. intros Hnan Hinf.
  apply Prim2SF_inj. unfold num_sub. rewrite sub_spec, Prim2SF_parseFloat.
  change (Prim2SF 0) with (S754_zero false).
  destruct (Prim2SF x) as [[]|[]| |s m e]; try done.
  unfold SF64sub, SFsub. rewrite Z.min_id. unfold shl_align.
  by rewrite Z.sub_diag.
Qed.

(** ** Running programs *)

Lemma exec_bind {E A B : Type} (p : Prog E A) (k : A → Prog E B) (w : World) :
  exec (p ≫= k) w =
  match exec p w with
  | (w', inl e) => (w', inl e)
  | (w', inr a) => exec (k a) w'
  end.
Proof.
  revert w. induction p as [a | e | X call k' IH]; intros w; simpl; try done.
  destruct (call w) as [w' x]. apply IH.
Qed.

Lemma exec_try_catch {E E' A : Type} (p : Prog E A) (h : E → Prog E' A)
    (w : World) :
  exec (try_catch p h) w =
  match exec p w with
  | (w', inl e) => exec (h e) w'
  | (w', inr a) => (w', inr a)
  end.
Proof.
  revert w. induction p as [a | e | X call k' IH]; intros w; simpl; try done.
  destruct (call w) as [w' x]. apply IH.
Qed.

Lemma exec_await {A : Type} (call : World → World * (Thrown + A)) (w : World) :
  exec (await call) w = call w.
Proof. simpl. by destruct (call w) as [w' [t | a]]. Qed.

Lemma exec_lift {E A : Type} (r : E + A) (w : World) : exec (lift r) w = (w, r).
Proof. by destruct r. Qed.

(** Running a call alone is making its steps one after the other. *)
Lemma exec_step {E A : Type} (p : Prog E A) (w : World) :
  exec p w = let '(p', w') := step p w in exec p' w'.
Proof. destruct p as [a | e | X call k]; simpl; try done. by destruct (call w). Qed.

(** ** Basic facts about write sets *)

Lemma apply_writes_app (ws1 ws2 : list Write) (db : Db) :
  apply_writes (ws1 ++ ws2) db = apply_writes ws2 (apply_writes ws1 db).
Proof. unfold apply_writes. apply foldl_app. Qed.

Lemma writes_of_add_write (h : handle) (wr : Write) (w : World) :
  writes_of (add_write h wr w) h = writes_of w h ++ [wr].
Proof. unfold writes_of, add_write; simpl. by rewrite lookup_insert_eq. Qed.

(** ** Every call follows one of the paths *)

(** Reads and the id counter do not change what a query sees. *)
Lemma view_log (ev : Event) (w : World) (tx : option handle) :
  view (log ev w) tx = view w tx.
Proof. by destruct tx. Qed.

Lemma exec_check_duplicate (fl : Faults) (data : TransactionData)
    (tx : option handle) (w : World) :
  exec (check_duplicate fl data tx) w =
  if truthy_string (referenceId data) then
    match f_findOne fl with
    | Some t => (w, inl t)
    | None =>
        (log (EvFindOne tx) w,
         match List.find (same_reference (referenceId data) (type data))
                         (transactions (view w tx)) with
         | Some _ =>
             inl (new_error "DuplicateTransactionError"
                    ("Transaction already exists for reference " +:+
                     default "" (referenceId data)))
         | None => inr tt
         end)
    end
  else (w, inr tt).
Proof.
  unfold check_duplicate. destruct (truthy_string (referenceId data)); [|done].
  rewrite exec_bind, exec_await. unfold TransactionModel_findOne.
  destruct (f_findOne fl); [done|].
  by destruct (List.find _ _).
Qed.

(** The inner [catch] of [write_step], run on a thrown value. *)
Lemma exec_inner_catch (fl : Faults) (tx : option handle) (h : handle)
    (e : Thrown) (wf : World) :
  exec (_ ← (if is_None tx then await (transaction_rollback fl h)
             else mret tt);
        Throw e : Prog Thrown TransactionAttributes) wf =
  match tx with
  | Some _ => (wf, inl e)
  | None =>
      match f_rollback fl with
      | None => (rollback h wf, inl e)
      | Some t => (log (EvRollback h false) wf, inl t)
      end
  end.
Proof.
  destruct tx as [h'|]; simpl; [done|].
  unfold transaction_rollback. by destruct (f_rollback fl).
Qed.

Lemma exec_createTransactionRepo (fl : Faults) (data : TransactionData)
    (tx : option handle) (w : World) :
  exec (createTransactionRepo fl data tx) w = finish (exec (body fl data tx) w).
Proof.
  unfold createTransactionRepo. rewrite exec_try_catch.
  by destruct (exec (body fl data tx) w) as [w' [e | a]].
Qed.

Lemma new_row_after_open (data : TransactionData) (tx : option handle)
    (w : World) :
  new_row data (after_open data tx w) = new_row data w.
Proof.
  unfold after_open, after_check, after_lookup.
  by destruct tx, (truthy_string (referenceId data)).
Qed.

Lemma settle_outcome (fl : Faults) (data : TransactionData)
    (tx : option handle) (w : World) (balance : num) (wf : World) (e : Thrown) :
  found fl data tx w balance → no_duplicate fl data tx w →
  valid_numbers data balance → opened fl tx →
  WriteFails fl data tx w balance wf e →
  ∀ w' r,
    finish (exec (_ ← (if is_None tx
                       then await (transaction_rollback fl (the_handle tx w))
                       else mret tt);
                  Throw e : Prog Thrown TransactionAttributes) wf) = (w', r) →
    Outcome fl data tx w w' r.
Proof.
  intros Hfound Hcheck Hvalid Hopen Hfail w' r.
  rewrite exec_inner_catch.
  pose proof (O_write_fails fl data tx w balance wf e
                Hfound Hcheck Hvalid Hopen Hfail) as H.
  unfold settle in H.
  destruct tx as [h|]; [|destruct (f_rollback fl)]; simpl in *; by intros [= <- <-].
Qed.

Lemma write_step_outcome (fl : Faults) (data : TransactionData)
    (tx : option handle) (w : World) (balance : num) :
  found fl data tx w balance → no_duplicate fl data tx w →
  valid_numbers data balance → opened fl tx →
  ∀ w' r,
    finish (exec (write_step fl data tx (mkWallet (walletId data) balance)
                    (parseFloat balance) (parseFloat (amount data))
                    (the_handle tx w))
                 (after_open data tx w)) = (w', r) →
    Outcome fl data tx w w' r.
Proof.
  intros Hfound Hcheck Hvalid Hopen w' r.
  pose proof (settle_outcome fl data tx w balance) as Hsettle.
  unfold write_step. rewrite exec_try_catch, exec_bind, exec_await.
  unfold TransactionModel_create.
  destruct (f_create fl) as [t|] eqn:Hcreate.
  { apply Hsettle; try done. by constructor. }
  rewrite new_row_after_open. cbn [tx_id new_row].
  fold (after_create data tx w).
  rewrite exec_bind, exec_lift. fold (new_balance data balance).
  destruct (new_balance data balance) as [e | newBalance] eqn:Hbalance.
  { apply Hsettle; try done. by constructor. }
  rewrite exec_bind, exec_await. unfold Wallet_save.
  destruct (f_save fl) as [t|] eqn:Hsave.
  { apply Hsettle; try done. by eapply WF_save. }
  cbn [wallet_id wallet_balance]. fold (after_save data tx w newBalance).
  rewrite exec_bind.
  destruct (is_None tx) eqn:Hown.
  - rewrite exec_await. unfold transaction_commit.
    destruct (f_commit fl) as [t|] eqn:Hcommit.
    + apply Hsettle; try done. by eapply WF_commit.
    + simpl. intros [= <- <-].
      pose proof (O_success fl data tx w balance newBalance) as H.
      unfold settled in H. destruct tx; [done|]. by apply H.
  - simpl. intros [= <- <-].
    pose proof (O_success fl data tx w balance newBalance) as H.
    unfold settled in H. destruct tx; [|done]. by apply H.
Qed.

Lemma validate_and_write_outcome (fl : Faults) (data : TransactionData)
    (tx : option handle) (w : World) (balance : num) :
  found fl data tx w balance → no_duplicate fl data tx w →
  ∀ w' r,
    finish (exec (validate_and_write fl data tx
                    (mkWallet (walletId data) balance))
                 (after_check data tx w)) = (w', r) →
    Outcome fl data tx w w' r.
Proof.
  intros Hfound Hcheck w' r.
  unfold validate_and_write. cbn [wallet_balance].
  destruct (isNaN (parseFloat balance) || isNaN (parseFloat (amount data)))
    eqn:Hnan.
  { simpl. intros [= <- <-]. by eapply O_invalid_data. }
  destruct (num_ltb (parseFloat (amount data)) 0%float) eqn:Hneg.
  { simpl. intros [= <- <-]. by eapply O_invalid_amount. }
  assert (Hvalid : valid_numbers data balance) by done.
  rewrite exec_bind.
  destruct tx as [h|].
  - simpl exec at 1. cbv iota beta.
    apply (write_step_outcome fl data (Some h) w balance); try done.
    by left.
  - rewrite exec_await. unfold sequelizeSystem_transaction.
    destruct (f_transaction fl) as [t|] eqn:Hopen.
    + simpl. intros [= <- <-]. by eapply O_open_throws.
    + assert (Hh : next_handle (after_check data None w) = next_handle w).
      { unfold after_check, after_lookup.
        by destruct (truthy_string (referenceId data)). }
      rewrite Hh.
      apply (write_step_outcome fl data None w balance); try done.
      by right.
Qed.

(** Every call ends the way one of the paths says. *)
Lemma createTransactionRepo_outcome (fl : Faults) (data : TransactionData)
    (tx : option handle) (w w' : World) (r : ErrorType + TransactionAttributes) :
  exec (createTransactionRepo fl data tx) w = (w', r) →
  Outcome fl data tx w w' r.
Proof.
  rewrite exec_createTransactionRepo.
  unfold body. rewrite exec_bind, exec_await. unfold Wallet_findByPk.
  destruct (f_findByPk fl) as [t|] eqn:Hlookup.
  { simpl. intros [= <- <-]. by apply O_lookup_throws. }
  destruct (wallets (view w tx) !! walletId data) as [balance|] eqn:Hwallet;
    simpl fmap; cbv iota.
  2: { simpl. intros [= <- <-]. by apply O_not_found. }
  assert (Hfound : found fl data tx w balance) by done.
  rewrite exec_bind, exec_check_duplicate, view_log.
  fold (after_lookup data tx w).
  pose proof (validate_and_write_outcome fl data tx w balance Hfound) as Htail.
  unfold after_check in Htail.
  destruct (truthy_string (referenceId data)) eqn:Htruthy.
  - destruct (f_findOne fl) as [t|] eqn:Hfind.
    { simpl. intros [= <- <-]. by eapply O_check_throws. }
    destruct (List.find _ _) as [row|] eqn:Hrow.
    + simpl. intros [= <- <-].
      pose proof (O_duplicate fl data tx w balance row Hfound Htruthy Hfind Hrow)
        as H.
      unfold after_check in H. by rewrite Htruthy in H.
    + apply Htail. by right.
  - apply Htail. by left.
Qed.

(** ** What each path leaves behind *)

Section AfterCheck.
Context (data : TransactionData) (tx : option handle) (w : World).

(** The two reads change nothing but the trace. *)
Lemma committed_after_check :
  committed (after_check data tx w) = committed w.
Proof. unfold after_check. by destruct (truthy_string _). Qed.

Lemma pending_after_check : pending (after_check data tx w) = pending w.
Proof. unfold after_check. by destruct (truthy_string _). Qed.

Lemma next_handle_after_check :
  next_handle (after_check data tx w) = next_handle w.
Proof. unfold after_check. by destruct (truthy_string _). Qed.

Lemma next_id_after_check : next_id (after_check data tx w) = next_id w.
Proof. unfold after_check. by destruct (truthy_string _). Qed.

Lemma trace_after_check :
  trace (after_check data tx w) =
  trace w ++ EvFindByPk tx (walletId data) ::
    (if truthy_string (referenceId data) then [EvFindOne tx] else []).
Proof.
  unfold after_check. destruct (truthy_string _); simpl; [|done].
  by rewrite <- app_assoc.
Qed.
End AfterCheck.

Lemma writes_of_after_check (data : TransactionData) (tx : option handle)
    (w : World) (h : handle) :
  writes_of (after_check data tx w) h = writes_of w h.
Proof. unfold writes_of. by rewrite pending_after_check. Qed.

Lemma view_after_check (data : TransactionData) (tx tx' : option handle)
    (w : World) :
  view (after_check data tx w) tx' = view w tx'.
Proof.
  unfold view. rewrite committed_after_check.
  destruct tx'; [|done]. by rewrite writes_of_after_check.
Qed.

Section PathFacts.
Context (data : TransactionData) (tx : option handle) (w : World).

Lemma committed_after_open : committed (after_open data tx w) = committed w.
Proof.
  unfold after_open. destruct tx; simpl; apply committed_after_check.
Qed.

Lemma pending_after_open :
  pending (after_open data tx w) =
  match tx with
  | Some _ => pending w
  | None => <[next_handle w := []]> (pending w)
  end.
Proof.
  unfold after_open. destruct tx; simpl;
    by rewrite ?pending_after_check, ?next_handle_after_check.
Qed.

Lemma writes_after_open :
  writes_of (after_open data tx w) (the_handle tx w) = base_writes tx w.
Proof.
  unfold writes_of. rewrite pending_after_open.
  destruct tx; simpl; [done|]. by rewrite lookup_insert_eq.
Qed.

Lemma trace_after_open :
  trace (after_open data tx w) =
  trace (after_check data tx w) ++
  match tx with
  | Some _ => []
  | None => [EvBegin (next_handle w)]
  end.
Proof.
  unfold after_open. destruct tx; simpl; [by rewrite app_nil_r|].
  by rewrite next_handle_after_check.
Qed.

Lemma committed_after_create :
  committed (after_create data tx w) = committed w.
Proof. apply committed_after_open. Qed.

Lemma pending_after_create :
  pending (after_create data tx w) =
  <[the_handle tx w := base_writes tx w ++ [InsertTransaction (new_row data w)]]>
    (pending w).
Proof.
  unfold after_create; simpl. rewrite writes_after_open, pending_after_open.
  destruct tx; simpl; [done|]. by rewrite insert_insert_eq.
Qed.

Lemma trace_after_create :
  trace (after_create data tx w) =
  trace (after_open data tx w) ++ [EvCreate (the_handle tx w) (next_id w)].
Proof. done. Qed.

Lemma committed_after_save (newBalance : num) :
  committed (after_save data tx w newBalance) = committed w.
Proof. apply committed_after_open. Qed.

Lemma pending_after_save (newBalance : num) :
  pending (after_save data tx w newBalance) =
  <[the_handle tx w :=
      base_writes tx w ++ [InsertTransaction (new_row data w);
                      SaveWallet (walletId data) newBalance]]>
    (pending w).
Proof.
  unfold after_save. cbn [pending log add_write]. unfold writes_of.
  rewrite pending_after_create, lookup_insert_eq. simpl default.
  by rewrite insert_insert_eq, <- app_assoc.
Qed.

Lemma trace_after_save (newBalance : num) :
  trace (after_save data tx w newBalance) =
  trace (after_create data tx w) ++ [EvSave (the_handle tx w) (walletId data)].
Proof. done. Qed.
End PathFacts.

Lemma lookup_pending_insert (m : gmap nat (list Write)) (h : handle)
    (ws : list Write) :
  <[h := ws]> m !! h = Some ws.
Proof. apply lookup_insert_eq. Qed.

Create Rewrite HintDb world.

#[local] Hint Rewrite committed_after_check pending_after_check
  next_handle_after_check next_id_after_check trace_after_check
  writes_of_after_check view_after_check
  committed_after_open pending_after_open trace_after_open
  committed_after_create pending_after_create trace_after_create
  committed_after_save pending_after_save trace_after_save
  lookup_pending_insert apply_writes_app : world.

Ltac world_done :=
  repeat split; intros; simplify_map_eq; eauto.

(** Projections of the worlds a path ends in. *)
Ltac world_simpl :=
  repeat (progress
    (cbn [settled settle the_handle base_writes after_lookup log commit
          rollback view default id app committed pending next_handle next_id
          clock trace fst snd];
     unfold writes_of;
     autorewrite with world)).

Ltac paths H :=
  apply createTransactionRepo_outcome in H;
  inversion H as
    [ pt Plookup | Plookup Pwallet | pbal pt Pfound Ptruthy Pfind
    | pbal prow Pfound Ptruthy Pfind Prow | pbal Pfound Pcheck Pnan
    | pbal Pfound Pcheck Pnan Pneg | pbal pt Pfound Pcheck Pvalid Pown Popen
    | pbal pwf pe Pfound Pcheck Pvalid Popen Pfail
    | pbal pnew Pfound Pcheck Pvalid Popen Pcreate Pbalance Psave Pcommit ];
  subst; clear H;
  try match goal with
      | Hf : WriteFails _ _ _ _ _ _ _ |- _ =>
          inversion Hf as
            [ pt Pcreate | pe' Pcreate Pbalance
            | pnew pt Pcreate Pbalance Psave
            | pnew pt Pcreate Pbalance Psave Pown Pcommit ];
          subst; clear Hf
      end.

(** What one call changes in the committed rows and in the write sets. *)
Lemma createTransactionRepo_effect (fl : Faults) (data : TransactionData)
    (_transaction : option handle) (w w' : World)
    (r : ErrorType + TransactionAttributes) :
  exec (createTransactionRepo fl data _transaction) w = (w', r) →
  match _transaction with
  | None =>
      match r with
      | inl _ => committed w' = committed w
      | inr row =>
          row = new_row data w ∧
          ∃ b, committed w' =
               apply_writes [InsertTransaction row; SaveWallet (walletId data) b]
                            (committed w)
      end ∧
      ∀ h', h' ≠ next_handle w → pending w' !! h' = pending w !! h'
  | Some h =>
      committed w' = committed w ∧
      match r with
      | inl _ =>
          writes_of w' h = writes_of w h ∨
          writes_of w' h = writes_of w h ++ [InsertTransaction (new_row data w)]
      | inr row =>
          row = new_row data w ∧
          ∃ b, writes_of w' h =
               writes_of w h ++ [InsertTransaction row; SaveWallet (walletId data) b]
      end ∧
      ∀ h', h' ≠ h → pending w' !! h' = pending w !! h'
  end.
Proof.
  intros E. paths E.
  all: destruct _transaction as [h|]; world_simpl; try done.
  all: repeat case_match; world_simpl; world_done.
Qed.

(** ** What a call changes in what its unit-of-work sees *)

Lemma createTransactionRepo_view (fl : Faults) (data : TransactionData)
    (tx : option handle) (w w' : World) (r : ErrorType + TransactionAttributes) :
  exec (createTransactionRepo fl data tx) w = (w', r) →
  (view w' tx = view w tx ∧ ∃ e, r = inl e) ∨
  (∃ balance e,
      r = inl e ∧ is_None tx = false ∧
      found fl data tx w balance ∧ no_duplicate fl data tx w ∧
      valid_numbers data balance ∧
      view w' tx = apply_writes [InsertTransaction (new_row data w)]
                                (view w tx)) ∨
  (∃ balance newBalance,
      r = inr (new_row data w) ∧
      found fl data tx w balance ∧ no_duplicate fl data tx w ∧
      valid_numbers data balance ∧
      new_balance data balance = inr newBalance ∧
      view w' tx = apply_writes [InsertTransaction (new_row data w);
                                 SaveWallet (walletId data) newBalance]
                                (view w tx)).
Proof.
  intros E. paths E.
  all: try (left; split; [by autorewrite with world | by eauto]).
  all: destruct tx as [h|]; world_simpl; repeat case_match; world_simpl.
  all: try (left; split; [done | by eauto]).
  all: first [ right; left; by eauto 10 | right; right; by eauto 10 ].
Qed.

(** ** The branch on the type *)

Lemma valid_numbers_spec (data : TransactionData) (balance : num) :
  valid_numbers data balance ↔
  isNaN balance = false ∧ isNaN (amount data) = false ∧
  num_ltb (amount data) 0%float = false.
Proof.
  unfold valid_numbers.
  rewrite !isNaN_parseFloat, num_ltb_parseFloat_zero, orb_false_iff. tauto.
Qed.

Lemma update_balance_inr (ty : TransactionType) (b a newBalance : num) :
  update_balance ty b a = inr newBalance →
  (ty = PAY_SERVICE ∧ num_ltb b a = false ∧ newBalance = num_sub b a) ∨
  ((ty = DEPOSIT ∨ ty = REFUND_SERVICE) ∧ newBalance = num_add b a).
Proof.
  unfold update_balance. destruct ty; simpl; try done.
  - destruct (num_ltb b a) eqn:Hlt; [done|]. intros [= <-]. by left.
  - intros [= <-]. right. eauto.
  - intros [= <-]. right. eauto.
Qed.

Lemma update_balance_inl (ty : TransactionType) (b a : num) (e : Thrown) :
  update_balance ty b a = inl e →
  (ty = PAY_SERVICE ∧ num_ltb b a = true ∧
   e = new_error "InsufficientFundsError" "Insufficient wallet balance") ∨
  (ty ≠ PAY_SERVICE ∧ ty ≠ DEPOSIT ∧ ty ≠ REFUND_SERVICE ∧
   e = new_error "InvalidTypeError"
                 "Transaction type must be PAY_SERVICE or DEPOSIT").
Proof.
  unfold update_balance. destruct ty; simpl; try done.
  - destruct (num_ltb b a) eqn:Hlt; [|done]. intros [= <-]. by left.
  - intros [= <-]. right. by repeat split.
Qed.

Lemma update_balance_nonneg (ty : TransactionType) (b a newBalance : num) :
  update_balance ty b a = inr newBalance →
  nonneg b → nonneg a → nonneg newBalance.
Proof.
  intros H Hb Ha.
  apply update_balance_inr in H as [(_ & Hle & ->) | (_ & ->)].
  - by apply num_sub_not_negative.
  - by apply num_add_not_negative.
Qed.

Lemma update_balance_at_least_zero (ty : TransactionType)
    (b a newBalance : num) :
  update_balance ty b a = inr newBalance →
  at_least_zero b → at_least_zero a → is_infinity a = false →
  at_least_zero newBalance.
Proof.
  intros H Hb Ha Hinf.
  apply update_balance_inr in H as [(_ & Hle & ->) | (_ & ->)].
  - by apply num_sub_at_least_zero.
  - by apply num_add_at_least_zero.
Qed.

(** ** Balances that stay good

    What is good of the balance a call reads and stays good of the balance
    it writes is good of the wallet's balance after any sequence of
    operations. *)

Section Invariant.
Context (good : num → Prop).

Lemma balance_ok_apply_write (wid : Z) (db : Db) (wr : Write) :
  balance_ok good wid db → write_ok good wid wr →
  balance_ok good wid (apply_write db wr).
Proof.
  intros (b & Hb & Hnn) Hwr. destruct wr as [row | wid' b']; simpl.
  - by exists b.
  - unfold balance_ok; simpl. destruct (decide (wid' = wid)) as [-> | Hne].
    + exists b'. rewrite lookup_alter_eq, Hb. split; [done | by apply Hwr].
    + exists b. by rewrite lookup_alter_ne.
Qed.

Lemma balance_ok_apply_writes (wid : Z) (ws : list Write) (db : Db) :
  balance_ok good wid db → Forall (write_ok good wid) ws →
  balance_ok good wid (apply_writes ws db).
Proof.
  revert db. induction ws as [| wr ws IH]; intros db Hdb Hws; [done|].
  inversion Hws; subst. apply IH; [|done]. by apply balance_ok_apply_write.
Qed.

Lemma wallet_ok_writes (wid : Z) (w : World) (h : handle) :
  wallet_ok good wid w → Forall (write_ok good wid) (writes_of w h).
Proof.
  intros [_ Hp]. unfold writes_of.
  destruct (pending w !! h) as [ws|] eqn:Hws; simpl; [by eapply Hp | done].
Qed.

Lemma wallet_ok_view (wid : Z) (w : World) (tx : option handle) :
  wallet_ok good wid w → balance_ok good wid (view w tx).
Proof.
  intros Hok. destruct tx as [h|]; simpl; [|apply Hok].
  apply balance_ok_apply_writes; [apply Hok | by apply wallet_ok_writes].
Qed.

(** The balance a validated call writes is good. *)
Lemma new_balance_ok (fl : Faults) (data : TransactionData)
    (tx : option handle) (w : World) (balance newBalance : num) :
  keeps good (OpRecord fl data tx) →
  wallet_ok good (walletId data) w →
  found fl data tx w balance → valid_numbers data balance →
  new_balance data balance = inr newBalance →
  good newBalance.
Proof.
  intros Hkeeps Hok [_ Hwallet] Hvalid Hbalance.
  destruct (wallet_ok_view _ w tx Hok) as (b0 & Hb0 & Hgood).
  simplify_eq. by eapply Hkeeps.
Qed.

Lemma wallet_ok_record (wid : Z) (fl : Faults) (data : TransactionData)
    (tx : option handle) (w w' : World) (r : ErrorType + TransactionAttributes) :
  keeps good (OpRecord fl data tx) →
  wallet_ok good wid w →
  exec (createTransactionRepo fl data tx) w = (w', r) →
  wallet_ok good wid w'.
Proof.
  intros Hkeeps Hok E.
  assert (Hwrite : ∀ balance newBalance,
    found fl data tx w balance → valid_numbers data balance →
    new_balance data balance = inr newBalance →
    write_ok good wid (SaveWallet (walletId data) newBalance)).
  { intros balance newBalance Hfound Hvalid Hbalance Heq. subst wid.
    by eapply new_balance_ok. }
  pose proof (λ h, wallet_ok_writes wid w h Hok) as Hbase.
  clear Hkeeps.
  destruct Hok as [Hdb Hpend].
  paths E.
  all: unfold wallet_ok; world_simpl; try done.
  all: destruct tx as [h|]; world_simpl; repeat case_match; world_simpl.
  all: split; try done.
  all: repeat first
         [ apply map_Forall_delete | apply map_Forall_insert_2
         | apply Forall_app_2 | apply Forall_cons_2 | apply Forall_nil_2
         | apply balance_ok_apply_writes ];
       try done; eauto.
  all: apply Hbase.
Qed.

Lemma wallet_ok_run_op (wid : Z) (w : World) (op : Op) :
  keeps good op → wallet_ok good wid w → wallet_ok good wid (run_op w op).
Proof.
  intros Hkeeps Hok. destruct op as [fl data tx | | h | h]; cbn [run_op].
  - destruct (exec (createTransactionRepo fl data tx) w) as [w' r] eqn:E.
    by eapply wallet_ok_record.
  - destruct Hok as [Hdb Hpend]. split; simpl; [done|].
    apply map_Forall_insert_2; [constructor | done].
  - split; simpl.
    + apply balance_ok_apply_writes; [apply Hok | by apply wallet_ok_writes].
    + apply map_Forall_delete, Hok.
  - split; simpl; [apply Hok | apply map_Forall_delete, Hok].
Qed.

Lemma wallet_ok_run_ops (wid : Z) (ops : list Op) (w : World) :
  Forall (keeps good) ops →
  wallet_ok good wid w → wallet_ok good wid (run_ops ops w).
Proof.
  revert w. induction ops as [| op ops IH]; intros w Hops Hok; [done|].
  inversion Hops; subst. apply IH; [done|]. by apply wallet_ok_run_op.
Qed.

End Invariant.

(** Every operation keeps balances from going below zero. *)
Lemma keeps_nonneg (op : Op) : keeps nonneg op.
Proof.
  destruct op as [fl data tx | | |]; try done.
  intros b newBalance Hb [_ Hpos] Hbalance.
  eapply update_balance_nonneg; [exact Hbalance | | done].
  unfold nonneg. by rewrite num_ltb_parseFloat_zero.
Qed.

(** Every operation other than a call with an infinite amount keeps
    balances at zero or above. *)
Lemma keeps_at_least_zero (op : Op) :
  finite_amount op → keeps at_least_zero op.
Proof.
  destruct op as [fl data tx | | |]; try done.
  intros Hfinite b newBalance Hb [Hnan Hpos] Hbalance.
  apply orb_false_iff in Hnan as [_ Hnan].
  eapply update_balance_at_least_zero; [exact Hbalance | | |].
  - by apply at_least_zero_parseFloat.
  - apply at_least_zero_spec. rewrite num_ltb_zero in Hpos.
    unfold isNaN in Hnan. rewrite is_nan_spec in Hnan.
    split; [|done]. by destruct (Prim2SF (parseFloat (amount data))).
  - cbn [finite_amount] in Hfinite.
    rewrite is_infinity_spec in Hfinite |- *. rewrite Prim2SF_parseFloat.
    by destruct (Prim2SF (amount data)) as [[]|[]| |[] m e].
Qed.


(** Without storage faults, a debit that exceeds a balance that is not
    negative ends in [InsufficientFundsError], unless a duplicate is found
    first. *)
Lemma insufficient_funds_error (data : TransactionData) (tx : option handle)
    (w w' : World) (r : ErrorType + TransactionAttributes) (b : num) :
  type data = PAY_SERVICE →
  wallets (view w tx) !! walletId data = Some b →
  nonneg b → num_ltb b (amount data) = true →
  (truthy_string (referenceId data) = true →
   List.find (same_reference (referenceId data) (type data))
             (transactions (view w tx)) = None) →
  exec (createTransactionRepo no_faults data tx) w = (w', r) →
  r = inl (mkErrorType "InsufficientFundsError" "Insufficient wallet balance"
                       None).
Proof.
  intros Hty Hwallet Hnn Hlt Hnodup E.
  destruct (above_not_negative _ _ Hnn Hlt) as (Hpos & Hna & Hnb).
  paths E.
  all: try done.
  all: try (destruct Pfound as [_ Pwallet]); simplify_eq.
  all: try (rewrite Hnodup in Prow by done; done).
  all: rewrite ?isNaN_parseFloat, ?num_ltb_parseFloat_zero in *;
    try congruence.
  - by rewrite Hna, Hnb in Pnan.
  - unfold new_balance in Pbalance.
    apply update_balance_inl in Pbalance
      as [(_ & _ & ->) | (Hne & _)]; [|done].
    by destruct tx.
  - unfold new_balance in Pbalance.
    apply update_balance_inr in Pbalance
      as [(_ & Hle & _) | ([Hd | Hd] & _)]; [| congruence ..].
    rewrite num_ltb_parseFloat in Hle. congruence.
Qed.

(** ** The duplicate check *)




Lemma same_reference_true (ref : option string) (ty : TransactionType)
    (row : TransactionAttributes) :
  same_reference ref ty row = true →
  tx_referenceId row = ref ∧ tx_type row = ty ∧ tx_isDeleted row = false.
Proof.
  unfold same_reference. intros H.
  apply andb_prop in H as [H Hdel]. apply andb_prop in H as [Href Hty].
  apply bool_decide_eq_true in Href, Hty.
  by destruct (tx_isDeleted row).
Qed.



(** ** Types outside the three the engine knows *)

Lemma update_balance_unknown (ty : TransactionType) (balance amount : num) :
  unknown_type ty →
  update_balance ty balance amount =
  inl (new_error "InvalidTypeError"
                 "Transaction type must be PAY_SERVICE or DEPOSIT").
Proof. intros (H1 & H2 & H3). by destruct ty. Qed.

Lemma invalid_type_error (data : TransactionData) (tx : option handle)
    (w w' : World) (r : ErrorType + TransactionAttributes) (b : num) :
  unknown_type (type data) →
  wallets (view w tx) !! walletId data = Some b →
  isNaN b = false → isNaN (amount data) = false →
  num_ltb (amount data) 0%float = false →
  (truthy_string (referenceId data) = true →
   List.find (same_reference (referenceId data) (type data))
             (transactions (view w tx)) = None) →
  exec (createTransactionRepo no_faults data tx) w = (w', r) →
  r = inl (mkErrorType "InvalidTypeError"
                       "Transaction type must be PAY_SERVICE or DEPOSIT" None).
Proof.
  intros Hty Hwallet Hnb Hna Hpos Hnodup E.
  pose proof (update_balance_unknown _ (parseFloat b) (parseFloat (amount data))
                Hty) as Hupd.
  paths E.
  all: try done.
  all: try (destruct Pfound as [_ Pwallet]); simplify_eq.
  all: try (rewrite Hnodup in Prow by done; done).
  all: rewrite ?isNaN_parseFloat, ?num_ltb_parseFloat_zero in *;
    try congruence.
  - by rewrite Hna, Hnb in Pnan.
  - unfold new_balance in Pbalance. rewrite Hupd in Pbalance.
    injection Pbalance as <-. by destruct tx.
  - unfold new_balance in Pbalance. congruence.
Qed.

(** ** The storage calls a call makes *)

Ltac trace_split :=
  first
    [ exists []; split; [by rewrite app_nil_r|]
    | rewrite <- ?app_assoc; cbn [app]; eexists; split; [reflexivity|] ].

(** ** The outer catch *)

Lemma settle_surfaced (fl : Faults) (tx : option handle) (w wf : World)
    (e : Thrown) :
  (settle fl tx w wf e).2 = surfaced fl tx e.
Proof. unfold settle, surfaced. by destruct tx, (f_rollback fl). Qed.


Lemma name_rethrow_ne (t : Thrown) (n : string) :
  th_name t ≠ Some n → n ≠ "TransactionCreationError" →
  name (rethrow t) ≠ n.
Proof.
  intros Ht Hn. unfold rethrow, or_default; simpl.
  destruct (th_name t) as [s|]; [|done].
  destruct (decide (s = "")); [done | congruence].
Qed.

Ltac thrown_by_fault :=
  unfold thrown_by; rewrite !elem_of_cons;
  match goal with
  | H : _ = Some ?t |- context [Some ?t] => rewrite <- H
  end; tauto.

Ltac engine_kind :=
  right; eexists _, _; split; [reflexivity|];
  unfold engine_kinds; rewrite !elem_of_cons; tauto.

Lemma update_balance_engine_error (ty : TransactionType)
    (balance amount : num) (e : Thrown) :
  update_balance ty balance amount = inl e → engine_error e.
Proof.
  unfold update_balance.
  destruct ty; simpl; try destruct (num_ltb balance amount);
    intros [= <-]; unfold engine_error;
    eexists _, _; (split; [reflexivity|]);
    unfold engine_kinds; rewrite !elem_of_cons; tauto.
Qed.

(** ** The listing *)

(** What a listing returns when no window is asked for, and when one is. *)
Lemma getListTransactionRepo_unpaginated (dbms : Database)
    (filters : Filters) (db : Db) :
  answers dbms → paginated filters = false →
  getListTransactionRepo dbms filters db =
  inr (mkListResult (ordered dbms filters db) (length (filtered filters db))).
Proof.
  intros [Hcount Hfind] Hpage.
  unfold getListTransactionRepo, TransactionModel_count,
    TransactionModel_findAll.
  by rewrite Hcount, Hfind, Hpage.
Qed.

Lemma getListTransactionRepo_paginated (dbms : Database)
    (filters : Filters) (db : Db) (p l : num) :
  answers dbms →
  page filters = Some p → limit filters = Some l →
  paginated filters = true →
  getListTransactionRepo dbms filters db =
  match window dbms (num_mul (num_sub p 1%float) l) l
               (ordered dbms filters db) with
  | inr rows => inr (mkListResult rows (length (filtered filters db)))
  | inl error => inl (rewrap error)
  end.
Proof.
  intros [Hcount Hfind] Hp Hl Hpage.
  unfold getListTransactionRepo, TransactionModel_count,
    TransactionModel_findAll.
  by rewrite Hcount, Hfind, Hpage, Hp, Hl.
Qed.

(** A listing that is returned: both queries went through. *)
Lemma returned_answers (dbms : Database) (filters : Filters) (db : Db)
    (res : ListResult) :
  getListTransactionRepo dbms filters db = inr res → answers dbms.
Proof.
  unfold getListTransactionRepo, TransactionModel_count,
    TransactionModel_findAll, answers.
  destruct (count_throws dbms); [done|].
  by destruct (findAll_throws dbms).
Qed.

(** The test of lines 187-192 comes down to both numbers being above 0. *)
Lemma paginated_spec (filters : Filters) :
  paginated filters = true ↔
  ∃ p l, page filters = Some p ∧ limit filters = Some l ∧
         num_ltb 0%float p = true ∧ num_ltb 0%float l = true.
Proof.
  unfold paginated. split.
  - destruct (page filters) as [p|], (limit filters) as [l|];
      cbn [truthy_number holds];
      rewrite ?andb_false_r, ?andb_false_l; try done.
    intros H. apply andb_prop in H as [H Hl]. apply andb_prop in H as [_ Hp].
    by exists p, l.
  - intros (p & l & -> & -> & Hp & Hl). cbn [holds].
    by rewrite !positive_truthy, Hp, Hl.
Qed.

(** A window of whole numbers. *)
Lemma window_whole (dbms : Database) (offset limit : num) (o l : Z)
    (rows : list TransactionAttributes) :
  whole offset = Some o → whole limit = Some l → 0 ≤ o → 0 ≤ l →
  window dbms offset limit rows =
  inr (take (Z.to_nat l) (drop (Z.to_nat o) rows)).
Proof.
  intros Hwo Hwl Ho Hl. unfold window. rewrite Hwo, Hwl.
  by rewrite (proj2 (Z.leb_le 0 o) Ho), (proj2 (Z.leb_le 0 l) Hl).
Qed.

(** ** The filter *)

Lemma elem_of_ordered_filtered (dbms : Database) (filters : Filters) (db : Db)
    (row : TransactionAttributes) :
  row ∈ ordered dbms filters db ↔
  row ∈ transactions db ∧ satisfies (build_where filters) row = true.
Proof.
  unfold ordered, filtered. rewrite order_permutes.
  by rewrite list_elem_of_In, List.filter_In, <- list_elem_of_In.
Qed.

(** The [where] object lets through exactly the rows that pass the
    filters. *)
Lemma truthy_status_spec (st : TransactionStatus) :
  truthy_status (Some st) = true ↔ st ≠ OTHER_STATUS "".
Proof.
  destruct st as [| | | label]; simpl; try done.
  destruct (decide (label = "")) as [-> | Hne]; [done|].
  split; [intros _ [=]; done | done].
Qed.

Lemma truthy_type_spec (ty : TransactionType) :
  truthy_type (Some ty) = true ↔ ty ≠ OTHER_TYPE "".
Proof.
  destruct ty as [| | | label]; simpl; try done.
  destruct (decide (label = "")) as [-> | Hne]; [done|].
  split; [intros _ [=]; done | done].
Qed.

Lemma truthy_number_spec (n : num) :
  truthy_number (Some n) = true ↔ is_zero n = false ∧ is_nan n = false.
Proof. simpl. rewrite negb_true_iff. apply orb_false_iff. Qed.

Lemma holds_when {A : Type} (o : option A) (truthy : bool) (test : A → bool)
    (C P : A → Prop) :
  (∀ a, o = Some a → (truthy = true ↔ C a)) →
  (∀ a, test a = true ↔ P a) →
  holds (if truthy then o else None) test = true ↔ when o (λ a, C a → P a).
Proof.
  intros Htruthy Htest. destruct o as [a|]; simpl.
  - specialize (Htruthy a eq_refl). destruct truthy; simpl.
    + rewrite Htest. split; [done | intros H; by apply H, Htruthy].
    + split; [|done]. intros _ Hc. apply Htruthy in Hc. done.
  - by destruct truthy.
Qed.

Lemma holds_when_set {A : Type} (o : option A) (test : A → bool)
    (P : A → Prop) :
  (∀ a, test a = true ↔ P a) →
  holds o test = true ↔ when o P.
Proof. intros Htest. destruct o as [a|]; simpl; [apply Htest | done]. Qed.

Lemma satisfies_passes (filters : Filters) (row : TransactionAttributes) :
  satisfies (build_where filters) row = true ↔ passes filters row.
Proof.
  unfold satisfies, build_where, passes; cbn [where_isDeleted where_walletId
    where_status where_type where_createdAt_gte where_createdAt_lte].
  rewrite !andb_true_iff, bool_decide_eq_true.
  rewrite (holds_when (filter_walletId filters) _ _
             (λ wid, is_zero wid = false ∧ is_nan wid = false)
             (λ wid, whole wid = Some (tx_walletId row))).
  2: { intros wid ->. apply truthy_number_spec. }
  2: { intros wid. apply bool_decide_eq_true. }
  rewrite (holds_when (filter_status filters) _ _
             (λ st, st ≠ OTHER_STATUS "") (λ st, tx_status row = st)).
  2: { intros st ->. apply truthy_status_spec. }
  2: { intros st. apply bool_decide_eq_true. }
  rewrite (holds_when (filter_type filters) _ _
             (λ ty, ty ≠ OTHER_TYPE "") (λ ty, tx_type row = ty)).
  2: { intros ty ->. apply truthy_type_spec. }
  2: { intros ty. apply bool_decide_eq_true. }
  rewrite (holds_when_set (start_date filters) _ (λ d, d ≤ tx_createdAt row))
    by (intros d; apply Z.leb_le).
  rewrite (holds_when_set (end_date filters) _ (λ d, tx_createdAt row ≤ d))
    by (intros d; apply Z.leb_le).
  assert (Hwallet :
    when (filter_walletId filters)
         (λ wid, is_zero wid = false ∧ is_nan wid = false →
                 whole wid = Some (tx_walletId row)) ↔
    when (filter_walletId filters)
         (λ wid, is_zero wid = false → is_nan wid = false →
                 whole wid = Some (tx_walletId row))).
  { destruct (filter_walletId filters); simpl; [|done]. tauto. }
  rewrite Hwallet. tauto.
Qed.

Lemma filter_reflects {A : Type} (f : A → bool) (P : A → Prop)
    `{!∀ x, Decision (P x)} (l : list A) :
  (∀ x, f x = true ↔ P x) → List.filter f l = filter P l.
Proof.
  intros Hf. induction l as [| x l IH]; [done|].
  simpl. rewrite filter_cons, IH.
  destruct (f x) eqn:Hx, (decide (P x)) as [Hp | Hp]; try done.
  - by apply Hf in Hx.
  - apply Hf in Hp. congruence.
Qed.

(** The rows counted and listed are the full filtered set. *)
Lemma filtered_matching (filters : Filters) (db : Db) :
  filtered filters db = matching filters db.
Proof. apply filter_reflects. intros row. apply satisfies_passes. Qed.

Lemma elem_of_ordered (dbms : Database) (filters : Filters) (db : Db)
    (row : TransactionAttributes) :
  row ∈ ordered dbms filters db ↔ row ∈ transactions db ∧ passes filters row.
Proof. by rewrite elem_of_ordered_filtered, satisfies_passes. Qed.

(** Every listing returns rows of the filtered set, in the order the
    database arranged them, and counts the whole set. *)
Lemma getListTransactionRepo_result (dbms : Database) (filters : Filters)
    (db : Db) (res : ListResult) :
  getListTransactionRepo dbms filters db = inr res →
  total res = length (filtered filters db) ∧
  (paginated filters = false →
   result_transactions res = ordered dbms filters db) ∧
  (∀ p l o n,
      page filters = Some p → limit filters = Some l →
      paginated filters = true →
      whole (num_mul (num_sub p 1%float) l) = Some o → whole l = Some n →
      0 ≤ o → 0 ≤ n →
      result_transactions res =
      take (Z.to_nat n) (drop (Z.to_nat o) (ordered dbms filters db))).
Proof.
  intros Hres. pose proof (returned_answers _ _ _ _ Hres) as Hdbms.
  split; [|split].
  - unfold getListTransactionRepo, TransactionModel_count in Hres.
    destruct Hdbms as [Hcount _]. rewrite Hcount in Hres.
    destruct (TransactionModel_findAll _ _ _); [done|].
    by injection Hres as <-.
  - intros Hpage. rewrite getListTransactionRepo_unpaginated in Hres by done.
    by injection Hres as <-.
  - intros p l o n Hp Hl Hpage Ho Hn Hpos Hposn.
    rewrite (getListTransactionRepo_paginated _ _ _ p l) in Hres by done.
    rewrite (window_whole _ _ _ o n) in Hres by done.
    by injection Hres as <-.
Qed.

(** A window gives some of the rows, in their order. *)
Lemma window_sublist (dbms : Database) (offset limit : num)
    (rows out : list TransactionAttributes) :
  window dbms offset limit rows = inr out → out `sublist_of` rows.
Proof.
  unfold window. intros H.
  assert (Hodd : odd_window dbms offset limit rows = inr out →
                 out `sublist_of` rows) by apply odd_window_selects.
  destruct (whole offset) as [o|], (whole limit) as [l|]; try by apply Hodd.
  destruct ((0 <=? o) && (0 <=? l)); [|by apply Hodd].
  injection H as <-.
  etrans; [apply sublist_take | apply sublist_drop].
Qed.

Lemma result_sublist (dbms : Database) (filters : Filters) (db : Db)
    (res : ListResult) :
  getListTransactionRepo dbms filters db = inr res →
  result_transactions res `sublist_of` ordered dbms filters db.
Proof.
  intros H. destruct (returned_answers _ _ _ _ H) as [Hcount Hfind].
  unfold getListTransactionRepo, TransactionModel_count,
    TransactionModel_findAll in H.
  rewrite Hcount, Hfind in H.
  destruct (paginated filters); cbn [query_offset query_limit query_where] in H.
  - destruct (limit filters) as [l|] eqn:Hl.
    + fold (filtered filters db) in H. fold (ordered dbms filters db) in H.
      destruct (window _ _ _ _) as [e | rows] eqn:Hw; [done|].
      injection H as <-. by eapply window_sublist.
    + by injection H as <-.
  - by injection H as <-.
Qed.

Lemma elem_of_result (dbms : Database) (filters : Filters) (db : Db)
    (res : ListResult) (row : TransactionAttributes) :
  getListTransactionRepo dbms filters db = inr res →
  row ∈ result_transactions res →
  row ∈ transactions db ∧ passes filters row.
Proof.
  intros Hres Hin. apply elem_of_ordered with dbms.
  eapply elem_of_sublist; [exact Hin|]. by apply result_sublist.
Qed.


(** A number above zero that is whole is a whole number from 0 on. *)
Lemma whole_positive (x : num) (n : Z) :
  num_ltb 0%float x = true → whole x = Some n → 0 ≤ n.
Proof.
  unfold num_ltb, whole. rewrite FloatAxioms.ltb_spec.
  change (Prim2SF 0) with (S754_zero false).
  destruct (Prim2SF x) as [[]|[]| |[] m e]; try done.
  intros _. destruct (0 <=? e) eqn:He.
  - intros [= <-]. simpl. apply Z.leb_le in He.
    pose proof (Z.pow_nonneg 2 e). lia.
  - destruct (_ =? 0); [|done]. intros [= <-]. simpl.
    apply Z.div_pos; [lia|]. apply Z.pow_pos_nonneg; lia.
Qed.

(** Rows created at pairwise distinct times have one order newest first. *)
Lemma newest_first_unique (l1 l2 : list TransactionAttributes) :
  NoDup (tx_createdAt <$> l1) →
  l1 ≡ₚ l2 →
  StronglySorted newer_or_same l1 → StronglySorted newer_or_same l2 →
  l1 = l2.
Proof.
  revert l2. induction l1 as [| x l1 IH]; intros l2 Hnodup Hperm Hs1 Hs2.
  - by apply Permutation_nil in Hperm.
  - destruct l2 as [| y l2]; [by apply Permutation_nil_r in Hperm|].
    rewrite fmap_cons in Hnodup. apply NoDup_cons in Hnodup as [Hx Hnodup].
    apply StronglySorted_inv in Hs1 as [Hs1 Hall1].
    apply StronglySorted_inv in Hs2 as [Hs2 Hall2].
    assert (Hxy : x = y).
    { assert (Hy : y ∈ x :: l1) by (rewrite Hperm; apply list_elem_of_here).
      assert (Hx' : x ∈ y :: l2) by (rewrite <- Hperm; apply list_elem_of_here).
      apply elem_of_cons in Hy as [-> | Hy]; [done|].
      apply elem_of_cons in Hx' as [-> | Hx']; [done|].
      rewrite Forall_forall in Hall1, Hall2.
      pose proof (Hall1 _ Hy) as H1. pose proof (Hall2 _ Hx') as H2.
      unfold newer_or_same in H1, H2.
      exfalso. apply Hx. apply list_elem_of_fmap. exists y. split; [lia | done]. }
    subst y. f_equal. apply IH; try done.
    by apply Permutation_cons_inv in Hperm.
Qed.

(** Consecutive windows of [n] rows, put end to end, are the rows from the
    first window's start on. *)
Lemma windows_tile {A : Type} (rows : list A) (n k j : nat) :
  mjoin ((λ i, take n (drop (i * n) rows)) <$> seq j k) =
  take (k * n) (drop (j * n) rows).
Proof.
  revert j. induction k as [| k IH]; intros j; [done|].
  cbn [seq fmap list_fmap mjoin list_join]. rewrite IH.
  replace (S j * n)%nat with (j * n + n)%nat by lia.
  by rewrite <- drop_drop, take_take_drop.
Qed.

(** ** Interleaved calls *)

(** A call scheduled alone, often enough, ends as [exec] says. *)
Lemma run_schedule_alone {E A : Type} (p : Prog E A) (w : World) :
  ∃ n, run_schedule (replicate n 0%nat) [p] w =
       ([lift (exec p w).2], (exec p w).1).
Proof.
  revert w. induction p as [a | e | X call k IH]; intros w.
  - by exists 0%nat.
  - by exists 0%nat.
  - simpl exec. destruct (call w) as [w1 x] eqn:Hcall.
    destruct (IH x w1) as [n Hn]. exists (S n). simpl. by rewrite Hcall.
Qed.

(** * The claims *)

(** C1 (amended).  A call that owns its unit-of-work is all-or-nothing on the
    committed rows: on any error they are untouched, on success they gain
    exactly the new Transaction row and one wallet balance write.  A call
    given the caller's unit-of-work never touches the committed rows; on
    success it adds exactly the row and one balance write to that
    unit-of-work, and on error it adds nothing or only the tentative row,
    never a balance write.  No other unit-of-work is touched. *)
Theorem createTransactionRepo_atomic (fl : Faults) (data : TransactionData)
    (_transaction : option handle) (w : World) :
  let '(w', r) := exec (createTransactionRepo fl data _transaction) w in
  match _transaction with
  | None =>
      match r with
      | inl _ => committed w' = committed w
      | inr row =>
          row = new_row data w ∧
          ∃ b, committed w' =
               apply_writes [InsertTransaction row; SaveWallet (walletId data) b]
                            (committed w)
      end ∧
      ∀ h', h' ≠ next_handle w → pending w' !! h' = pending w !! h'
  | Some h =>
      committed w' = committed w ∧
      match r with
      | inl _ =>
          writes_of w' h = writes_of w h ∨
          writes_of w' h = writes_of w h ++ [InsertTransaction (new_row data w)]
      | inr row =>
          row = new_row data w ∧
          ∃ b, writes_of w' h =
               writes_of w h ++ [InsertTransaction row; SaveWallet (walletId data) b]
      end ∧
      ∀ h', h' ≠ h → pending w' !! h' = pending w !! h'
  end.
Proof.
  destruct (exec (createTransactionRepo fl data _transaction) w) as [w' r] eqn:E.
  by apply createTransactionRepo_effect in E.
Qed.

Lemma createTransactionRepo_atomic_witness :
  let '(w', r) :=
    exec (createTransactionRepo no_faults pay_30_ref1 None) world_100 in
  match r with
  | inl _ => committed w' = committed world_100
  | inr row =>
      row = new_row pay_30_ref1 world_100 ∧
      ∃ b, committed w' =
           apply_writes [InsertTransaction row; SaveWallet 1 b]
                        (committed world_100)
  end ∧
  ∀ h', h' ≠ next_handle world_100 →
        pending w' !! h' = pending world_100 !! h'.
Proof. exact (createTransactionRepo_atomic no_faults pay_30_ref1 None world_100). Defined.

(** C1 fails as stated: with the caller's unit-of-work, a debit that exceeds
    the balance fails with InsufficientFundsError and leaves the tentative
    row in that unit-of-work, where it is seen and from where the caller's
    commit persists it. *)
Lemma atomic_counterexample :
  let '(w', r) :=
    exec (createTransactionRepo no_faults pay_200 (Some 5%nat))
         world_with_caller in
  r = inl (mkErrorType "InsufficientFundsError" "Insufficient wallet balance"
                       None) ∧
  transactions (view world_with_caller (Some 5%nat)) = [] ∧
  transactions (view w' (Some 5%nat)) = [new_row pay_200 world_with_caller] ∧
  transactions (committed (commit 5%nat w')) =
    [new_row pay_200 world_with_caller].
Proof. vm_compute. done. Qed.

(** C2 (amended).  Wallet balance never goes negative.  Whatever sequence
    of operations runs (calls in either mode, with or without storage
    faults, and the callers' own begin, commit and rollback), a wallet whose
    balance is not below zero keeps a balance that is not below zero in the
    committed rows; and when no call is given an infinite amount, a wallet
    whose balance is a number [>= 0] keeps a balance that is a number
    [>= 0].  A PAY_SERVICE call whose amount exceeds the balance it reads fails
    and leaves the balance unchanged, both in what its unit-of-work sees and
    in the committed rows; the failure is InsufficientFundsError when that
    balance is not below zero, no storage call throws and no duplicate is
    found first. *)
Theorem balance_never_negative :
  (∀ (wid : Z) (ops : list Op) (w : World),
      wallet_ok nonneg wid w → wallet_ok nonneg wid (run_ops ops w)) ∧
  (∀ (wid : Z) (ops : list Op) (w : World),
      Forall finite_amount ops →
      wallet_ok at_least_zero wid w →
      wallet_ok at_least_zero wid (run_ops ops w)) ∧
  (∀ (fl : Faults) (data : TransactionData) (tx : option handle) (w : World)
     (b : num),
      type data = PAY_SERVICE →
      wallets (view w tx) !! walletId data = Some b →
      num_ltb b (amount data) = true →
      let '(w', r) := exec (createTransactionRepo fl data tx) w in
      (∃ e, r = inl e) ∧
      wallets (view w' tx) = wallets (view w tx) ∧
      wallets (committed w') = wallets (committed w) ∧
      (fl = no_faults →
       nonneg b →
       (truthy_string (referenceId data) = true →
        List.find (same_reference (referenceId data) (type data))
                  (transactions (view w tx)) = None) →
       r = inl (mkErrorType "InsufficientFundsError"
                            "Insufficient wallet balance" None))).
Proof.
  split; [|split].
  { intros wid ops w. apply wallet_ok_run_ops.
    apply Forall_forall. intros op _. apply keeps_nonneg. }
  { intros wid ops w Hops. apply wallet_ok_run_ops.
    eapply Forall_impl; [exact Hops|]. apply keeps_at_least_zero. }
  intros fl data tx w b Hty Hwallet Hlt.
  destruct (exec (createTransactionRepo fl data tx) w) as [w' r] eqn:E.
  assert (Hfails : ∃ e, r = inl e ∧ wallets (view w' tx) = wallets (view w tx)).
  { destruct (createTransactionRepo_view _ _ _ _ _ _ E)
      as [[Hview [e ->]] | [(bal & e & -> & _ & _ & _ & _ & Hview)
                           | (bal & nb & _ & [_ Hbal] & _ & _ & Hnb & _)]].
    - exists e. by rewrite Hview.
    - exists e. by rewrite Hview.
    - rewrite Hwallet in Hbal. injection Hbal as <-.
      apply update_balance_inr in Hnb
        as [(_ & Hle & _) | ([Hd | Hd] & _)]; [| congruence ..].
      rewrite num_ltb_parseFloat in Hle. congruence. }
  destruct Hfails as (e & -> & Hview).
  repeat split; [by exists e | done | |].
  - apply createTransactionRepo_effect in E.
    destruct tx as [h|]; [by destruct E as [-> _] | by destruct E as [-> _]].
  - intros -> Hnn Hnodup. by eapply insufficient_funds_error.
Qed.

(** A balance of 100 through two debits of 30 and a refused debit of 200:
    40 is left. *)
Lemma balance_never_negative_witness :
  wallet_ok nonneg 1 (run_ops debits_and_a_refusal world_100) ∧
  wallet_ok at_least_zero 1 (run_ops debits_and_a_refusal world_100) ∧
  wallets (committed (run_ops debits_and_a_refusal world_100)) !! 1 =
    Some 40%float ∧
  let '(w', r) := exec (createTransactionRepo no_faults pay_200 None) world_100 in
  (∃ e, r = inl e) ∧
  wallets (view w' None) = wallets (view world_100 None) ∧
  wallets (committed w') = wallets (committed world_100) ∧
  (no_faults = no_faults →
   nonneg 100%float →
   (truthy_string (referenceId pay_200) = true →
    List.find (same_reference (referenceId pay_200) (type pay_200))
              (transactions (view world_100 None)) = None) →
   r = inl (mkErrorType "InsufficientFundsError"
                        "Insufficient wallet balance" None)).
Proof.
  split; [|split; [|split; [reflexivity|]]].
  - apply (proj1 balance_never_negative). split.
    + exists 100%float. split; reflexivity.
    + apply map_Forall_empty.
  - apply (proj1 (proj2 balance_never_negative)).
    + repeat constructor.
    + split.
      * exists 100%float. split; reflexivity.
      * apply map_Forall_empty.
  - apply (proj2 (proj2 balance_never_negative) no_faults pay_200 None
             world_100 100%float); reflexivity.
Defined.

(** C2 fails as stated: a debit of 200 from a balance of 70, under a
    referenceId that a row of the same type already carries, fails with
    DuplicateTransactionError, not with InsufficientFunds: the duplicate
    check (lines 33-49) comes before the comparison on line 90. *)
Lemma balance_counterexample :
  wallets (committed world_after_ref1) !! 1 = Some 70%float ∧
  num_ltb 70%float (amount pay_200_ref1) = true ∧
  (exec (createTransactionRepo no_faults pay_200_ref1 None)
        world_after_ref1).2 =
    inl (mkErrorType "DuplicateTransactionError"
                     "Transaction already exists for reference ref1" None).
Proof. by vm_compute. Qed.

(** The second half of the invariant needs its proviso.  An infinite
    balance debited by an infinite amount: the call succeeds and leaves
    [NaN], which is not below zero and is not [>= 0] either. *)
Lemma infinite_balance_debited :
  let '(w', r) :=
    exec (createTransactionRepo no_faults pay_infinity None) world_infinity in
  r = inr (new_row pay_infinity world_infinity) ∧
  isNaN <$> wallets (committed w') !! 1 = Some true.
Proof. by vm_compute. Qed.




(** Rows inserted in two open units-of-work are not checked against each
    other: two callers that each open a unit-of-work, record a debit under
    the same referenceId in it and commit leave two committed rows with that
    referenceId and type. *)
Lemma two_units_of_work_duplicate :
  let w := run_ops [OpBegin; OpBegin;
                    OpRecord no_faults pay_30_ref1 (Some 0%nat);
                    OpRecord no_faults pay_30_ref1 (Some 1%nat);
                    OpCommit 0%nat; OpCommit 1%nat] world_100 in
  map tx_id (List.filter (same_reference (Some "ref1") PAY_SERVICE)
                         (transactions (committed w))) = [1; 2].
Proof. by vm_compute. Qed.

(** C4 (amended).  Every successful call read a wallet balance [b] that is
    a number and got an amount [a] that is a number and not negative; with
    type DEPOSIT or REFUND_SERVICE the balance its unit-of-work sees
    afterwards is the sum of the two as doubles, with type PAY_SERVICE it is
    their difference as doubles and [b < a] did not hold.  Every other type
    fails, leaves the committed rows and every wallet balance unchanged, and
    the failure is InvalidTypeError when no storage call throws, the wallet
    exists with a balance that is a number, the amount is a number that is
    not negative and no duplicate is found.  (What becomes of the tentative
    row is C1's matter.) *)
Theorem type_direction :
  (∀ (fl : Faults) (data : TransactionData) (tx : option handle) (w : World),
      let '(w', r) := exec (createTransactionRepo fl data tx) w in
      ∀ row, r = inr row →
        ∃ b,
          wallets (view w tx) !! walletId data = Some b ∧
          isNaN b = false ∧ isNaN (amount data) = false ∧
          num_ltb (amount data) 0%float = false ∧
          ((type data = PAY_SERVICE ∧ num_ltb b (amount data) = false ∧
            wallets (view w' tx) !! walletId data =
              Some (num_sub (parseFloat b) (parseFloat (amount data)))) ∨
           ((type data = DEPOSIT ∨ type data = REFUND_SERVICE) ∧
            wallets (view w' tx) !! walletId data =
              Some (num_add (parseFloat b) (parseFloat (amount data)))))) ∧
  (∀ (fl : Faults) (data : TransactionData) (tx : option handle) (w : World),
      unknown_type (type data) →
      let '(w', r) := exec (createTransactionRepo fl data tx) w in
      (∃ e, r = inl e) ∧
      committed w' = committed w ∧
      wallets (view w' tx) = wallets (view w tx) ∧
      (∀ b,
          fl = no_faults →
          wallets (view w tx) !! walletId data = Some b →
          isNaN b = false → isNaN (amount data) = false →
          num_ltb (amount data) 0%float = false →
          (truthy_string (referenceId data) = true →
           List.find (same_reference (referenceId data) (type data))
                     (transactions (view w tx)) = None) →
          r = inl (mkErrorType "InvalidTypeError"
                     "Transaction type must be PAY_SERVICE or DEPOSIT" None))).
Proof.
  split.
  - intros fl data tx w.
    destruct (exec (createTransactionRepo fl data tx) w) as [w' r] eqn:E.
    intros row ->.
    destruct (createTransactionRepo_view _ _ _ _ _ _ E)
      as [[_ [e ?]] | [(bal & e & ? & _)
                      | (bal & nb & _ & [_ Hbal] & _ & Hvalid & Hnb & Hview)]];
      [done | done |].
    apply valid_numbers_spec in Hvalid as (Hb & Ha & Hpos).
    exists bal. do 4 (split; [done|]).
    rewrite Hview. simpl. rewrite lookup_alter_eq, Hbal. simpl.
    apply update_balance_inr in Hnb as [(? & Hle & ->) | (? & ->)].
    + left. by rewrite num_ltb_parseFloat in Hle.
    + by right.
  - intros fl data tx w Hty.
    destruct (exec (createTransactionRepo fl data tx) w) as [w' r] eqn:E.
    assert (Hfails : ∃ e, r = inl e ∧ wallets (view w' tx) = wallets (view w tx)).
    { destruct (createTransactionRepo_view _ _ _ _ _ _ E)
        as [[Hview [e ->]] | [(bal & e & -> & _ & _ & _ & _ & Hview)
                             | (bal & nb & _ & _ & _ & _ & Hnb & _)]].
      - exists e. by rewrite Hview.
      - exists e. by rewrite Hview.
      - unfold new_balance in Hnb. by rewrite update_balance_unknown in Hnb. }
    destruct Hfails as (e & -> & Hview).
    repeat split; [by exists e | | done |].
    + apply createTransactionRepo_effect in E.
      destruct tx as [h|]; [by destruct E as [-> _] | by destruct E as [-> _]].
    + intros b -> Hwallet Hb Ha Hpos Hnodup.
      by eapply invalid_type_error.
Qed.

(** A deposit of 20 into a balance of 100 leaves 120, a payment of 30 out
    of it leaves 70, and a WITHDRAW of 10 is refused with InvalidTypeError. *)
Lemma type_direction_witness :
  wallets (committed
             (exec (createTransactionRepo no_faults deposit_20 None)
                   world_100).1) !! 1 = Some 120%float ∧
  wallets (committed
             (exec (createTransactionRepo no_faults pay_30 None)
                   world_100).1) !! 1 = Some 70%float ∧
  (exec (createTransactionRepo no_faults withdraw_10 None) world_100).2 =
    inl (mkErrorType "InvalidTypeError"
           "Transaction type must be PAY_SERVICE or DEPOSIT" None).
Proof.
  split; [|split].
  - pose proof (proj1 type_direction no_faults deposit_20 None world_100) as H.
    destruct (exec (createTransactionRepo no_faults deposit_20 None) world_100)
      as [w' r] eqn:E.
    assert (Hr : r = inr (new_row deposit_20 world_100))
      by (vm_compute in E; by injection E as _ <-).
    destruct (H _ Hr) as (b & Hb & _ & _ & _ & [(Hty & _) | (_ & Hnew)]);
      [discriminate|].
    injection Hb as <-. exact Hnew.
  - pose proof (proj1 type_direction no_faults pay_30 None world_100) as H.
    destruct (exec (createTransactionRepo no_faults pay_30 None) world_100)
      as [w' r] eqn:E.
    assert (Hr : r = inr (new_row pay_30 world_100))
      by (vm_compute in E; by injection E as _ <-).
    destruct (H _ Hr) as (b & Hb & _ & _ & _ & [(_ & _ & Hnew) | ([Hty | Hty] & _)]);
      [|discriminate ..].
    injection Hb as <-. exact Hnew.
  - pose proof (proj2 type_direction no_faults withdraw_10 None world_100) as H.
    destruct (exec (createTransactionRepo no_faults withdraw_10 None) world_100)
      as [w' r] eqn:E.
    destruct H as (_ & _ & _ & H); [repeat split; discriminate|].
    by apply (H 100%float).
Defined.

(** C4 fails as stated, twice.  With the caller's unit-of-work, a type
    outside the three fails with InvalidTypeError after the row was created,
    and the row stays in that unit-of-work: something was mutated.  And the
    new balance is a double: a deposit of 1 into a balance of 2^53 succeeds
    and leaves 2^53, not 2^53 + 1. *)
Lemma type_direction_counterexample :
  (let '(w', r) :=
     exec (createTransactionRepo no_faults withdraw_10 (Some 5%nat))
          world_with_caller in
   r = inl (mkErrorType "InvalidTypeError"
              "Transaction type must be PAY_SERVICE or DEPOSIT" None) ∧
   writes_of world_with_caller 5%nat = [] ∧
   writes_of w' 5%nat =
     [InsertTransaction (new_row withdraw_10 world_with_caller)] ∧
   transactions (committed (commit 5%nat w')) =
     [new_row withdraw_10 world_with_caller]) ∧
  (let '(w', r) :=
     exec (createTransactionRepo no_faults deposit_1 None) world_2_53 in
   r = inr (new_row deposit_1 world_2_53) ∧
   whole <$> wallets (committed world_2_53) !! 1 = Some (Some (2 ^ 53)) ∧
   whole <$> wallets (committed w') !! 1 = Some (Some (2 ^ 53))).
Proof. split; by vm_compute. Qed.

(** C5.  Unit-of-work ownership, read off the storage calls a call adds to
    the trace.  Given the caller's unit-of-work, the call never begins,
    commits or rolls back anything, on success or on error, and the
    caller's unit-of-work stays open.  Opening its own, the call commits it
    exactly when it succeeds (then without any rollback), and on every error
    raised after opening it, the last thing it does is the rollback of that
    unit-of-work (successful unless the rollback itself throws), also when
    the error came from the commit. *)
Theorem unit_of_work_ownership (fl : Faults) (data : TransactionData)
    (_transaction : option handle) (w : World) :
  let '(w', r) := exec (createTransactionRepo fl data _transaction) w in
  ∃ evs, trace w' = trace w ++ evs ∧
    match _transaction with
    | Some h =>
        lifecycle evs = [] ∧
        (is_Some (pending w !! h) → is_Some (pending w' !! h))
    | None =>
        let h := next_handle w in
        match r with
        | inr _ => lifecycle evs = [EvBegin h; EvCommit h true]
        | inl _ =>
            lifecycle evs = [] ∨
            ∃ ok, (f_rollback fl = None → ok = true) ∧
                  (lifecycle evs = [EvBegin h; EvRollback h ok] ∨
                   lifecycle evs = [EvBegin h; EvCommit h false;
                                    EvRollback h ok])
        end
    end.
Proof.
  destruct (exec (createTransactionRepo fl data _transaction) w) as [w' r] eqn:E.
  paths E.
  all: destruct _transaction as [h|]; world_simpl; try done.
  all: repeat case_match; world_simpl.
  all: trace_split.
  all: try destruct (truthy_string (referenceId data)); cbn [app].
  all: cbn.
  all: try done.
  all: first
         [ by left
         | right; exists true; split; [done | first [by left | by right]]
         | right; exists false; split; [done | first [by left | by right]] ].
Qed.

Lemma unit_of_work_ownership_witness :
  let '(w', r) :=
    exec (createTransactionRepo no_faults pay_200 (Some 5%nat))
         world_with_caller in
  ∃ evs, trace w' = trace world_with_caller ++ evs ∧
         lifecycle evs = [] ∧
         (is_Some (pending world_with_caller !! 5%nat) →
          is_Some (pending w' !! 5%nat)).
Proof.
  exact (unit_of_work_ownership no_faults pay_200 (Some 5%nat) world_with_caller).
Defined.

(** C7 (amended).  Every call with a negative amount fails and writes
    nothing, whatever the type and the mode; the failure is
    InvalidAmountError when the call gets as far as the check on line 59:
    the wallet exists with a balance that is a number, no duplicate is
    found, the reads do not throw.  And whenever the storage layer throws
    nothing of that name, a call whose amount is not negative (0 included)
    does not fail with InvalidAmountError. *)
Theorem negative_amount_rejected :
  (∀ (fl : Faults) (data : TransactionData) (tx : option handle) (w : World),
      num_ltb (amount data) 0%float = true →
      let '(w', r) := exec (createTransactionRepo fl data tx) w in
      (∃ e, r = inl e) ∧
      committed w' = committed w ∧ pending w' = pending w ∧
      (∀ b,
          f_findByPk fl = None →
          wallets (view w tx) !! walletId data = Some b →
          isNaN b = false →
          (truthy_string (referenceId data) = true →
           f_findOne fl = None ∧
           List.find (same_reference (referenceId data) (type data))
                     (transactions (view w tx)) = None) →
          r = inl (mkErrorType "InvalidAmountError" "Amount cannot be negative"
                               None))) ∧
  (∀ (fl : Faults) (data : TransactionData) (tx : option handle) (w : World),
      num_ltb (amount data) 0%float = false →
      (∀ t, thrown_by fl t → th_name t ≠ Some "InvalidAmountError") →
      let '(w', r) := exec (createTransactionRepo fl data tx) w in
      ∀ e, r = inl e → name e ≠ "InvalidAmountError").
Proof.
  split.
  - intros fl data tx w Hneg.
    destruct (negative_parseFloat _ Hneg) as [Hparse Hnan].
    destruct (exec (createTransactionRepo fl data tx) w) as [w' r] eqn:E.
    paths E.
    all: try (destruct Pvalid as [_ Pneg];
              rewrite num_ltb_parseFloat_zero in Pneg; congruence).
    all: world_simpl.
    all: repeat split; eauto.
    all: intros b Hlookup Hwallet Hb Hcheck; try congruence.
    all: try (destruct Pfound as [_ Pwallet]); simplify_eq.
    all: try (destruct (Hcheck Ptruthy); congruence).
    rewrite !isNaN_parseFloat, Hb, Hnan in Pnan. done.
  - intros fl data tx w Hpos Hfaults.
    destruct (exec (createTransactionRepo fl data tx) w) as [w' r] eqn:E.
    intros e0 ->.
    paths E.
    all: try (apply name_rethrow_ne; [apply Hfaults; thrown_by_fault | done]).
    all: try done.
    all: try (rewrite num_ltb_parseFloat_zero in Pneg; congruence).
    all: unfold settle; destruct tx as [h|];
      [|destruct (f_rollback fl) as [t'|] eqn:Hrollback]; cbn [snd].
    all: try (apply name_rethrow_ne; [apply Hfaults; thrown_by_fault | done]).
    all: unfold new_balance in Pbalance;
      by apply update_balance_inl in Pbalance
        as [(_ & _ & ->) | (_ & _ & _ & ->)].
Qed.

(** A deposit of -5 is refused with InvalidAmountError; a debit of 200
    from a balance of 100 is refused, under another name. *)
Lemma negative_amount_rejected_witness :
  (let '(w', r) :=
     exec (createTransactionRepo no_faults deposit_minus_5 None) world_100 in
   (∃ e, r = inl e) ∧
   committed w' = committed world_100 ∧ pending w' = pending world_100 ∧
   (∀ b,
       f_findByPk no_faults = None →
       wallets (view world_100 None) !! walletId deposit_minus_5 = Some b →
       isNaN b = false →
       (truthy_string (referenceId deposit_minus_5) = true →
        f_findOne no_faults = None ∧
        List.find (same_reference (referenceId deposit_minus_5)
                                  (type deposit_minus_5))
                  (transactions (view world_100 None)) = None) →
       r = inl (mkErrorType "InvalidAmountError" "Amount cannot be negative"
                            None))) ∧
  (let '(w', r) :=
     exec (createTransactionRepo no_faults pay_200 None) world_100 in
   ∀ e, r = inl e → name e ≠ "InvalidAmountError").
Proof.
  split.
  - apply (proj1 negative_amount_rejected no_faults deposit_minus_5 None
             world_100); reflexivity.
  - apply (proj2 negative_amount_rejected no_faults pay_200 None world_100);
      [reflexivity|].
    intros t Ht. exfalso.
    repeat (apply elem_of_cons in Ht as [Ht | Ht]; [discriminate|]).
    by apply elem_of_nil in Ht.
Defined.

(** C7 fails as stated: a deposit of -5 into a wallet that does not exist
    fails with NotFoundError, not with InvalidAmount: the wallet lookup
    (lines 25-30) comes before the check on line 59. *)
Lemma negative_amount_counterexample :
  num_ltb (amount deposit_minus_5_wallet_9) 0%float = true ∧
  (exec (createTransactionRepo no_faults deposit_minus_5_wallet_9 None)
        world_100).2 =
    inl (mkErrorType "NotFoundError" "Wallet not found" None).
Proof. by vm_compute. Qed.

(** C8 (amended).  What a storage call throws reaches the caller, as an
    ErrorType built from it by the outer catch.  A throw of the wallet
    lookup, of the duplicate lookup or of the opening of the unit-of-work is
    re-raised itself.  A throw inside the inner try (of the create, of the
    save, of the commit, or one of the engine's own InsufficientFundsError
    and InvalidTypeError) is re-raised itself too, except when the
    unit-of-work is the engine's own and its rollback throws: then what the
    rollback threw is re-raised in its place.  The re-raised error has the
    thrown value's own name when it has a non-empty one and
    TransactionCreationError only otherwise; the message is its own when
    non-empty and "Failed to create transaction" otherwise; the code is
    carried over.  A call succeeds only if no storage call it made threw. *)
Theorem unexpected_failure_rethrown :
  (∀ (fl : Faults) (data : TransactionData) (tx : option handle) (w : World),
      let '(w', r) := exec (createTransactionRepo fl data tx) w in
      (∀ t, f_findByPk fl = Some t → r = inl (rethrow t)) ∧
      (∀ balance, found fl data tx w balance →
         (∀ t, truthy_string (referenceId data) = true →
               f_findOne fl = Some t → r = inl (rethrow t)) ∧
         (no_duplicate fl data tx w → valid_numbers data balance →
            (∀ t, tx = None → f_transaction fl = Some t →
                  r = inl (rethrow t)) ∧
            (opened fl tx →
               (∀ t, f_create fl = Some t →
                     r = inl (rethrow (surfaced fl tx t))) ∧
               (f_create fl = None →
                  (∀ e, new_balance data balance = inl e →
                        r = inl (rethrow (surfaced fl tx e))) ∧
                  (∀ newBalance, new_balance data balance = inr newBalance →
                     (∀ t, f_save fl = Some t →
                           r = inl (rethrow (surfaced fl tx t))) ∧
                     (∀ t, f_save fl = None → tx = None →
                           f_commit fl = Some t →
                           r = inl (rethrow (surfaced fl tx t))))))))) ∧
  (∀ t : Thrown,
      code (rethrow t) = th_code t ∧
      (∀ n, th_name t = Some n → n ≠ "" → name (rethrow t) = n) ∧
      (th_name t = None ∨ th_name t = Some "" →
       name (rethrow t) = "TransactionCreationError") ∧
      (∀ m, th_message t = Some m → m ≠ "" → message (rethrow t) = m) ∧
      (th_message t = None ∨ th_message t = Some "" →
       message (rethrow t) = "Failed to create transaction")) ∧
  (∀ (fl : Faults) (data : TransactionData) (tx : option handle) (w : World),
      let '(w', r) := exec (createTransactionRepo fl data tx) w in
      ∀ row, r = inr row →
        f_findByPk fl = None ∧
        (truthy_string (referenceId data) = true → f_findOne fl = None) ∧
        (tx = None → f_transaction fl = None ∧ f_commit fl = None) ∧
        f_create fl = None ∧ f_save fl = None).
Proof.
  split; [|split].
  - intros fl data tx w.
    destruct (exec (createTransactionRepo fl data tx) w) as [w' r] eqn:E.
    paths E.
    all: rewrite ?settle_surfaced.
    all: try destruct Pfound as [Plookup Pwallet].
    all: (split; [intros t Ht; congruence|]).
    all: intros balance [Hlookup Hwallet]; simplify_eq.
    all: (split; [intros t Htruthy Ht; try congruence;
                  try (destruct Pcheck as [? | (_ & ? & _)]; congruence)|]).
    all: intros Hcheck Hvalid.
    all: try (exfalso; destruct Hcheck as [? | (? & ? & ?)]; congruence).
    all: try (exfalso; destruct Hvalid; congruence).
    all: (split; [intros t -> Ht; try congruence;
                  try (destruct Popen as [? | [_ ?]]; simpl in *; congruence)|]).
    all: intros Hopen.
    all: try (exfalso; destruct Hopen as [? | [_ ?]]; congruence).
    all: (split; [intros t Ht; congruence|]).
    all: intros Hcreate; try congruence.
    all: (split; [intros e Hbal; congruence|]).
    all: intros newBalance Hbal.
    all: (split; [intros t Ht; congruence|]).
    all: intros t Hsave Htx Ht; subst; try congruence.
    specialize (Pcommit eq_refl). congruence.
  - intros t. unfold rethrow, or_default; simpl. repeat split.
    + intros n -> Hn. by destruct (decide (n = "")).
    + by intros [-> | ->].
    + intros m -> Hm. by destruct (decide (m = "")).
    + by intros [-> | ->].
  - intros fl data tx w.
    destruct (exec (createTransactionRepo fl data tx) w) as [w' r] eqn:E.
    intros row ->. paths E.
    destruct Pfound as [Hlookup _].
    split; [done|]. split; [|split; [|done]].
    + intros Htruthy. destruct Pcheck as [? | (_ & ? & _)]; congruence.
    + intros ->. split; [by destruct Popen as [? | [_ ?]] | by apply Pcommit].
Qed.

(** A deadlock reported by [wallet.save] reaches the caller under its own
    name, with its message and its code; and the debit of 30 that goes
    through met no storage call that threw. *)
Lemma unexpected_failure_rethrown_witness :
  (exec (createTransactionRepo save_deadlocks pay_30 None) world_100).2 =
    inl (mkErrorType "SequelizeDatabaseError" "Deadlock found"
                     (Some "ER_LOCK_DEADLOCK")) ∧
  name (rethrow deadlock) = "SequelizeDatabaseError" ∧
  message (rethrow deadlock) = "Deadlock found" ∧
  (exec (createTransactionRepo no_faults pay_30 None) world_100).2 =
    inr (new_row pay_30 world_100) ∧
  f_save no_faults = None.
Proof.
  split; [|split; [|split; [|split; [reflexivity|]]]].
  - pose proof (proj1 unexpected_failure_rethrown save_deadlocks pay_30 None
                  world_100) as H.
    destruct (exec (createTransactionRepo save_deadlocks pay_30 None) world_100)
      as [w' r].
    destruct H as [_ H].
    destruct (H 100%float) as [_ H1]; [by split|].
    destruct H1 as [_ H2]; [by left | by split |].
    destruct H2 as [_ H3]; [by right|].
    destruct (H3 eq_refl) as [_ H4].
    destruct (H4 70%float eq_refl) as [H5 _].
    exact (H5 deadlock eq_refl).
  - apply (proj1 (proj2 (proj1 (proj2 unexpected_failure_rethrown) deadlock)));
      [reflexivity | discriminate].
  - apply (proj1 (proj2 (proj2 (proj2
             (proj1 (proj2 unexpected_failure_rethrown) deadlock)))));
      [reflexivity | discriminate].
  - pose proof (proj2 (proj2 unexpected_failure_rethrown) no_faults pay_30 None
                  world_100) as H.
    destruct (exec (createTransactionRepo no_faults pay_30 None) world_100)
      as [w' r] eqn:E.
    assert (Hr : r = inr (new_row pay_30 world_100))
      by (vm_compute in E; by injection E as _ <-).
    exact (proj2 (proj2 (proj2 (proj2 (H _ Hr))))).
Defined.

(** C8 fails as stated: a refused connection at the first read is re-raised
    under the thrown value's own name, Error, not as
    TransactionCreationError. *)
Lemma unexpected_failure_counterexample :
  (exec (createTransactionRepo lookup_refused pay_30_ref1 None) world_100).2 =
    inl (mkErrorType "Error" "connect ECONNREFUSED 127.0.0.1:3306"
                     (Some "ECONNREFUSED")) ∧
  "Error" ∉ "TransactionCreationError" :: engine_kinds.
Proof.
  split; [by vm_compute|].
  unfold engine_kinds. rewrite !elem_of_cons, elem_of_nil.
  intros H. by repeat destruct H as [H | H].
Qed.

(** C9 (amended).  Pagination.  Whenever a listing is returned, its total
    is the size of the full filtered set (the stored rows that pass the
    filters) and is the same for every window.  A window is applied exactly
    when [page] and [limit] are both numbers above 0, whole or not.  When
    the two queries go through: without a window the rows returned are the
    full filtered set, newest first; with a window whose offset
    [(page - 1) * limit], computed on doubles, and whose limit are whole
    numbers from 0 on, they are the [limit] rows after the first [offset]
    of the full filtered set, newest first.  Rows created at the same time
    come in the order the database chooses for the query. *)
Theorem pagination_correct (dbms : Database) (filters : Filters) (db : Db) :
  (∀ res, getListTransactionRepo dbms filters db = inr res →
     total res = length (matching filters db) ∧
     ∀ dbms' p l res',
       getListTransactionRepo dbms' (with_window p l filters) db = inr res' →
       total res' = total res) ∧
  (paginated filters = true ↔
   ∃ p l, page filters = Some p ∧ limit filters = Some l ∧
          num_ltb 0%float p = true ∧ num_ltb 0%float l = true) ∧
  (answers dbms → paginated filters = false →
   ∃ rows,
     getListTransactionRepo dbms filters db =
       inr (mkListResult rows (length (matching filters db))) ∧
     rows ≡ₚ matching filters db ∧
     StronglySorted newer_or_same rows) ∧
  (∀ p l o n,
      answers dbms →
      page filters = Some p → limit filters = Some l →
      num_ltb 0%float p = true → num_ltb 0%float l = true →
      whole (num_mul (num_sub p 1%float) l) = Some o → 0 ≤ o →
      whole l = Some n →
      ∃ rows,
        rows ≡ₚ matching filters db ∧
        StronglySorted newer_or_same rows ∧
        getListTransactionRepo dbms filters db =
          inr (mkListResult (take (Z.to_nat n) (drop (Z.to_nat o) rows))
                            (length (matching filters db)))).
Proof.
  split; [|split; [|split]].
  - intros res Hres.
    apply getListTransactionRepo_result in Hres as (Htotal & _).
    rewrite filtered_matching in Htotal. split; [done|].
    intros dbms' p l res' Hres'.
    apply getListTransactionRepo_result in Hres' as (Htotal' & _).
    by rewrite Htotal, Htotal', <- filtered_matching.
  - apply paginated_spec.
  - intros Hdbms Hpage. exists (ordered dbms filters db).
    rewrite getListTransactionRepo_unpaginated, filtered_matching by done.
    split; [done|]. unfold ordered. rewrite filtered_matching.
    split; [apply order_permutes | apply order_sorts].
  - intros p l o n Hdbms Hp Hl Hpos_p Hpos_l Ho Hpos_o Hn.
    assert (Hpage : paginated filters = true).
    { apply paginated_spec. by exists p, l. }
    exists (ordered dbms filters db).
    split; [|split].
    + unfold ordered. rewrite filtered_matching. apply order_permutes.
    + apply order_sorts.
    + rewrite (getListTransactionRepo_paginated _ _ _ p l) by done.
      rewrite (window_whole _ _ _ o n); try done.
      * by rewrite filtered_matching.
      * by eapply whole_positive.
Qed.

(** With 25 rows and page 2 of 10, the rows returned are items 11 to 20 of
    the rows newest first, the ones with ids 15 down to 6, and the total is
    25; without a window all 25 rows are returned. *)
Lemma pagination_correct_witness :
  (∃ rows,
     rows ≡ₚ matching page_2_of_10 twenty_five_rows ∧
     StronglySorted newer_or_same rows ∧
     getListTransactionRepo stored_order page_2_of_10 twenty_five_rows =
       inr (mkListResult (take (Z.to_nat 10) (drop (Z.to_nat 10) rows))
                         (length (matching page_2_of_10 twenty_five_rows)))) ∧
  listed (getListTransactionRepo stored_order page_2_of_10 twenty_five_rows) =
    Some (map (λ i, row_at i 1 (1000 + i) false)
             [15; 14; 13; 12; 11; 10; 9; 8; 7; 6]) ∧
  25%nat = length (matching page_2_of_10 twenty_five_rows) ∧
  paginated page_2_of_10 = true ∧
  (∃ rows,
     getListTransactionRepo stored_order no_filter twenty_five_rows =
       inr (mkListResult rows (length (matching no_filter twenty_five_rows))) ∧
     rows ≡ₚ matching no_filter twenty_five_rows ∧
     StronglySorted newer_or_same rows).
Proof.
  split; [|split; [reflexivity|split; [|split]]].
  - apply (proj2 (proj2 (proj2
             (pagination_correct stored_order page_2_of_10 twenty_five_rows)))
           2%float 10%float 10 10); try reflexivity; [done | discriminate].
  - exact (proj1 (proj1
             (pagination_correct stored_order page_2_of_10 twenty_five_rows)
             (mkListResult
                (map (λ i, row_at i 1 (1000 + i) false)
                     [15; 14; 13; 12; 11; 10; 9; 8; 7; 6]) 25)
             eq_refl)).
  - apply (proj2 (proj1 (proj2
             (pagination_correct stored_order page_2_of_10 twenty_five_rows)))).
    exists 2%float, 10%float. by repeat split.
  - apply (proj1 (proj2 (proj2
             (pagination_correct stored_order no_filter twenty_five_rows))));
      [done | reflexivity].
Defined.

(** C9 fails as stated: page 1.5 is not a whole number, yet the test of
    lines 187-192 lets it through, and with limit 10 the listing of 25 rows
    is cut to the 10 rows after the first 5 instead of being returned in
    full. *)
Lemma pagination_counterexample :
  whole 1.5%float = None ∧
  listed (getListTransactionRepo stored_order page_one_and_a_half
                                 twenty_five_rows) =
  Some (map (λ i, row_at i 1 (1000 + i) false)
           [20; 19; 18; 17; 16; 15; 14; 13; 12; 11]) ∧
  counted (getListTransactionRepo stored_order page_one_and_a_half
                                  twenty_five_rows) =
  Some 25%nat.
Proof. by vm_compute. Qed.

(** C10 (amended).  Every row of a listing that is returned is not deleted;
    is of the wallet the filter names when that is a number other than 0,
    -0 and NaN; and was created inside the inclusive window of whichever of
    start_date and end_date is given. *)
Theorem list_filtering (dbms : Database) (filters : Filters) (db : Db)
    (res : ListResult) (row : TransactionAttributes) :
  getListTransactionRepo dbms filters db = inr res →
  row ∈ result_transactions res →
  tx_isDeleted row = false ∧
  (∀ wid, filter_walletId filters = Some wid →
          is_zero wid = false → is_nan wid = false →
          whole wid = Some (tx_walletId row)) ∧
  (∀ d, start_date filters = Some d → d ≤ tx_createdAt row) ∧
  (∀ d, end_date filters = Some d → tx_createdAt row ≤ d).
Proof.
  intros Hres Hin.
  destruct (elem_of_result _ _ _ _ _ Hres Hin)
    as (_ & Hdel & Hwallet & _ & _ & Hstart & Hend).
  split; [done|]. split; [|split].
  - intros wid Hwid. rewrite Hwid in Hwallet. exact Hwallet.
  - intros d Hd. by rewrite Hd in Hstart.
  - intros d Hd. by rewrite Hd in Hend.
Qed.

(** Asked for wallet 2 between 2500 and 3500, the listing of the three rows
    returns the row of wallet 2 created at 3000. *)
Lemma list_filtering_witness :
  listed (getListTransactionRepo stored_order wallet_2_in_window three_rows) =
    Some [row_at 3 2 3000 false] ∧
  tx_isDeleted (row_at 3 2 3000 false) = false ∧
  whole 2%float = Some (tx_walletId (row_at 3 2 3000 false)) ∧
  2500 ≤ tx_createdAt (row_at 3 2 3000 false) ∧
  tx_createdAt (row_at 3 2 3000 false) ≤ 3500.
Proof.
  split; [reflexivity|].
  destruct (list_filtering stored_order wallet_2_in_window three_rows
              (mkListResult [row_at 3 2 3000 false] 1)
              (row_at 3 2 3000 false) eq_refl)
    as (Hdel & Hwallet & Hstart & Hend); [apply list_elem_of_here|].
  split; [exact Hdel|].
  split; [exact (Hwallet 2%float eq_refl eq_refl eq_refl)|].
  split; [exact (Hstart 2500 eq_refl) | exact (Hend 3500 eq_refl)].
Defined.

(** C10 fails as stated: a walletId of 0 is supplied, and so is one that is
    NaN, yet both are falsy and set no condition, and rows of wallets 1 and
    2 come back. *)
Lemma list_filtering_counterexample :
  filter_walletId wallet_zero = Some 0%float ∧
  map tx_walletId <$>
    listed (getListTransactionRepo stored_order wallet_zero three_rows) =
    Some [2; 1] ∧
  filter_walletId wallet_nan = Some nan ∧
  map tx_walletId <$>
    listed (getListTransactionRepo stored_order wallet_nan three_rows) =
    Some [2; 1].
Proof. by vm_compute. Qed.

(** C6 does not hold of the code.  Two calls with the same referenceId and
    type that leave the unit-of-work to the engine: when both make their
    reads before either writes, both succeed, two rows with that reference
    are committed, and the balance is debited once (70 instead of 40).
    The reads are made outside any unit-of-work, before the engine opens
    one.  Run one after the other, the second call fails with
    DuplicateTransactionError. *)
Theorem concurrent_calls_both_succeed :
  (let '(threads, w') := run_schedule reads_first two_calls world_100 in
   ∃ row1 row2,
     outcome <$> threads = [Some (inr row1); Some (inr row2)] ∧
     List.filter (same_reference (Some "ref1") PAY_SERVICE)
                 (transactions (committed w')) = [row1; row2] ∧
     wallets (committed w') !! 1 = Some 70%float ∧
     trace w' =
       [EvFindByPk None 1; EvFindOne None; EvFindByPk None 1; EvFindOne None;
        EvBegin 0%nat; EvCreate 0%nat 1; EvSave 0%nat 1; EvCommit 0%nat true;
        EvBegin 1%nat; EvCreate 1%nat 2; EvSave 1%nat 1; EvCommit 1%nat true]) ∧
  (let '(threads, w') := run_schedule one_after_the_other two_calls world_100 in
   ∃ row1,
     outcome <$> threads =
       [Some (inr row1);
        Some (inl (mkErrorType "DuplicateTransactionError"
                     "Transaction already exists for reference ref1" None))] ∧
     transactions (committed w') = [row1] ∧
     wallets (committed w') !! 1 = Some 70%float).
Proof.
  split.
  - vm_compute. by eexists _, _.
  - vm_compute. by eexists.
Qed.

(** * More of the repository, beyond the claims *)

(** ** Looking rows up by primary key *)

Lemma find_app_or {A : Type} (f : A → bool) (l1 l2 : list A) :
  List.find f (l1 ++ l2) =
  match List.find f l1 with
  | Some x => Some x
  | None => List.find f l2
  end.
Proof.
  induction l1 as [| x l1 IH]; simpl; [done|]. by destruct (f x).
Qed.

Lemma find_all_false {A : Type} (f : A → bool) (l : list A) :
  (∀ x, x ∈ l → f x = false) → List.find f l = None.
Proof.
  induction l as [| x l IH]; intros H; simpl; [done|].
  rewrite (H x) by apply list_elem_of_here.
  apply IH. intros y Hy. apply H. by apply list_elem_of_further.
Qed.

Lemma find_by_id_unique (rows : list TransactionAttributes)
    (row : TransactionAttributes) :
  NoDup (tx_id <$> rows) → row ∈ rows →
  List.find (λ r, tx_id r =? tx_id row) rows = Some row.
Proof.
  induction rows as [| r rows IH]; intros Hnd Hin; [by apply elem_of_nil in Hin|].
  simpl in *. apply NoDup_cons in Hnd as [Hfresh Hnd].
  apply elem_of_cons in Hin as [-> | Hin].
  - by rewrite Z.eqb_refl.
  - destruct (tx_id r =? tx_id row) eqn:Heq; [|by apply IH].
    apply Z.eqb_eq in Heq. exfalso. apply Hfresh. rewrite Heq.
    by apply list_elem_of_fmap_2.
Qed.

Lemma exec_getTransactionByIdRepo (fault : option Thrown) (id : Z) (w : World) :
  exec (getTransactionByIdRepo fault id) w =
  (w, match fault with
      | Some t => inl (rewrap t)
      | None =>
          match List.find (λ row, tx_id row =? id) (transactions (committed w)) with
          | Some row => inr row
          | None => inl (new_error "NotFoundError" "Transaction not found")
          end
      end).
Proof.
  unfold getTransactionByIdRepo.
  rewrite exec_try_catch, exec_bind, exec_await.
  unfold TransactionModel_findByPk.
  destruct fault as [t|]; [done|].
  by destruct (List.find _ _).
Qed.

(** X1.  [getTransactionByIdRepo] reads the committed rows by primary key
    and leaves the world alone.  When the query does not throw: a row it
    returns is a committed row with the id asked for; when ids are unique,
    every committed row is returned for its own id, soft-deleted or not; and
    the call fails, with NotFoundError, exactly when no committed row has
    the id. *)
Theorem getTransactionByIdRepo_spec (id : Z) (w : World) :
  let '(w', r) := exec (getTransactionByIdRepo None id) w in
  w' = w ∧
  (∀ row, r = inr row → row ∈ transactions (committed w) ∧ tx_id row = id) ∧
  (NoDup (tx_id <$> transactions (committed w)) →
   ∀ row, row ∈ transactions (committed w) → tx_id row = id → r = inr row) ∧
  ((∃ e, r = inl e) ↔
   ∀ row, row ∈ transactions (committed w) → tx_id row ≠ id) ∧
  (∀ e, r = inl e → e = new_error "NotFoundError" "Transaction not found").
Proof.
  rewrite exec_getTransactionByIdRepo.
  destruct (List.find _ _) as [found|] eqn:Hfind.
  - apply List.find_some in Hfind as [Hin Hid].
    apply list_elem_of_In in Hin. apply Z.eqb_eq in Hid.
    split; [done|]. split; [by intros row [= <-]|]. split; [|split].
    + intros Hnd row Hrow Heq. f_equal.
      pose proof (find_by_id_unique _ _ Hnd Hrow) as H1.
      pose proof (find_by_id_unique _ _ Hnd Hin) as H2.
      rewrite Heq, <- Hid in H1. congruence.
    + split; [by intros [e ?]|]. intros Hnone. by destruct (Hnone found Hin).
    + by intros e.
  - split; [done|]. split; [by intros row|]. split; [|split].
    + intros _ row Hrow Heq. apply list_elem_of_In in Hrow.
      pose proof (List.find_none _ _ Hfind _ Hrow) as Hf. simpl in Hf. lia.
    + split; [|by eauto]. intros _ row Hrow Heq. apply list_elem_of_In in Hrow.
      pose proof (List.find_none _ _ Hfind _ Hrow) as Hf. simpl in Hf. lia.
    + by intros e [= <-].
Qed.

Lemma getTransactionByIdRepo_spec_witness :
  exec (getTransactionByIdRepo None 2) world_three_rows =
  (world_three_rows, inr (row_at 2 1 2000 true)).
Proof.
  pose proof (getTransactionByIdRepo_spec 2 world_three_rows) as H.
  destruct (exec (getTransactionByIdRepo None 2) world_three_rows) as [w' r].
  destruct H as (-> & _ & H & _). f_equal. apply H.
  - apply (bool_decide_unpack _). by vm_compute.
  - vm_compute. apply list_elem_of_further, list_elem_of_here.
  - reflexivity.
Defined.

(** ** Rows are only ever appended *)

Lemma transactions_apply_writes (ws : list Write) (db : Db) :
  transactions (apply_writes ws db) = transactions db ++ inserted ws.
Proof.
  revert db. induction ws as [| wr ws IH]; intros db; simpl.
  - by rewrite app_nil_r.
  - unfold apply_writes in *. simpl. rewrite IH.
    destruct wr as [row | wid b]; simpl; [by rewrite <- app_assoc | done].
Qed.

Lemma committed_rows_in_view (w : World) (tx : option handle)
    (row : TransactionAttributes) :
  row ∈ transactions (committed w) → row ∈ transactions (view w tx).
Proof.
  destruct tx as [h|]; simpl; [|done].
  rewrite transactions_apply_writes, elem_of_app. by left.
Qed.

Lemma find_new_row (rows : list TransactionAttributes)
    (row : TransactionAttributes) :
  (∀ r, r ∈ rows → tx_id r ≠ tx_id row) →
  List.find (λ r, tx_id r =? tx_id row) rows = None ∧
  List.find (λ r, tx_id r =? tx_id row) (rows ++ [row]) = Some row.
Proof.
  intros Hfresh.
  assert (Hnone : List.find (λ r, tx_id r =? tx_id row) rows = None).
  { apply find_all_false. intros r Hr. apply Z.eqb_neq. by apply Hfresh. }
  split; [done|]. rewrite find_app_or, Hnone. simpl. by rewrite Z.eqb_refl.
Qed.

(** X2.  Insert, then look up.  When no committed row has the next id yet, a
    call that owns its unit-of-work and succeeds has committed a row that
    [getTransactionByIdRepo] returns for the id of the row the call
    returned; and after a call that failed, nothing is found under the id
    it would have used. *)
Theorem create_then_get (fl : Faults) (data : TransactionData) (w : World) :
  (∀ r, r ∈ transactions (committed w) → tx_id r ≠ next_id w) →
  let '(w1, r1) := exec (createTransactionRepo fl data None) w in
  match r1 with
  | inr row => exec (getTransactionByIdRepo None (tx_id row)) w1 = (w1, inr row)
  | inl _ =>
      exec (getTransactionByIdRepo None (next_id w)) w1 =
      (w1, inl (new_error "NotFoundError" "Transaction not found"))
  end.
Proof.
  intros Hfresh.
  destruct (exec (createTransactionRepo fl data None) w) as [w1 r1] eqn:E.
  apply createTransactionRepo_effect in E as [E _].
  destruct r1 as [e | row]; rewrite exec_getTransactionByIdRepo.
  - rewrite E. change (next_id w) with (tx_id (new_row data w)).
    by rewrite (proj1 (find_new_row _ (new_row data w) Hfresh)).
  - destruct E as (-> & b & ->).
    pose proof (proj2 (find_new_row _ (new_row data w) Hfresh)) as Hfound.
    simpl in *. by rewrite Hfound.
Qed.

Lemma create_then_get_witness :
  let '(w1, r1) := exec (createTransactionRepo no_faults pay_30_ref1 None) world_100 in
  match r1 with
  | inr row => exec (getTransactionByIdRepo None (tx_id row)) w1 = (w1, inr row)
  | inl _ =>
      exec (getTransactionByIdRepo None (next_id world_100)) w1 =
      (w1, inl (new_error "NotFoundError" "Transaction not found"))
  end.
Proof.
  apply (create_then_get no_faults pay_30_ref1 world_100).
  intros r Hr. vm_compute in Hr. by apply elem_of_nil in Hr.
Defined.

(** X3.  Rows written in the caller's unit-of-work are not found until the
    caller commits.  After a successful call in the caller's unit-of-work
    (no row it sees having the next id yet), [getTransactionByIdRepo] does
    not find the new row; it finds it once the caller has committed, and
    does not find it once the caller has rolled back. *)
Theorem get_sees_only_committed (fl : Faults) (data : TransactionData)
    (h : handle) (w : World) :
  (∀ r, r ∈ transactions (view w (Some h)) → tx_id r ≠ next_id w) →
  let '(w1, r1) := exec (createTransactionRepo fl data (Some h)) w in
  ∀ row, r1 = inr row →
    let not_found := inl (new_error "NotFoundError" "Transaction not found") in
    (exec (getTransactionByIdRepo None (tx_id row)) w1).2 = not_found ∧
    (exec (getTransactionByIdRepo None (tx_id row)) (commit h w1)).2 = inr row ∧
    (exec (getTransactionByIdRepo None (tx_id row)) (rollback h w1)).2 = not_found.
Proof.
  intros Hfresh.
  destruct (exec (createTransactionRepo fl data (Some h)) w) as [w1 r1] eqn:E.
  intros row ->. cbn zeta.
  pose proof (createTransactionRepo_effect _ _ _ _ _ _ E) as (Hc & [-> _] & _).
  destruct (createTransactionRepo_view _ _ _ _ _ _ E)
    as [[_ [e ?]] | [(bal & e & ? & _)
                    | (bal & nb & _ & _ & _ & _ & _ & Hview)]]; [done | done |].
  assert (Hold : ∀ r, r ∈ transactions (committed w) →
                      tx_id r ≠ tx_id (new_row data w)).
  { intros r Hr. apply Hfresh. by apply committed_rows_in_view. }
  rewrite !exec_getTransactionByIdRepo. cbn [snd rollback commit committed].
  change (apply_writes (writes_of w1 h) (committed w1)) with (view w1 (Some h)).
  rewrite Hview, transactions_apply_writes.
  change (inserted _) with [new_row data w].
  rewrite (proj2 (find_new_row _ (new_row data w) Hfresh)).
  by rewrite Hc, (proj1 (find_new_row _ _ Hold)).
Qed.

Lemma get_sees_only_committed_witness :
  let '(w1, r1) :=
    exec (createTransactionRepo no_faults pay_30_ref1 (Some 5%nat))
         world_with_caller in
  ∀ row, r1 = inr row →
    let not_found := inl (new_error "NotFoundError" "Transaction not found") in
    (exec (getTransactionByIdRepo None (tx_id row)) w1).2 = not_found ∧
    (exec (getTransactionByIdRepo None (tx_id row)) (commit 5%nat w1)).2 = inr row ∧
    (exec (getTransactionByIdRepo None (tx_id row)) (rollback 5%nat w1)).2 = not_found.
Proof.
  apply (get_sees_only_committed no_faults pay_30_ref1 5%nat world_with_caller).
  intros r Hr. vm_compute in Hr. by apply elem_of_nil in Hr.
Defined.

(** ** What a call can have written *)

(** The writes a call adds to the committed rows and to what its
    unit-of-work sees: none, the new row, or the new row and the balance of
    its wallet. *)
Lemma createTransactionRepo_stores (fl : Faults) (data : TransactionData)
    (tx : option handle) (w w' : World) (r : ErrorType + TransactionAttributes) :
  exec (createTransactionRepo fl data tx) w = (w', r) →
  ∃ added_c added_v,
    committed w' = apply_writes added_c (committed w) ∧
    view w' tx = apply_writes added_v (view w tx) ∧
    ∀ added, added = added_c ∨ added = added_v →
      added = [] ∨ added = [InsertTransaction (new_row data w)] ∨
      ∃ nb, added = [InsertTransaction (new_row data w);
                     SaveWallet (walletId data) nb].
Proof.
  intros E.
  pose proof (createTransactionRepo_effect _ _ _ _ _ _ E) as Heff.
  destruct tx as [h|].
  - destruct Heff as (Hc & _ & _).
    destruct (createTransactionRepo_view _ _ _ _ _ _ E)
      as [[Hview _] | [(bal & e & _ & _ & _ & _ & _ & Hview)
                      | (bal & nb & _ & _ & _ & _ & _ & Hview)]].
    + exists [], []. repeat split; try done. intros added [-> | ->]; by left.
    + exists [], [InsertTransaction (new_row data w)]. repeat split; try done.
      intros added [-> | ->]; [by left | right; by left].
    + exists [], [InsertTransaction (new_row data w);
                  SaveWallet (walletId data) nb].
      repeat split; try done.
      intros added [-> | ->]; [by left | right; right; by exists nb].
  - destruct Heff as [Hc _]. destruct r as [e | row].
    + exists [], []. simpl. repeat split; try done.
      intros added [-> | ->]; by left.
    + destruct Hc as (-> & b & Hc).
      exists [InsertTransaction (new_row data w); SaveWallet (walletId data) b],
             [InsertTransaction (new_row data w); SaveWallet (walletId data) b].
      simpl. repeat split; try done.
      intros added [-> | ->]; right; right; by exists b.
Qed.

Lemma attempted_wallets (data : TransactionData) (w : World) (db : Db)
    (added : list Write) :
  (added = [] ∨ added = [InsertTransaction (new_row data w)] ∨
   ∃ nb, added = [InsertTransaction (new_row data w);
                  SaveWallet (walletId data) nb]) →
  dom (wallets (apply_writes added db)) = dom (wallets db) ∧
  (∀ wid, wid ≠ walletId data →
          wallets (apply_writes added db) !! wid = wallets db !! wid) ∧
  ∃ new, (new = [] ∨ new = [new_row data w]) ∧
         transactions (apply_writes added db) = transactions db ++ new.
Proof.
  intros [-> | [-> | [nb ->]]]; simpl.
  - repeat split; try done. exists []. split; [by left | by rewrite app_nil_r].
  - repeat split; try done. exists [new_row data w]. split; [by right | done].
  - split; [apply dom_alter_L|]. split.
    + intros wid Hne. by rewrite lookup_alter_ne.
    + exists [new_row data w]. split; [by right | done].
Qed.

(** X4.  A call touches no other wallet.  Whatever the mode, the outcome and
    the storage faults, the set of wallets is the same afterwards, and the
    balance of every wallet other than [data.walletId] is the same, in the
    committed rows and in what the call's unit-of-work sees. *)
Theorem other_wallets_untouched (fl : Faults) (data : TransactionData)
    (tx : option handle) (w : World) :
  let '(w', _) := exec (createTransactionRepo fl data tx) w in
  dom (wallets (committed w')) = dom (wallets (committed w)) ∧
  dom (wallets (view w' tx)) = dom (wallets (view w tx)) ∧
  ∀ wid, wid ≠ walletId data →
    wallets (committed w') !! wid = wallets (committed w) !! wid ∧
    wallets (view w' tx) !! wid = wallets (view w tx) !! wid.
Proof.
  destruct (exec (createTransactionRepo fl data tx) w) as [w' r] eqn:E.
  destruct (createTransactionRepo_stores _ _ _ _ _ _ E)
    as (added_c & added_v & -> & -> & Hadded).
  destruct (attempted_wallets data w (committed w) added_c)
    as (Hdc & Hwc & _); [by apply Hadded; left|].
  destruct (attempted_wallets data w (view w tx) added_v)
    as (Hdv & Hwv & _); [by apply Hadded; right|].
  repeat split; try done; [by apply Hwc | by apply Hwv].
Qed.

(** X5.  The ledger is append-only.  A call never changes or removes a
    Transaction row: the committed rows afterwards, and the rows its
    unit-of-work sees, are the rows from before followed by nothing or by
    the one new row. *)
Theorem ledger_append_only (fl : Faults) (data : TransactionData)
    (tx : option handle) (w : World) :
  let '(w', _) := exec (createTransactionRepo fl data tx) w in
  (∃ new, (new = [] ∨ new = [new_row data w]) ∧
          transactions (committed w') = transactions (committed w) ++ new) ∧
  (∃ new, (new = [] ∨ new = [new_row data w]) ∧
          transactions (view w' tx) = transactions (view w tx) ++ new).
Proof.
  destruct (exec (createTransactionRepo fl data tx) w) as [w' r] eqn:E.
  destruct (createTransactionRepo_stores _ _ _ _ _ _ E)
    as (added_c & added_v & -> & -> & Hadded).
  split.
  - by destruct (attempted_wallets data w (committed w) added_c)
      as (_ & _ & ?); [apply Hadded; left|].
  - by destruct (attempted_wallets data w (view w tx) added_v)
      as (_ & _ & ?); [apply Hadded; right|].
Qed.

Lemma other_wallets_untouched_witness :
  let '(w', _) :=
    exec (createTransactionRepo no_faults pay_30_ref1 None) world_three_rows in
  wallets (committed w') !! 2 = wallets (committed world_three_rows) !! 2 ∧
  wallets (view w' None) !! 2 = wallets (view world_three_rows None) !! 2.
Proof.
  pose proof (other_wallets_untouched no_faults pay_30_ref1 None
                world_three_rows) as H.
  destruct (exec (createTransactionRepo no_faults pay_30_ref1 None)
              world_three_rows) as [w' r].
  destruct H as (_ & _ & H). apply H. discriminate.
Defined.

(** ** Which error, and when none *)

Lemma same_reference_false (ref : option string) (ty : TransactionType)
    (row : TransactionAttributes) :
  same_reference ref ty row = false →
  tx_referenceId row = ref → tx_type row = ty → tx_isDeleted row = true.
Proof.
  unfold same_reference. intros H Href Hty.
  rewrite !bool_decide_eq_true_2 in H by done.
  by destruct (tx_isDeleted row).
Qed.

Lemma reference_free_find (data : TransactionData) (db : Db) :
  reference_free data db ↔
  List.find (same_reference (referenceId data) (type data)) (transactions db)
  = None.
Proof.
  split.
  - intros Hfree. apply find_all_false. intros row Hrow.
    destruct (same_reference _ _ row) eqn:Hsame; [|done].
    apply same_reference_true in Hsame as (Href & Hty & Hdel).
    by rewrite (Hfree row Hrow Href Hty) in Hdel.
  - intros Hnone row Hrow. apply list_elem_of_In in Hrow.
    apply same_reference_false. by eapply List.find_none in Hnone.
Qed.

Lemma no_duplicate_reference_free (data : TransactionData)
    (tx : option handle) (w : World) :
  no_duplicate no_faults data tx w ↔
  (truthy_string (referenceId data) = true → reference_free data (view w tx)).
Proof.
  unfold no_duplicate. rewrite reference_free_find. split.
  - intros [Hf | (_ & _ & Hnone)] Ht; [congruence | done].
  - intros H. destruct (truthy_string (referenceId data)); [|by left].
    right. split; [done|]. split; [done|]. by apply H.
Qed.

(** X6.  A missing wallet is reported before anything else is looked at.
    When the wallet lookup does not throw and finds no wallet, the call
    fails with NotFoundError whatever the amount, the type and the
    referenceId are, having made that one read and nothing else. *)
Theorem missing_wallet_not_found (fl : Faults) (data : TransactionData)
    (tx : option handle) (w : World) :
  f_findByPk fl = None →
  wallets (view w tx) !! walletId data = None →
  exec (createTransactionRepo fl data tx) w =
  (log (EvFindByPk tx (walletId data)) w,
   inl (mkErrorType "NotFoundError" "Wallet not found" None)).
Proof.
  intros Hlookup Hwallet.
  destruct (exec (createTransactionRepo fl data tx) w) as [w' r] eqn:E.
  paths E; try congruence.
  all: try (destruct Pfound as [_ ?]; congruence).
  done.
Qed.

Lemma missing_wallet_not_found_witness :
  exec (createTransactionRepo no_faults
          (mkData 9 nan COMPLETED (OTHER_TYPE "WITHDRAW") (Some "ref1")) None)
       world_after_ref1 =
  (log (EvFindByPk None 9) world_after_ref1,
   inl (mkErrorType "NotFoundError" "Wallet not found" None)).
Proof.
  apply (missing_wallet_not_found no_faults
           (mkData 9 nan COMPLETED (OTHER_TYPE "WITHDRAW") (Some "ref1"))
           None world_after_ref1); reflexivity.
Defined.

(** X7.  A balance or an amount that is not a number is rejected with
    InvalidDataError, whatever the type, and nothing is written: the
    committed rows and every unit-of-work are as before.  (The wallet exists,
    the reads do not throw, and no duplicate is found first.) *)
Theorem not_a_number_rejected (fl : Faults) (data : TransactionData)
    (tx : option handle) (w : World) (balance : num) :
  f_findByPk fl = None →
  wallets (view w tx) !! walletId data = Some balance →
  (truthy_string (referenceId data) = true →
   f_findOne fl = None ∧ reference_free data (view w tx)) →
  isNaN balance = true ∨ isNaN (amount data) = true →
  let '(w', r) := exec (createTransactionRepo fl data tx) w in
  r = inl (mkErrorType "InvalidDataError" "Balance or amount is invalid" None) ∧
  committed w' = committed w ∧ pending w' = pending w ∧
  next_id w' = next_id w.
Proof.
  intros Hlookup Hwallet Hcheck Hnan.
  destruct (exec (createTransactionRepo fl data tx) w) as [w' r] eqn:E.
  assert (Hisnan : isNaN (parseFloat balance) ||
                   isNaN (parseFloat (amount data)) = true).
  { rewrite !isNaN_parseFloat.
    destruct Hnan as [-> | ->]; [done | by rewrite orb_true_r]. }
  paths E; try congruence.
  all: try (destruct Pfound as [_ Pwallet]; simplify_eq).
  all: try (destruct (Hcheck Ptruthy) as [? Hfree]; try congruence;
            apply reference_free_find in Hfree; congruence).
  all: try (destruct Pvalid as [? _]; congruence).
  all: try congruence.
  by world_simpl.
Qed.

Lemma not_a_number_rejected_witness :
  let '(w', r) :=
    exec (createTransactionRepo no_faults
            (mkData 1 nan COMPLETED (OTHER_TYPE "WITHDRAW") None) None)
         world_100 in
  r = inl (mkErrorType "InvalidDataError" "Balance or amount is invalid" None) ∧
  committed w' = committed world_100 ∧ pending w' = pending world_100 ∧
  next_id w' = next_id world_100.
Proof.
  apply (not_a_number_rejected no_faults
           (mkData 1 nan COMPLETED (OTHER_TYPE "WITHDRAW") None) None
           world_100 100%float); [reflexivity | reflexivity | discriminate |].
  by right.
Defined.

Lemma acceptable_succeeds (data : TransactionData) (tx : option handle)
    (w w' : World) (r : ErrorType + TransactionAttributes) :
  acceptable data (view w tx) →
  exec (createTransactionRepo no_faults data tx) w = (w', r) →
  r = inr (new_row data w).
Proof.
  intros (b & Hwallet & Hb & Ha & Hpos & Hfree & Hty) E.
  assert (Hcheck : no_duplicate no_faults data tx w)
    by by apply no_duplicate_reference_free.
  assert (Hnone : truthy_string (referenceId data) = true →
    List.find (same_reference (referenceId data) (type data))
              (transactions (view w tx)) = None).
  { intros Ht. by apply reference_free_find, Hfree. }
  paths E; try done.
  all: try (destruct Pfound as [_ Pwallet]); simplify_eq.
  all: try (rewrite Hnone in Prow by done; done).
  all: rewrite ?isNaN_parseFloat, ?num_ltb_parseFloat_zero in *;
    try congruence.
  - by rewrite Ha, Hb in Pnan.
  - unfold new_balance in Pbalance.
    apply update_balance_inl in Pbalance
      as [(Hpay & Hlt & _) | (Hn1 & Hn2 & Hn3 & _)].
    + rewrite num_ltb_parseFloat in Hlt.
      destruct Hty as [[_ Hle] | [Hd | Hd]]; congruence.
    + by destruct Hty as [[? _] | [? | ?]].
Qed.

Lemma success_acceptable (fl : Faults) (data : TransactionData)
    (tx : option handle) (w w' : World) (row : TransactionAttributes) :
  exec (createTransactionRepo fl data tx) w = (w', inr row) →
  ∃ b nb,
    wallets (view w tx) !! walletId data = Some b ∧
    isNaN b = false ∧ isNaN (amount data) = false ∧
    num_ltb (amount data) 0%float = false ∧
    no_duplicate fl data tx w ∧
    new_balance data b = inr nb ∧
    view w' tx = apply_writes [InsertTransaction (new_row data w);
                               SaveWallet (walletId data) nb] (view w tx).
Proof.
  intros E.
  destruct (createTransactionRepo_view _ _ _ _ _ _ E)
    as [[_ [e ?]] | [(bal & e & ? & _)
                    | (bal & nb & _ & [_ Hbal] & Hcheck & Hvalid & Hnb & Hview)]];
    [done | done |].
  apply valid_numbers_spec in Hvalid as (Hb & Ha & Hpos).
  by exists bal, nb.
Qed.

(** X8.  When the storage layer throws nothing, a call succeeds exactly when
    the wallet exists with a numeric balance, the amount is a number that is
    not negative, no row that is not deleted carries the same non-empty
    referenceId and type, and the type is DEPOSIT, REFUND_SERVICE, or
    PAY_SERVICE with an amount that does not exceed the balance. *)
Theorem succeeds_iff_acceptable (data : TransactionData) (tx : option handle)
    (w : World) :
  let '(_, r) := exec (createTransactionRepo no_faults data tx) w in
  (∃ row, r = inr row) ↔ acceptable data (view w tx).
Proof.
  destruct (exec (createTransactionRepo no_faults data tx) w) as [w' r] eqn:E.
  split.
  - intros [row ->].
    destruct (success_acceptable _ _ _ _ _ _ E)
      as (b & nb & Hwallet & Hb & Ha & Hpos & Hcheck & Hnb & _).
    exists b. do 4 (split; [done|]). split.
    + by apply no_duplicate_reference_free.
    + apply update_balance_inr in Hnb as [(? & Hle & _) | ([? | ?] & _)];
        eauto.
      left. by rewrite num_ltb_parseFloat in Hle.
  - intros Hacc. exists (new_row data w). by eapply acceptable_succeeds.
Qed.

(** X9.  The boundaries of the amount.  When the storage layer throws
    nothing, no duplicate stands in the way and the balance is a number that
    is not below zero: a PAY_SERVICE of exactly the balance (when that is
    not infinite) succeeds and leaves a balance of 0; and an amount of 0
    with any of the three types succeeds, adds its row and leaves the
    balance as it was read. *)
Theorem boundary_amounts (data : TransactionData) (tx : option handle)
    (w : World) (b : num) :
  wallets (view w tx) !! walletId data = Some b →
  isNaN b = false → nonneg b →
  (truthy_string (referenceId data) = true → reference_free data (view w tx)) →
  let '(w', r) := exec (createTransactionRepo no_faults data tx) w in
  (type data = PAY_SERVICE → amount data = b → is_infinity b = false →
   r = inr (new_row data w) ∧
   wallets (view w' tx) !! walletId data = Some 0%float) ∧
  (type data = PAY_SERVICE ∨ type data = DEPOSIT ∨ type data = REFUND_SERVICE →
   is_zero (amount data) = true →
   r = inr (new_row data w) ∧
   wallets (view w' tx) !! walletId data = Some (parseFloat b) ∧
   transactions (view w' tx) = transactions (view w tx) ++ [new_row data w]).
Proof.
  intros Hwallet Hb Hnn Hfree.
  destruct (exec (createTransactionRepo no_faults data tx) w) as [w' r] eqn:E.
  assert (Hgo :
    isNaN (amount data) = false → num_ltb (amount data) 0%float = false →
    (type data = PAY_SERVICE ∧ num_ltb b (amount data) = false) ∨
    type data = DEPOSIT ∨ type data = REFUND_SERVICE →
    r = inr (new_row data w) ∧
    ∃ nb, new_balance data b = inr nb ∧
          wallets (view w' tx) !! walletId data = Some nb ∧
          transactions (view w' tx) =
            transactions (view w tx) ++ [new_row data w]).
  { intros Ha Hpos Hty.
    assert (r = inr (new_row data w)) as ->.
    { eapply acceptable_succeeds; [|exact E]. by exists b. }
    split; [done|].
    destruct (success_acceptable _ _ _ _ _ _ E)
      as (b' & nb & Hw' & _ & _ & _ & _ & Hnb & Hview).
    rewrite Hwallet in Hw'. simplify_eq.
    exists nb. split; [done|]. rewrite Hview. simpl.
    by rewrite lookup_alter_eq, Hwallet. }
  split.
  - intros Hty Ha Hfin.
    destruct Hgo as (-> & nb & Hnb & Hlook & _).
    { by rewrite Ha. }
    { by rewrite Ha. }
    { left. split; [done|]. rewrite Ha. apply num_ltb_irrefl. }
    split; [done|].
    unfold new_balance in Hnb. rewrite Ha in Hnb.
    apply update_balance_inr in Hnb as [(_ & _ & ->) | ([? | ?] & _)];
      [|congruence ..].
    by rewrite num_sub_self in Hlook.
  - intros Hty Hzero.
    destruct (zero_amount _ Hzero) as (Ha & Hpos & Hparse).
    destruct Hgo as (-> & nb & Hnb & Hlook & Hrows); [done | done | |].
    { destruct Hty as [? | [? | ?]]; eauto. left. split; [done|].
      by rewrite <- num_ltb_parseFloat, Hparse, num_ltb_parseFloat_zero. }
    repeat split; try done.
    unfold new_balance in Hnb. rewrite Hparse in Hnb.
    apply update_balance_inr in Hnb as [(_ & _ & ->) | (_ & ->)];
      by rewrite ?num_sub_zero, ?num_add_zero in Hlook.
Qed.

Lemma boundary_amounts_witness :
  let data := mkData 1 100%float COMPLETED PAY_SERVICE None in
  let '(w', r) := exec (createTransactionRepo no_faults data None) world_100 in
  r = inr (new_row data world_100) ∧
  wallets (view w' None) !! 1 = Some 0%float.
Proof.
  cbn zeta.
  pose proof (boundary_amounts (mkData 1 100%float COMPLETED PAY_SERVICE None)
                None world_100 100%float) as H.
  destruct (exec _ world_100) as [w' r].
  apply H; (reflexivity || discriminate).
Defined.

(** ** What was attempted before an error *)

Lemma next_id_after_create (data : TransactionData) (tx : option handle)
    (w : World) :
  next_id (after_create data tx w) = next_id w + 1.
Proof.
  unfold after_create, after_open. destruct tx; simpl;
    by rewrite next_id_after_check.
Qed.

Ltac not_in_trace H :=
  repeat (apply elem_of_cons in H as [H | H]); try discriminate H;
  try by apply elem_of_nil in H.

Ltac kinds H :=
  unfold early_kinds, late_kinds in H;
  repeat (apply elem_of_cons in H as [H | H]); try discriminate H;
  try by apply elem_of_nil in H.

(** X10.  When the storage layer throws nothing, the four early kinds
    (NotFound, DuplicateTransaction, InvalidData, InvalidAmount) are raised
    after reads only: no unit-of-work is opened, no row is created, no id is
    used up.  The two late kinds (InsufficientFunds, InvalidType) are raised
    after the row was created: the create call is in the trace, no save is,
    and the auto-increment id is used up even though the call failed. *)
Theorem early_and_late_errors (data : TransactionData) (tx : option handle)
    (w : World) :
  let '(w', r) := exec (createTransactionRepo no_faults data tx) w in
  ∀ e, r = inl e →
    ∃ evs, trace w' = trace w ++ evs ∧
      (name e ∈ early_kinds →
       forallb is_read evs = true ∧
       committed w' = committed w ∧ pending w' = pending w ∧
       next_id w' = next_id w ∧ next_handle w' = next_handle w) ∧
      (name e ∈ late_kinds →
       next_id w' = next_id w + 1 ∧
       EvCreate (the_handle tx w) (next_id w) ∈ evs ∧
       ∀ h wid, EvSave h wid ∉ evs).
Proof.
  destruct (exec (createTransactionRepo no_faults data tx) w) as [w' r] eqn:E.
  intros e0 ->. paths E; try done.
  all: try (unfold new_balance in Pbalance;
            apply update_balance_inl in Pbalance
              as [(_ & _ & ->) | (_ & _ & _ & ->)]).
  all: destruct tx as [h|]; unfold settle; cbn [f_rollback no_faults];
    world_simpl.
  all: trace_split.
  all: try destruct (truthy_string (referenceId data)); cbn [app].
  all: split; [intros Hk; try (by kinds Hk) | intros Hk; try (by kinds Hk)].
  all: split; [apply next_id_after_create|].
  all: split; [rewrite !elem_of_cons; tauto|].
  all: intros h' wid Hin; by not_in_trace Hin.
Qed.

Lemma early_and_late_errors_witness :
  let '(w', r) := exec (createTransactionRepo no_faults pay_200 None) world_100 in
  next_id w' = next_id world_100 + 1 ∧
  committed w' = committed world_100.
Proof.
  pose proof (early_and_late_errors pay_200 None world_100) as H.
  destruct (exec (createTransactionRepo no_faults pay_200 None) world_100)
    as [w' r] eqn:E.
  vm_compute in E. injection E as <- <-.
  destruct (H _ eq_refl) as (evs & _ & _ & Hlate).
  split; [|reflexivity].
  apply Hlate. apply list_elem_of_here.
Defined.

(** ** The engine's own unit-of-work *)

(** X11.  A call that opens its own unit-of-work leaves none open.  When
    the handle it would get is not in use and the rollback does not throw,
    the set of open units-of-work with their writes is the same after the
    call as before, on success and on every error. *)
Theorem own_unit_of_work_closed (fl : Faults) (data : TransactionData)
    (w : World) :
  pending w !! next_handle w = None →
  f_rollback fl = None →
  let '(w', _) := exec (createTransactionRepo fl data None) w in
  pending w' = pending w.
Proof.
  intros Hfresh Hrollback.
  destruct (exec (createTransactionRepo fl data None) w) as [w' r] eqn:E.
  paths E.
  all: unfold settle; rewrite ?Hrollback; world_simpl; try done.
  all: by rewrite delete_insert_eq, delete_id.
Qed.

Lemma own_unit_of_work_closed_witness :
  let '(w', _) := exec (createTransactionRepo no_faults pay_200 None) world_100 in
  pending w' = pending world_100.
Proof.
  apply (own_unit_of_work_closed no_faults pay_200 world_100); reflexivity.
Defined.

(** X12.  A rollback that throws hides the error that caused it.  When a call
    has opened its own unit-of-work and then fails while the rollback throws
    too, the caller gets the rollback's error, not the original one; nothing
    was committed, and the unit-of-work is left open. *)
Theorem rollback_failure_masks_error (fl : Faults) (data : TransactionData)
    (w : World) (t : Thrown) :
  f_rollback fl = Some t →
  let '(w', r) := exec (createTransactionRepo fl data None) w in
  ∀ e, r = inl e → next_handle w' ≠ next_handle w →
    e = rethrow t ∧
    committed w' = committed w ∧
    is_Some (pending w' !! next_handle w).
Proof.
  intros Hrollback.
  destruct (exec (createTransactionRepo fl data None) w) as [w' r] eqn:E.
  intros e0 -> Hopened. paths E.
  all: unfold settle in *; rewrite ?Hrollback in *; world_simpl;
    revert Hopened; world_simpl; try done.
  all: intros _; repeat split; by eexists.
Qed.

Lemma rollback_failure_masks_error_witness :
  let '(w', r) :=
    exec (createTransactionRepo rollback_refused pay_200 None) world_100 in
  r = inl (rethrow connection_refused) ∧
  committed w' = committed world_100 ∧
  is_Some (pending w' !! next_handle world_100).
Proof.
  pose proof (rollback_failure_masks_error rollback_refused pay_200 world_100
                connection_refused eq_refl) as H.
  destruct (exec (createTransactionRepo rollback_refused pay_200 None) world_100)
    as [w' r] eqn:E.
  vm_compute in E. injection E as <- <-.
  destruct (H _ eq_refl) as (He & Hc & Hp); [discriminate|].
  by rewrite He.
Defined.

(** ** Listing: which rows *)

(** X13.  Which rows a listing returns.  Every row of a listing that is
    returned is a stored row that is not deleted and meets each filter that
    is set and truthy: the walletId (unless it is 0 or NaN), the status and
    the type (unless they are the empty string), and the two ends of the
    date window.  Without a page window the converse holds too: every such
    row is returned. *)
Theorem list_membership (dbms : Database) (filters : Filters) (db : Db)
    (res : ListResult) (row : TransactionAttributes) :
  getListTransactionRepo dbms filters db = inr res →
  (row ∈ result_transactions res →
   row ∈ transactions db ∧ passes filters row) ∧
  (paginated filters = false →
   row ∈ transactions db → passes filters row →
   row ∈ result_transactions res).
Proof.
  intros Hres. split.
  - by apply elem_of_result with dbms.
  - intros Hpage Hin Hpass.
    apply getListTransactionRepo_result in Hres as (_ & -> & _); [|done].
    by apply elem_of_ordered.
Qed.

(** A type filter that is the empty string sets no condition: the deposit
    of wallet 2 is listed. *)
Lemma list_membership_witness :
  listed (getListTransactionRepo stored_order type_empty three_rows) =
    Some [row_at 3 2 3000 false; row_at 1 1 1000 false] ∧
  passes type_empty (row_at 3 2 3000 false) ∧
  row_at 1 1 1000 false ∈ [row_at 3 2 3000 false; row_at 1 1 1000 false].
Proof.
  split; [reflexivity|]. split.
  - apply (list_membership stored_order type_empty three_rows
             (mkListResult [row_at 3 2 3000 false; row_at 1 1 1000 false] 2)
             (row_at 3 2 3000 false) eq_refl).
    apply list_elem_of_here.
  - apply (proj2 (list_membership stored_order type_empty three_rows
                    (mkListResult [row_at 3 2 3000 false; row_at 1 1 1000 false]
                                  2)
                    (row_at 1 1 1000 false) eq_refl)).
    + reflexivity.
    + apply list_elem_of_here.
    + by apply (bool_decide_unpack _).
Defined.

(** ** Listing: pages *)

(** X14.  Pages tile the listing.  When the rows that pass the filters were
    created at pairwise distinct times, there is one order newest first, and
    the pages of [limit] rows asked for one call after the other (each call
    going through, each with a window of whole numbers: page [i + 1] at
    offset [i * limit]) are the consecutive stretches of [limit] rows of it:
    put end to end they are its first [pages * limit] rows, no row twice and
    none left out, whatever each call's database does with ties. *)
Theorem pages_tile (dbmss : nat → Database) (filters : Filters) (db : Db)
    (l : num) (n : Z) (pages : list num) :
  NoDup (tx_createdAt <$> matching filters db) →
  num_ltb 0%float l = true → whole l = Some n →
  (∀ i p, pages !! i = Some p →
     answers (dbmss i) ∧ num_ltb 0%float p = true ∧
     whole (num_mul (num_sub p 1%float) l) = Some (Z.of_nat i * n)) →
  ∃ rows,
    rows ≡ₚ matching filters db ∧
    StronglySorted newer_or_same rows ∧
    (∀ i p, pages !! i = Some p →
       listed (page_of (dbmss i) filters db p l) =
       Some (take (Z.to_nat n) (drop (i * Z.to_nat n) rows))) ∧
    mjoin (imap (λ i p, default [] (listed (page_of (dbmss i) filters db p l)))
                pages) =
    take (length pages * Z.to_nat n) rows.
Proof.
  intros Hnodup Hl Hn Hpages.
  pose proof (whole_positive _ _ Hl Hn) as Hpos.
  set (rows := order_by_createdAt_desc stored_order (matching filters db)).
  assert (Hperm : rows ≡ₚ matching filters db) by apply order_permutes.
  assert (Hsorted : StronglySorted newer_or_same rows) by apply order_sorts.
  assert (Hpage : ∀ i p, pages !! i = Some p →
            listed (page_of (dbmss i) filters db p l) =
            Some (take (Z.to_nat n) (drop (i * Z.to_nat n) rows))).
  { intros i p Hi. destruct (Hpages i p Hi) as (Hdbms & Hp & Ho).
    set (paged := with_window (Some p) (Some l) filters).
    assert (Hpaged : paginated paged = true).
    { apply paginated_spec. by exists p, l. }
    unfold page_of. fold paged.
    rewrite (getListTransactionRepo_paginated _ _ _ p l) by done.
    rewrite (window_whole _ _ _ (Z.of_nat i * n) n); try done; [|lia].
    assert (Hrows : ordered (dbmss i) paged db = rows).
    { unfold ordered. rewrite filtered_matching.
      change (matching paged db) with (matching filters db).
      apply newest_first_unique; [| |apply order_sorts | done].
      - by rewrite order_permutes.
      - by rewrite order_permutes, Hperm. }
    cbn [listed result_transactions]. rewrite Hrows.
    rewrite Z2Nat.inj_mul by lia. by rewrite Nat2Z.id. }
  exists rows. do 3 (split; [done|]).
  rewrite (imap_ext _ (λ i _, take (Z.to_nat n) (drop ((0 + i) * Z.to_nat n) rows))).
  - rewrite (imap_seq pages (λ i, take (Z.to_nat n) (drop (i * Z.to_nat n) rows)) 0).
    by rewrite windows_tile.
  - intros i p Hi. by rewrite (Hpage i p Hi).
Qed.

(** Twenty-five rows in pages of 10: pages 1, 2 and 3 put end to end are
    the 25 rows, newest first. *)
Lemma pages_tile_witness :
  (∃ rows,
     rows ≡ₚ matching no_filter twenty_five_rows ∧
     StronglySorted newer_or_same rows ∧
     (∀ i p, [1%float; 2%float; 3%float] !! i = Some p →
        listed (page_of stored_order no_filter twenty_five_rows p 10%float) =
        Some (take (Z.to_nat 10) (drop (i * Z.to_nat 10) rows))) ∧
     mjoin (imap (λ _ p, default [] (listed (page_of stored_order no_filter
                                               twenty_five_rows p 10%float)))
                 [1%float; 2%float; 3%float]) =
     take (length [1%float; 2%float; 3%float] * Z.to_nat 10) rows) ∧
  mjoin (imap (λ _ p, default [] (listed (page_of stored_order no_filter
                                            twenty_five_rows p 10%float)))
              [1%float; 2%float; 3%float]) =
  map (λ i, row_at i 1 (1000 + i) false)
      [25; 24; 23; 22; 21; 20; 19; 18; 17; 16; 15; 14; 13; 12; 11; 10; 9; 8; 7;
       6; 5; 4; 3; 2; 1].
Proof.
  split; [|reflexivity].
  apply (pages_tile (λ _, stored_order) no_filter twenty_five_rows 10%float
           10 [1%float; 2%float; 3%float]).
  - apply (bool_decide_unpack _). by vm_compute.
  - reflexivity.
  - reflexivity.
  - intros [| [| [| i]]] p Hi; simplify_eq/=; by repeat split.
Defined.

(** X15.  The size of a page.  When the two queries go through, with [page]
    and [limit] above 0 and a window of whole numbers (offset
    [(page - 1) * limit] from 0 on), the page is returned and holds [limit]
    rows or, at the end, what is left after the offset; a page past the end
    is empty, while the total still counts the whole filtered set. *)
Theorem page_length (dbms : Database) (filters : Filters) (db : Db)
    (p l : num) (o m : Z) :
  answers dbms →
  num_ltb 0%float p = true → num_ltb 0%float l = true →
  whole (num_mul (num_sub p 1%float) l) = Some o → 0 ≤ o →
  whole l = Some m →
  ∃ res,
    page_of dbms filters db p l = inr res ∧
    total res = length (matching filters db) ∧
    length (result_transactions res) =
      Nat.min (Z.to_nat m) (total res - Z.to_nat o) ∧
    ((total res ≤ Z.to_nat o)%nat → result_transactions res = []).
Proof.
  intros Hdbms Hp Hl Ho Hpos Hm.
  set (paged := with_window (Some p) (Some l) filters).
  assert (Hpage : paginated paged = true).
  { apply paginated_spec. by exists p, l. }
  assert (Hlen : length (ordered dbms paged db) = length (matching filters db)).
  { unfold ordered. rewrite order_permutes, filtered_matching. done. }
  exists (mkListResult
            (take (Z.to_nat m) (drop (Z.to_nat o) (ordered dbms paged db)))
            (length (matching filters db))).
  split; [|split; [done|]].
  - unfold page_of. fold paged.
    rewrite (getListTransactionRepo_paginated _ _ _ p l) by done.
    rewrite (window_whole _ _ _ o m), filtered_matching; try done.
    by eapply whole_positive.
  - cbn [total result_transactions]. rewrite <- Hlen. split.
    + by rewrite length_take, length_drop.
    + intros Hpast. rewrite drop_ge by done. apply take_nil.
Qed.

(** With 25 rows, page 3 of 10 holds the last 5 rows and page 4 none. *)
Lemma page_length_witness :
  (length <$> listed (page_of stored_order no_filter twenty_five_rows
                              3%float 10%float)) = Some 5%nat ∧
  listed (page_of stored_order no_filter twenty_five_rows 4%float 10%float) =
    Some [].
Proof.
  split.
  - destruct (page_length stored_order no_filter twenty_five_rows
                3%float 10%float 20 10) as (res & -> & Htotal & Hlen & _);
      try reflexivity; [done | discriminate |].
    cbn [listed fmap option_fmap option_map]. rewrite Hlen, Htotal.
    reflexivity.
  - destruct (page_length stored_order no_filter twenty_five_rows
                4%float 10%float 30 10) as (res & -> & Htotal & _ & Hpast);
      try reflexivity; [done | discriminate |].
    cbn [listed]. rewrite Hpast; [done|]. rewrite Htotal. vm_compute. lia.
Defined.



(** ** Recording, then listing *)

Lemma getListTransactionRepo_filtered (dbms : Database) (filters : Filters)
    (db db' : Db) :
  filtered filters db' = filtered filters db →
  getListTransactionRepo dbms filters db' =
  getListTransactionRepo dbms filters db.
Proof.
  intros H.
  unfold getListTransactionRepo, TransactionModel_findAll,
    TransactionModel_count.
  destruct (paginated filters); cbn [query_where query_offset query_limit];
    fold (filtered filters db') (filtered filters db); by rewrite H.
Qed.

(** X17.  A committed call shows up in the listings it belongs to.  After a
    successful call that owns its unit-of-work, a listing whose filters the
    new row passes has that row appended to its filtered set and a total
    that is one higher, and without a page window it returns the row; for a
    listing whose filters the row does not pass, the filtered set is as
    before and so is what the listing returns. *)
Theorem create_then_list (fl : Faults) (data : TransactionData) (w : World)
    (filters : Filters) :
  let '(w', r) := exec (createTransactionRepo fl data None) w in
  ∀ row, r = inr row →
    (passes filters row →
     matching filters (committed w') = matching filters (committed w) ++ [row] ∧
     (∀ dbms dbms' res res',
         getListTransactionRepo dbms filters (committed w) = inr res →
         getListTransactionRepo dbms' filters (committed w') = inr res' →
         total res' = S (total res)) ∧
     (paginated filters = false →
      ∀ dbms res',
        getListTransactionRepo dbms filters (committed w') = inr res' →
        row ∈ result_transactions res')) ∧
    (¬ passes filters row →
     matching filters (committed w') = matching filters (committed w) ∧
     ∀ dbms, getListTransactionRepo dbms filters (committed w') =
             getListTransactionRepo dbms filters (committed w)).
Proof.
  destruct (exec (createTransactionRepo fl data None) w) as [w' r] eqn:E.
  intros row ->.
  apply createTransactionRepo_effect in E as [(-> & b & Hc) _].
  assert (Hrows : matching filters (committed w') =
    matching filters (committed w) ++
    (if decide (passes filters (new_row data w))
     then [new_row data w] else [])).
  { unfold matching. rewrite Hc. unfold apply_writes.
    cbn [foldl apply_write transactions].
    rewrite filter_app, filter_cons, filter_nil. by destruct (decide _). }
  split.
  - intros Hpass. rewrite decide_True in Hrows by done.
    split; [done|]. split.
    + intros dbms dbms' res res' Hres Hres'.
      apply getListTransactionRepo_result in Hres as (-> & _).
      apply getListTransactionRepo_result in Hres' as (-> & _).
      rewrite !filtered_matching, Hrows, length_app. simpl. lia.
    + intros Hpage dbms res' Hres'.
      apply getListTransactionRepo_result in Hres' as (_ & -> & _); [|done].
      apply elem_of_ordered. split; [|done].
      rewrite Hc. simpl. rewrite elem_of_app. right. apply list_elem_of_here.
  - intros Hfail. rewrite decide_False, app_nil_r in Hrows by done.
    split; [done|]. intros dbms. apply getListTransactionRepo_filtered.
    by rewrite !filtered_matching.
Qed.

(** The debit of 30 from wallet 1 joins the listing of everything, and
    leaves the listing of wallet 2 as it was. *)
Lemma create_then_list_witness :
  let '(w', r) := exec (createTransactionRepo no_faults pay_30_ref1 None) world_100 in
  matching no_filter (committed w') =
    matching no_filter (committed world_100) ++ [new_row pay_30_ref1 world_100] ∧
  matching wallet_2_in_window (committed w') =
    matching wallet_2_in_window (committed world_100).
Proof.
  pose proof (create_then_list no_faults pay_30_ref1 world_100 no_filter) as H.
  pose proof (create_then_list no_faults pay_30_ref1 world_100
                wallet_2_in_window) as H'.
  destruct (exec (createTransactionRepo no_faults pay_30_ref1 None) world_100)
    as [w' r] eqn:E.
  assert (Hr : r = inr (new_row pay_30_ref1 world_100))
    by (vm_compute in E; by injection E as _ <-).
  split.
  - destruct (H _ Hr) as [Hpass _]. apply Hpass. by repeat split.
  - destruct (H' _ Hr) as [_ Hfail]. apply Hfail.
    intros (_ & Hwallet & _). by specialize (Hwallet eq_refl eq_refl).
Defined.

(** X18.  Listings and lookups by id never show what was not committed.
    After a call that failed, and after any call made in the caller's
    unit-of-work, every listing and every lookup by id return what they
    returned before the call. *)
Theorem reads_ignore_uncommitted (fl : Faults) (data : TransactionData)
    (tx : option handle) (w : World) :
  let '(w', r) := exec (createTransactionRepo fl data tx) w in
  is_Some tx ∨ (∃ e, r = inl e) →
  (∀ dbms filters,
      getListTransactionRepo dbms filters (committed w') =
      getListTransactionRepo dbms filters (committed w)) ∧
  (∀ fault id,
      (exec (getTransactionByIdRepo fault id) w').2 =
      (exec (getTransactionByIdRepo fault id) w).2).
Proof.
  destruct (exec (createTransactionRepo fl data tx) w) as [w' r] eqn:E.
  intros Hwhen.
  assert (Hc : committed w' = committed w).
  { apply createTransactionRepo_effect in E.
    destruct tx as [h|]; [by destruct E|].
    destruct Hwhen as [[? [=]] | [e ->]]. by destruct E. }
  split.
  - intros dbms filters. by rewrite Hc.
  - intros fault id. rewrite !exec_getTransactionByIdRepo. simpl. by rewrite Hc.
Qed.

Lemma reads_ignore_uncommitted_witness :
  let '(w', r) :=
    exec (createTransactionRepo no_faults pay_30_ref1 (Some 5%nat))
         world_with_caller in
  getListTransactionRepo stored_order no_filter (committed w') =
  getListTransactionRepo stored_order no_filter (committed world_with_caller).
Proof.
  pose proof (reads_ignore_uncommitted no_faults pay_30_ref1 (Some 5%nat)
                world_with_caller) as H.
  destruct (exec (createTransactionRepo no_faults pay_30_ref1 (Some 5%nat))
              world_with_caller) as [w' r].
  apply H. left. by eexists.
Defined.

(** ** Two calls on one wallet *)

Lemma run_schedule_app {E A : Type} (s1 s2 : list nat)
    (threads : list (Prog E A)) (w : World) :
  run_schedule (s1 ++ s2) threads w =
  let '(threads', w') := run_schedule s1 threads w in
  run_schedule s2 threads' w'.
Proof.
  revert threads w. induction s1 as [| i s1 IH]; intros threads w; simpl.
  - done.
  - destruct (threads !! i) as [p|]; [|apply IH].
    destruct (step p w) as [p' w']. apply IH.
Qed.

(** One call of several, scheduled alone often enough, ends as [exec] says;
    the others do not move. *)
Lemma run_schedule_thread {E A : Type} (p : Prog E A)
    (threads : list (Prog E A)) (i : nat) (w : World) :
  threads !! i = Some p →
  ∃ n, run_schedule (replicate n i) threads w =
       (<[i := lift (exec p w).2]> threads, (exec p w).1).
Proof.
  revert threads w. induction p as [a | e | X call k IH]; intros threads w Hi.
  - exists 0%nat. simpl. by rewrite list_insert_id.
  - exists 0%nat. simpl. by rewrite list_insert_id.
  - destruct (call w) as [w1 x] eqn:Hcall.
    destruct (IH x (<[i := k x]> threads) w1) as [n Hn].
    { apply list_lookup_insert_eq. by eapply lookup_lt_Some. }
    exists (S n). cbn [replicate run_schedule exec]. rewrite Hi.
    cbn [step]. rewrite Hcall, Hn.
    by rewrite list_insert_insert_eq.
Qed.

(** The first step of a call without a (truthy) referenceId: the wallet is read, and
    what is left carries the balance that was read. *)
Lemma step_lookup (data : TransactionData) (w : World) (balance : num) :
  truthy_string (referenceId data) = false →
  wallets (committed w) !! walletId data = Some balance →
  step (createTransactionRepo no_faults data None) w =
  (after_reads data balance, log (EvFindByPk None (walletId data)) w).
Proof.
  intros Href Hwallet.
  unfold createTransactionRepo, body, check_duplicate. rewrite Href.
  unfold await, Wallet_findByPk.
  cbn [f_findByPk no_faults view mbind Prog_bind prog_bind try_catch step].
  by rewrite Hwallet.
Qed.

(** What is left of the call writes the balance computed from the balance it
    carries, whatever the wallet's balance is by then. *)
Lemma exec_after_reads (data : TransactionData) (w : World) (b nb : num) :
  valid_numbers data b →
  new_balance data b = inr nb →
  let '(w', r) := exec (after_reads data b) w in
  r = inr (new_row data w) ∧
  committed w' =
    apply_writes [InsertTransaction (new_row data w);
                  SaveWallet (walletId data) nb] (committed w).
Proof.
  intros [Hnan Hpos] Hnb.
  unfold after_reads. rewrite exec_try_catch.
  unfold validate_and_write. cbn [wallet_balance wallet_id].
  rewrite Hnan, Hpos.
  rewrite exec_bind, exec_await.
  unfold sequelizeSystem_transaction. cbn [f_transaction no_faults].
  unfold write_step.
  rewrite exec_try_catch, exec_bind, exec_await.
  unfold TransactionModel_create. cbn [f_create no_faults].
  rewrite exec_bind, exec_lift. fold (new_balance data b). rewrite Hnb.
  rewrite exec_bind, exec_await. unfold Wallet_save. cbn [f_save no_faults].
  rewrite exec_bind. cbn [is_None]. rewrite exec_await.
  unfold transaction_commit. cbn [f_commit no_faults exec mret Prog_ret].
  split.
  - done.
  - cbn [commit committed log add_write bump_id wallet_id wallet_balance].
    repeat (progress (unfold writes_of;
      cbn [pending log add_write bump_id open_handle next_handle default app];
      rewrite ?lookup_insert_eq)).
    reflexivity.
Qed.

Lemma run_schedule_cons {E A : Type} (i : nat) (rest : list nat)
    (threads : list (Prog E A)) (p : Prog E A) (w : World) :
  threads !! i = Some p →
  run_schedule (i :: rest) threads w =
  let '(p', w') := step p w in run_schedule rest (<[i := p']> threads) w'.
Proof. intros Hi. cbn [run_schedule]. by rewrite Hi. Qed.

(** X19. Two calls on one wallet, neither with a non-empty referenceId,
    each valid against the balance [b] the wallet has at the start.  There
    is an interleaving (both read the wallet, then each runs to its end) in
    which both calls return their row, both rows are in the ledger, and the
    balance left is the one the second call computed from [b]: the first
    call's change of the balance is overwritten. *)
Theorem stale_balance_overwrites (w : World) (d1 d2 : TransactionData)
    (b nb1 nb2 : num) :
  walletId d2 = walletId d1 →
  truthy_string (referenceId d1) = false →
  truthy_string (referenceId d2) = false →
  wallets (committed w) !! walletId d1 = Some b →
  valid_numbers d1 b → valid_numbers d2 b →
  new_balance d1 b = inr nb1 →
  new_balance d2 b = inr nb2 →
  ∃ n m,
    let '(threads, w') :=
      run_schedule (reads_then_writes n m)
        [createTransactionRepo no_faults d1 None;
         createTransactionRepo no_faults d2 None] w in
    (∃ row1 row2,
       outcome <$> threads = [Some (inr row1); Some (inr row2)] ∧
       row1 ∈ transactions (committed w') ∧
       row2 ∈ transactions (committed w')) ∧
    wallets (committed w') !! walletId d1 = Some nb2.
Proof.
  intros Hsame Href1 Href2 Hwallet Hvalid1 Hvalid2 Hnb1 Hnb2.
  set (w1 := log (EvFindByPk None (walletId d1)) w).
  set (w2 := log (EvFindByPk None (walletId d2)) w1).
  destruct (run_schedule_thread (after_reads d1 b)
              [after_reads d1 b; after_reads d2 b] 0 w2 eq_refl)
    as [n Hn].
  pose proof (exec_after_reads d1 w2 b nb1 Hvalid1 Hnb1) as H1.
  destruct (exec (after_reads d1 b) w2) as [w3 r1].
  destruct H1 as [-> Hw3].
  cbn [fst snd lift] in Hn.
  change (<[0%nat := ?p]> [?p0; ?p1]) with [p; p1] in Hn.
  destruct (run_schedule_thread (after_reads d2 b)
              [Ret (new_row d1 w2); after_reads d2 b]
              1 w3 eq_refl) as [m Hm].
  pose proof (exec_after_reads d2 w3 b nb2 Hvalid2 Hnb2) as H2.
  destruct (exec (after_reads d2 b) w3) as [w4 r2].
  destruct H2 as [-> Hw4].
  cbn [fst snd lift] in Hm.
  change (<[1%nat := ?p]> [?p0; ?p1]) with [p0; p] in Hm.
  exists n, m. unfold reads_then_writes.
  change ([0; 1]%nat ++ ?rest) with (0%nat :: 1%nat :: rest).
  erewrite (run_schedule_cons 0); [|reflexivity].
  rewrite (step_lookup d1 w b) by done.
  change (<[0%nat := ?p]> [?p0; ?p1]) with [p; p1].
  erewrite (run_schedule_cons 1); [|reflexivity].
  rewrite (step_lookup d2 _ b) by (by rewrite ?Hsame).
  change (<[1%nat := ?p]> [?p0; ?p1]) with [p0; p].
  rewrite run_schedule_app.
  change (run_schedule (replicate n 0%nat) _ _)
    with (run_schedule (replicate n 0%nat)
            [after_reads d1 b; after_reads d2 b] w2).
  rewrite Hn, Hm.
  split.
  - exists (new_row d1 w2), (new_row d2 w3).
    split; [done|].
    rewrite Hw4, Hw3, !transactions_apply_writes.
    change (inserted [InsertTransaction ?r; SaveWallet ?x ?y]) with [r].
    rewrite !elem_of_app, !elem_of_cons. tauto.
  - rewrite Hw4, Hw3. unfold apply_writes.
    cbn [foldl apply_write wallets]. rewrite Hsame.
    rewrite !lookup_alter_eq.
    change (wallets (committed w2)) with (wallets (committed w)).
    by rewrite Hwallet.
Qed.

Lemma stale_balance_overwrites_witness :
  ∃ n m,
    let '(threads, w') :=
      run_schedule (reads_then_writes n m)
        [createTransactionRepo no_faults deposit_20 None;
         createTransactionRepo no_faults deposit_10_empty_ref None]
        world_100 in
    (∃ row1 row2,
       outcome <$> threads = [Some (inr row1); Some (inr row2)] ∧
       row1 ∈ transactions (committed w') ∧
       row2 ∈ transactions (committed w')) ∧
    wallets (committed w') !! 1 = Some 110%float.
Proof.
  apply (stale_balance_overwrites world_100 deposit_20 deposit_10_empty_ref
           100%float 120%float 110%float); (reflexivity || by split).
Defined.

(** X20. Calls made one after the other on one wallet add up, with or
    without a caller's unit-of-work: when both succeed, the second call
    starts from the balance the first one saved, and the balance seen
    afterwards is the second update of the first update of the balance seen
    at the start. *)
Theorem calls_in_sequence_add_up (fl1 fl2 : Faults) (d1 d2 : TransactionData)
    (tx : option handle) (w w1 w2 : World) (row1 row2 : TransactionAttributes) :
  walletId d2 = walletId d1 →
  exec (createTransactionRepo fl1 d1 tx) w = (w1, inr row1) →
  exec (createTransactionRepo fl2 d2 tx) w1 = (w2, inr row2) →
  ∃ b nb1 nb2,
    wallets (view w tx) !! walletId d1 = Some b ∧
    new_balance d1 b = inr nb1 ∧
    new_balance d2 nb1 = inr nb2 ∧
    wallets (view w2 tx) !! walletId d1 = Some nb2.
Proof.
  intros Hsame E1 E2.
  destruct (createTransactionRepo_view _ _ _ _ _ _ E1)
    as [[_ [e [=]]] | [(b0 & e & [=] & _)
                      | (b & nb1 & _ & [_ Hb] & _ & _ & Hnb1 & Hv1)]].
  destruct (createTransactionRepo_view _ _ _ _ _ _ E2)
    as [[_ [e [=]]] | [(b0 & e & [=] & _)
                      | (b' & nb2 & _ & [_ Hb'] & _ & _ & Hnb2 & Hv2)]].
  assert (b' = nb1) as ->.
  { rewrite Hv1 in Hb'. unfold apply_writes in Hb'.
    cbn [foldl apply_write wallets] in Hb'.
    rewrite Hsame, lookup_alter_eq, Hb in Hb'. by injection Hb'. }
  exists b, nb1, nb2. split; [done|]. split; [done|]. split; [done|].
  rewrite Hv2, Hv1. unfold apply_writes. cbn [foldl apply_write wallets].
  by rewrite Hsame, !lookup_alter_eq, Hb.
Qed.

Lemma calls_in_sequence_add_up_witness :
  ∃ b nb1 nb2,
    wallets (view world_with_caller (Some 5%nat)) !! 1 = Some b ∧
    new_balance pay_30_ref1 b = inr nb1 ∧
    new_balance deposit_20 nb1 = inr nb2 ∧
    wallets
      (view (exec (createTransactionRepo no_faults deposit_20 (Some 5%nat))
               (exec (createTransactionRepo no_faults pay_30_ref1 (Some 5%nat))
                     world_with_caller).1).1
            (Some 5%nat)) !! 1 = Some nb2.
Proof.
  eapply (calls_in_sequence_add_up no_faults no_faults pay_30_ref1 deposit_20
            (Some 5%nat) world_with_caller);
    [reflexivity | vm_compute; reflexivity | vm_compute; reflexivity].
Defined.
